(** * The module rewrite plugin of the dev server

    Shallow embedding of [src/node/serverPluginModuleRewrite.ts]: the
    rewrite cache, the text buffer used for patching, the import
    rewriter with its importer/importee graph, and the response
    middleware (script responses and the HTML entry).

    JavaScript strings are modelled as [string]; a character stands for
    one code unit below 256, so the line terminators a regular
    expression can meet are LF and CR. *)

From Stdlib Require Import String Ascii ZArith List Lia.
From stdpp Require Import gmap strings list fin_maps.

Open Scope string_scope.
Open Scope list_scope.

(** ** JavaScript string primitives and the regular expressions of the file *)

Module Js.

Definition lf : string := String (ascii_of_nat 10) EmptyString.
Definition dquote : string := String (ascii_of_nat 34) EmptyString.

Definition in_range (lo hi : nat) (c : ascii) : bool :=
  Nat.leb lo (nat_of_ascii c) && Nat.leb (nat_of_ascii c) hi.

(** [\d] and [\w] *)
Definition is_digit (c : ascii) : bool := in_range 48 57 c.
Definition is_word_char (c : ascii) : bool :=
  is_digit c || in_range 65 90 c || in_range 97 122 c || Ascii.eqb c "_".

(** the characters [.] does not match *)
Definition is_line_terminator (c : ascii) : bool :=
  Ascii.eqb c (ascii_of_nat 10) || Ascii.eqb c (ascii_of_nat 13).

Fixpoint all_chars (p : ascii -> bool) (s : string) : bool :=
  match s with
  | EmptyString => true
  | String c s' => p c && all_chars p s'
  end.

Fixpoint drop (n : nat) (s : string) : string :=
  match n, s with
  | O, _ => s
  | S _, EmptyString => EmptyString
  | S n', String _ s' => drop n' s'
  end.

(** [s.substring(start, end)]: the arguments are clamped to the length
    and swapped when [start > end]. *)
Definition substring (start end_ : nat) (s : string) : string :=
  let lo := Nat.min start end_ in
  let hi := Nat.max start end_ in
  String.substring lo (hi - lo) s.

Definition startsWith (p s : string) : bool := String.prefix p s.

Fixpoint endsWith (p s : string) : bool :=
  String.eqb p s ||
  match s with
  | EmptyString => false
  | String _ s' => endsWith p s'
  end.

(** [/^[^\/\.]/.test(id)] *)
Definition bareRE_test (id : string) : bool :=
  match id with
  | EmptyString => false
  | String c _ => negb (Ascii.eqb c "/") && negb (Ascii.eqb c ".")
  end.

(** [id.match(/\?.*$/)]: the match starts at the leftmost [?] that is
    followed by no line terminator up to the end of the input, and
    always extends to the end. *)
Fixpoint queryRE_match (id : string) : option string :=
  match id with
  | EmptyString => None
  | String c s' =>
      if Ascii.eqb c "?" && all_chars (fun d => negb (is_line_terminator d)) s'
      then Some id
      else queryRE_match s'
  end.

(** [id.replace(/\?.*$/, '')] *)
Fixpoint queryRE_strip (id : string) : string :=
  match id with
  | EmptyString => EmptyString
  | String c s' =>
      if Ascii.eqb c "?" && all_chars (fun d => negb (is_line_terminator d)) s'
      then EmptyString
      else String c (queryRE_strip s')
  end.

(** [/\.\w+/.test(pathname)] *)
Fixpoint extRE_test (pathname : string) : bool :=
  match pathname with
  | EmptyString => false
  | String c s' =>
      (Ascii.eqb c "." &&
       match s' with
       | String d _ => is_word_char d
       | EmptyString => false
       end)
      || extRE_test s'
  end.

(** [/.vue$|.vue\?type=/.test(importer)]; the dots are not escaped in
    the source and match any character but a line terminator. *)
Fixpoint vueRE_test (importer : string) : bool :=
  match importer with
  | EmptyString => false
  | String c s' =>
      (negb (is_line_terminator c) &&
       (String.eqb s' "vue" || String.prefix "vue?type=" s'))
      || vueRE_test s'
  end.

Fixpoint drop_digits (s : string) : string :=
  match s with
  | EmptyString => EmptyString
  | String c s' => if is_digit c then drop_digits s' else s
  end.

(** [url.replace(/(&|\?)t=\d+/, '')]: only the first match is removed. *)
Fixpoint timestampRE_strip (url : string) : string :=
  match url with
  | EmptyString => EmptyString
  | String c s' =>
      if Ascii.eqb c "&" || Ascii.eqb c "?" then
        match s' with
        | String "t" (String "=" (String d r)) =>
            if is_digit d then drop_digits r
            else String c (timestampRE_strip s')
        | _ => String c (timestampRE_strip s')
        end
      else String c (timestampRE_strip s')
  end.

(** first occurrence of [needle]: the text before it and the text after *)
Fixpoint find_sub (needle s : string) : option (string * string) :=
  if String.prefix needle s then Some (EmptyString, drop (String.length needle) s)
  else
    match s with
    | EmptyString => None
    | String c s' =>
        match find_sub needle s' with
        | Some (before, after) => Some (String c before, after)
        | None => None
        end
    end.

(** the number of places at which [needle] occurs in [s] *)
Fixpoint count_sub (needle s : string) : nat :=
  (if String.prefix needle s then 1 else 0) +
  match s with
  | EmptyString => 0
  | String _ s' => count_sub needle s'
  end.

(** [[^>]*>] at the start of [s]: the text up to and including the
    first [>], and the rest *)
Fixpoint upto_gt (s : string) : option (string * string) :=
  match s with
  | EmptyString => None
  | String c s' =>
      if Ascii.eqb c ">" then Some (String c EmptyString, s')
      else
        match upto_gt s' with
        | Some (tag, rest) => Some (String c tag, rest)
        | None => None
        end
  end.

(** [/(<script\b[^>]*>)([\s\S]*?)<\/script>/] anchored at the start of
    [s]: the open tag, the script text and the length of the match.
    [\b] asks for a non-word character after [<script]; the lazy
    [[\s\S]*?] stops at the first [</script>]. *)
Definition scriptRE_match_at (s : string) : option (string * string * nat) :=
  if String.prefix "<script" s then
    match drop 7 s with
    | EmptyString => None
    | String c _ as r =>
        if is_word_char c then None
        else
          match upto_gt r with
          | None => None
          | Some (attrs, body) =>
              match find_sub "</script>" body with
              | None => None
              | Some (script, _) =>
                  Some ("<script" +:+ attrs, script,
                        7 + String.length attrs + String.length script + 9)
              end
          end
    end
  else None.

End Js.

(** ** Errors thrown by JavaScript code

    The messages of the errors thrown by the libraries are shortened. *)

Inductive JsError : Type :=
| Error (message : string)
| TypeError (message : string).

(** ** [lru-cache]: the operations the plugin uses *)

Module LRUCache.

(** Entries in recency order, most recently used first.  Every entry
    has length 1 (no [length] option is given) and never expires (no
    [maxAge]). *)
Record t := { max : nat; entries : list (string * string) }.

Definition create (max : nat) : t := {| max := max; entries := [] |}.

Definition key_is (key : string) (e : string * string) : bool :=
  String.eqb key (fst e).

Definition remove (key : string) (l : list (string * string)) :=
  List.filter (fun e => negb (key_is key e)) l.

Definition peek (key : string) (c : t) : option string :=
  match List.find (key_is key) (entries c) with
  | Some e => Some (snd e)
  | None => None
  end.

(** [has] does not touch the recency order *)
Definition has (key : string) (c : t) : bool :=
  List.existsb (key_is key) (entries c).

(** [get] moves a hit to the front *)
Definition get (key : string) (c : t) : option string * t :=
  match peek key c with
  | Some v => (Some v, {| max := max c; entries := (key, v) :: remove key (entries c) |})
  | None => (None, c)
  end.

(** [set] puts the entry at the front and trims from the tail ([max] is
    at least 1, so an entry of length 1 is never refused) *)
Definition set (key value : string) (c : t) : t :=
  {| max := max c;
     entries := List.firstn (max c) ((key, value) :: remove key (entries c)) |}.

Definition del (key : string) (c : t) : t :=
  {| max := max c; entries := remove key (entries c) |}.

End LRUCache.

(** ** [magic-string]: [new MagicString], [overwrite], [toString] *)

Module MagicString.

(** A chunk covers the range [cstart, cend) of the original text;
    [content] is what it prints. *)
Record Chunk := {
  cstart : nat;
  cend : nat;
  content : string;
  edited : bool
}.

(** The chunks are the pieces the original is cut into, in order (the
    library's [byStart] and [byEnd] hold every one of them).  The
    library links them by [next]; [appended] lists the links that
    [overwrite] has redirected: an entry [(k, text)] says that the
    chunk ending at offset [k] is followed by an appended chunk that
    prints [text] and is the last of the chain. *)
Record t := {
  original : string;
  chunks : list Chunk;
  appended : list (nat * string)
}.

Definition create (source : string) : t :=
  {| original := source;
     chunks := [ {| cstart := 0; cend := String.length source;
                    content := source; edited := false |} ];
     appended := [] |}.

(** the text of the chunk appended after the chunk that ends at [k] *)
Fixpoint appended_at (k : nat) (app : list (nat * string)) : option string :=
  match app with
  | [] => None
  | (k', text) :: rest => if Nat.eqb k' k then Some text else appended_at k rest
  end.

Definition contains (c : Chunk) (index : nat) : bool :=
  Nat.ltb (cstart c) index && Nat.ltb index (cend c).

(** [Chunk.split]: the halves of an unedited chunk print their part
    of the original; the halves of a chunk edited to nothing stay
    edited and empty *)
Definition split_chunk (orig : string) (c : Chunk) (index : nat) : list Chunk :=
  if edited c then
    [ {| cstart := cstart c; cend := index; content := EmptyString; edited := true |};
      {| cstart := index; cend := cend c; content := EmptyString; edited := true |} ]
  else
    [ {| cstart := cstart c; cend := index;
         content := Js.substring (cstart c) index orig; edited := false |};
      {| cstart := index; cend := cend c;
         content := Js.substring index (cend c) orig; edited := false |} ].

(** [_split(index)]: nothing to do at a chunk boundary; a chunk with
    an edited, non-empty content cannot be split *)
Fixpoint split (orig : string) (index : nat) (cs : list Chunk) : JsError + list Chunk :=
  match cs with
  | [] => inr []
  | c :: rest =>
      if contains c index then
        if edited c && negb (String.eqb (content c) EmptyString)
        then inl (Error "Cannot split a chunk that has already been edited")
        else inr (split_chunk orig c index ++ rest)
      else
        match split orig index rest with
        | inl e => inl e
        | inr rest' => inr (c :: rest')
        end
  end.

(** the chunk starting at [start] takes the new content, the other
    chunks of the range print nothing *)
Definition edit_range (start end_ : nat) (new : string) (c : Chunk) : Chunk :=
  if Nat.eqb (cstart c) start then
    {| cstart := cstart c; cend := cend c; content := new; edited := true |}
  else if Nat.ltb start (cstart c) && Nat.leb (cend c) end_ then
    {| cstart := cstart c; cend := cend c; content := EmptyString; edited := true |}
  else c.

(** [overwrite(start, end, content)], after the two bound checks and
    the two splits.  [first] is [byStart[start]], the chunk that starts
    at [start]: it takes the new content and the chunks after it up to
    [byEnd[end]] are emptied.  The walk from [first] follows [next]: it
    fails across a redirected link, and with [end < start] it never
    meets [byEnd[end]].  When no chunk starts at [start] (it is the
    length of the text or more) the library takes the call for an
    insertion at the end: a new chunk is linked after [byEnd[end]], and
    what followed that chunk is no longer printed. *)
Definition overwrite (start end_ : nat) (new : string) (m : t) : JsError + t :=
  if Nat.ltb (String.length (original m)) end_ then inl (Error "end is out of bounds")
  else if Nat.eqb start end_ then inl (Error "Cannot overwrite a zero-length range")
  else
    match split (original m) start (chunks m) with
    | inl e => inl e
    | inr cs1 =>
        match split (original m) end_ cs1 with
        | inl e => inl e
        | inr cs2 =>
            match List.find (fun c => Nat.eqb (cstart c) start) cs2 with
            | Some first =>
                if Nat.ltb (cend first) end_
                   && bool_decide (is_Some (appended_at (cend first) (appended m)))
                then inl (Error "Cannot overwrite across a split point")
                else if Nat.ltb end_ start
                        || existsb (fun p => Nat.ltb (cend first) (fst p)
                                             && Nat.ltb (fst p) end_) (appended m)
                then inl (TypeError "Cannot read property 'edit' of null")
                else inr {| original := original m;
                            chunks := List.map (edit_range start end_ new) cs2;
                            appended := appended m |}
            | None =>
                if existsb (fun c => Nat.eqb (cend c) end_) cs2
                then inr {| original := original m; chunks := cs2;
                            appended := (end_, new) :: appended m |}
                else inl (TypeError "Cannot set property 'next' of undefined")
            end
        end
    end.

(** the contents of the chunks, in order *)
Definition render (cs : list Chunk) : string :=
  List.fold_right (fun c acc => content c +:+ acc) EmptyString cs.

(** [toString]: the contents of the chunks along the chain, which ends
    with the first appended chunk *)
Fixpoint render_chain (app : list (nat * string)) (cs : list Chunk) : string :=
  match cs with
  | [] => EmptyString
  | c :: rest =>
      content c +:+
      match appended_at (cend c) app with
      | Some text => text
      | None => render_chain app rest
      end
  end.

Definition toString (m : t) : string := render_chain (appended m) (chunks m).

(** The chunks cover the original from [from] to its end, in order and
    without gap, and a chunk that was not edited prints its part of the
    original. *)
Fixpoint chunks_wf (orig : string) (from : nat) (cs : list Chunk) : Prop :=
  match cs with
  | [] => from = String.length orig
  | c :: rest =>
      cstart c = from /\ cstart c <= cend c /\
      (edited c = false -> content c = Js.substring (cstart c) (cend c) orig) /\
      chunks_wf orig (cend c) rest
  end.

Definition wf (m : t) : Prop :=
  appended m = [] /\ chunks_wf (original m) 0 (chunks m).

(** no chunk that overlaps the range [a, b) of the original was edited *)
Definition chunks_intact (a b : nat) (cs : list Chunk) : Prop :=
  List.Forall (fun c => cstart c < b -> a < cend c -> edited c = false) cs.

Definition intact (a b : nat) (m : t) : Prop := chunks_intact a b (chunks m).

(** a buffer over [source] in which the range [a, b) has not been
    touched *)
Definition keeps (source : string) (a b : nat) (m : t) : Prop :=
  original m = source /\ wf m /\ intact a b m.

End MagicString.


(** ** The shared state: dependency graph, rewrite cache, log *)

(** What [es-module-lexer] reports for one import: the offsets of the
    specifier, and [d = -1] for a static import, [d >= 0] for a dynamic
    one. *)
Module ImportSpecifier.
Record t := { s : nat; e : nat; d : Z }.
End ImportSpecifier.

Record InternalResolver := {
  idToRequest : string -> JsError + option string;
  fileToRequest : string -> string
}.

Inductive LogEvent : Type :=
| Debug (message : string)                      (* debug('vite:rewrite') *)
| DebugHmr (message : string)                   (* debug('vite:hmr') *)
| ConsoleError (message : string) (e : JsError) (* console.error *).

(** [importeeMap] and [importerMap] are the maps exported by the HMR
    plugin, [rewriteCache] is the module-level cache of this file;
    [log] holds what was logged, newest first. *)
Record State := {
  importeeMap : gmap string (gset string);
  importerMap : gmap string (gset string);
  rewriteCache : LRUCache.t;
  log : list LogEvent
}.

Definition initial : State :=
  {| importeeMap := ∅; importerMap := ∅;
     rewriteCache := LRUCache.create 1024; log := [] |}.

Definition set_importeeMap (m : gmap string (gset string)) (st : State) : State :=
  {| importeeMap := m; importerMap := importerMap st;
     rewriteCache := rewriteCache st; log := log st |}.

Definition set_importerMap (m : gmap string (gset string)) (st : State) : State :=
  {| importeeMap := importeeMap st; importerMap := m;
     rewriteCache := rewriteCache st; log := log st |}.

Definition set_rewriteCache (c : LRUCache.t) (st : State) : State :=
  {| importeeMap := importeeMap st; importerMap := importerMap st;
     rewriteCache := c; log := log st |}.

Definition emit (ev : LogEvent) (st : State) : State :=
  {| importeeMap := importeeMap st; importerMap := importerMap st;
     rewriteCache := rewriteCache st; log := ev :: log st |}.

(** Modelled from the spec: [ensureMapEntry] of the HMR plugin
    (serverPluginHmr), whose source is not part of this file: graph
    entries "are created lazily on first edge insertion".  Returns the
    map, with the entry created when it was missing, and the entry. *)
Definition ensureMapEntry (map : gmap string (gset string)) (key : string)
  : gmap string (gset string) * gset string :=
  match map !! key with
  | Some entry => (map, entry)
  | None => (<[key := ∅]> map, ∅)
  end.

(** ** Computations that change the state and may throw *)

Definition M (A : Type) : Type := State -> State * (JsError + A).

Definition ret {A} (a : A) : M A := fun st => (st, inr a).

Definition bind {A B} (m : M A) (k : A -> M B) : M B :=
  fun st =>
    match m st with
    | (st', inr a) => k a st'
    | (st', inl e) => (st', inl e)
    end.

Definition lift {A} (r : JsError + A) : M A := fun st => (st, r).

Definition modify (f : State -> State) : M unit := fun st => (f st, inr tt).

Definition gets {A} (f : State -> A) : M A := fun st => (st, inr (f st)).

Declare Scope m_scope.
Delimit Scope m_scope with M.
Notation "x <- c1 ;; c2" := (bind c1 (fun x => c2))
  (at level 100, c1 at next level, right associativity) : m_scope.
Notation "c1 ;; c2" := (bind c1 (fun _ => c2))
  (at level 100, right associativity) : m_scope.

Definition debug (message : string) : M unit := modify (emit (Debug message)).
Definition debugHmr (message : string) : M unit := modify (emit (DebugHmr message)).

(** [xs.forEach(f)], the variables the callback assigns being threaded
    as [l]; a throw leaves the loop *)
Fixpoint forEach {A L} (f : A -> L -> M L) (xs : list A) (l : L) : M L :=
  match xs with
  | [] => ret l
  | x :: xs' => (l' <- f x l ;; forEach f xs' l')%M
  end.

(** a string or [undefined] in a condition or on the left of [||] *)
Definition truthy (v : option string) : bool :=
  match v with
  | Some r => negb (String.eqb r EmptyString)
  | None => false
  end.

Definition or_else (v : option string) (fallback : string) : string :=
  match v with
  | Some r => if String.eqb r EmptyString then fallback else r
  | None => fallback
  end.

(** ** [rewriteImports] and the plugin *)

Section Plugin.

(** The collaborators imported by the file.  [parseImports] is the
    lexer ([es-module-lexer]); it throws on source it cannot lex.
    [rewriteFileWithHMR] and [hmrClientPublicPath] come from the HMR
    plugin; the transformer patches the buffer it is given and may
    throw.  [path_dirname], [path_resolve] and [slash] are
    [path.dirname], [path.resolve] and the [slash] package. *)
Variable parseImports : string -> JsError + list ImportSpecifier.t.
Variable rewriteFileWithHMR : string -> string -> MagicString.t -> JsError + MagicString.t.
Variable hmrClientPublicPath : string.
Variable path_dirname : string -> string.
Variable path_resolve : string -> string -> string.
Variable slash : string -> string.

(** The variables of one pass that the [forEach] callback assigns:
    the buffer [s], [hasReplaced], and the set [currentImportees]. *)
Record Locals := {
  buf : MagicString.t;
  hasReplaced : bool;
  currentImportees : gset string
}.

(** lines 150: [resolver.idToRequest(id) || `/@modules/${id}`] *)
Definition resolve_bare (resolver : InternalResolver) (id : string) : JsError + string :=
  match idToRequest resolver id with
  | inl err => inl err
  | inr r => inr (or_else r ("/@modules/" +:+ id))
  end.

(** lines 162-176: path and query of a relative or absolute specifier *)
Definition resolve_path (id : string) (timestamp : option string) : string :=
  let pathname := Js.queryRE_strip id in
  let query := match Js.queryRE_match id with Some m => m | None => EmptyString end in
  let pathname := if negb (Js.extRE_test pathname) then pathname +:+ ".js" else pathname in
  let query :=
    if truthy timestamp then
      query +:+ (if negb (String.eqb query EmptyString) then "&" else "?")
            +:+ "t=" +:+ default EmptyString timestamp
    else query in
  pathname +:+ query.

Definition importee_of (importer resolved : string) : string :=
  slash (path_resolve (path_dirname importer) resolved).

(** lines 145-194: the body of the [forEach] callback *)
Definition rewrite_import (source importer : string) (resolver : InternalResolver)
    (timestamp : option string) (imp : ImportSpecifier.t) (l : Locals) : M Locals :=
  let start := ImportSpecifier.s imp in
  let end_ := ImportSpecifier.e imp in
  let dynamicIndex := ImportSpecifier.d imp in
  let id := Js.substring start end_ source in
  if Z.eqb dynamicIndex (-1) then
    (rl <- (if Js.bareRE_test id then
              resolved <- lift (resolve_bare resolver id) ;;
              if String.eqb resolved hmrClientPublicPath && negb (Js.vueRE_test importer)
              then
                s' <- lift (rewriteFileWithHMR source importer (buf l)) ;;
                ret (resolved,
                     {| buf := s'; hasReplaced := true;
                        currentImportees := currentImportees l |})
              else ret (resolved, l)
            else ret (resolve_path id timestamp, l)) ;;
     let resolved := fst rl in
     let l := snd rl in
     l <- (if negb (String.eqb resolved id) then
             debug ("    " +:+ Js.dquote +:+ id +:+ Js.dquote +:+ " --> "
                    +:+ Js.dquote +:+ resolved +:+ Js.dquote) ;;
             s' <- lift (MagicString.overwrite start end_ resolved (buf l)) ;;
             ret {| buf := s'; hasReplaced := true;
                    currentImportees := currentImportees l |}
           else ret l) ;;
     let importee := importee_of importer resolved in
     (* [currentImportees] is the very set [importeeMap] holds for
        [importer]: adding to it shows in the map *)
     let current := currentImportees l ∪ {[ importee ]} in
     modify (fun st => set_importeeMap (<[importer := current]> (importeeMap st)) st) ;;
     debugHmr ("        " +:+ importer +:+ " imports " +:+ importee) ;;
     modify (fun st =>
               set_importerMap
                 (let (map, entry) := ensureMapEntry (importerMap st) importee in
                  <[importee := entry ∪ {[ importer ]}]> map) st) ;;
     ret {| buf := buf l; hasReplaced := hasReplaced l; currentImportees := current |})%M
  else if Z.leb 0 dynamicIndex then
    (debug ("    dynamic import " +:+ Js.dquote +:+ id +:+ Js.dquote +:+ " (ignored)") ;;
     ret l)%M
  else ret l.

(** lines 199-206, for one previous importee *)
Definition remove_stale (importer : string) (current : gset string)
    (st : State) (importee : string) : State :=
  if decide (importee ∈ current) then st
  else
    match importerMap st !! importee with
    | Some importers =>
        set_importerMap (<[importee := importers ∖ {[ importer ]}]> (importerMap st)) st
    | None => st
    end.

(** lines 134-218: the body of the [try] *)
Definition rewrite_body (source importer : string) (resolver : InternalResolver)
    (timestamp : option string) : M string :=
  (imports <- lift (parseImports source) ;;
   if negb (Nat.eqb (length imports) 0) then
     debug (importer +:+ ": rewriting") ;;
     prevImportees <- gets (fun st => importeeMap st !! importer) ;;
     modify (fun st => set_importeeMap (<[importer := ∅]> (importeeMap st)) st) ;;
     l <- forEach (rewrite_import source importer resolver timestamp) imports
            {| buf := MagicString.create source; hasReplaced := false;
               currentImportees := ∅ |} ;;
     match prevImportees with
     | Some prev =>
         modify (fun st =>
                   List.fold_left (remove_stale importer (currentImportees l))
                     (elements prev) st)
     | None => ret tt
     end ;;
     (if negb (hasReplaced l) then debug "    no imports rewritten." else ret tt) ;;
     ret (if hasReplaced l then MagicString.toString (buf l) else source)
   else
     debug (importer +:+ ": no imports found.") ;;
     ret source)%M.

(** lines 124-226; [source] is a string already, so the conversion of
    lines 130-132 does not apply *)
Definition rewriteImports (source importer : string) (resolver : InternalResolver)
    (timestamp : option string) (st : State) : string * State :=
  match rewrite_body source importer resolver timestamp st with
  | (st', inr result) => (result, st')
  | (st', inl err) =>
      (source,
       emit (Debug source)
         (emit (ConsoleError
                  ("[vite] Error: module imports rewrite failed for "
                   +:+ importer +:+ "." +:+ Js.lf) err) st'))
  end.


(** *** The plugin: watcher handler and response middleware *)

(** lines 31-35 *)
Definition on_change (resolver : InternalResolver) (file : string) (st : State) : State :=
  let publicPath := fileToRequest resolver file in
  let st := emit (Debug (publicPath +:+ ": cache busted")) st in
  set_rewriteCache (LRUCache.del publicPath (rewriteCache st)) st.

(** lines 39-43 *)
Definition devInjectionCode : string :=
  Js.lf +:+ "<script>" +:+
  "window.__DEV__ = true" +:+ Js.lf +:+
  "window.process = { env: { NODE_ENV: 'development' }}" +:+ Js.lf +:+
  "</script>" +:+ Js.lf.

(** [html.replace(re, callback)] with the global flag: the input cut
    into the matches of the script pattern, leftmost first and not
    overlapping, and the characters between them.  [skip] counts the
    characters of the current match still to pass. *)
Inductive Piece : Type :=
| Text (c : ascii)
| Script (openTag script : string).

Fixpoint scan_scripts (skip : nat) (html : string) : list Piece :=
  match html with
  | EmptyString => []
  | String c html' =>
      match skip with
      | S k => scan_scripts k html'
      | O =>
          match Js.scriptRE_match_at html with
          | Some (openTag, script, len) => Script openTag script :: scan_scripts (len - 1) html'
          | None => Text c :: scan_scripts 0 html'
          end
      end
  end.

(** lines 62-71: the replacement callback; [hasInjectedDevFlag] is
    read and set before the block is rewritten *)
Definition replace_script (resolver : InternalResolver) (openTag script : string)
    (hasInjectedDevFlag : bool) (st : State) : string * bool * State :=
  let devFlag := if hasInjectedDevFlag then EmptyString else devInjectionCode in
  let (rewritten, st') := rewriteImports script "/index.html" resolver None st in
  (devFlag +:+ openTag +:+ rewritten +:+ "</script>", true, st').

(** lines 59-72: unmatched text is copied, each match is replaced by
    what the callback returns *)
Fixpoint replace_scripts (resolver : InternalResolver) (pieces : list Piece)
    (hasInjectedDevFlag : bool) (st : State) : string * State :=
  match pieces with
  | [] => (EmptyString, st)
  | Text c :: rest =>
      let (out, st') := replace_scripts resolver rest hasInjectedDevFlag st in
      (String c out, st')
  | Script openTag script :: rest =>
      let '(block, flag, st1) := replace_script resolver openTag script hasInjectedDevFlag st in
      let (out, st2) := replace_scripts resolver rest flag st1 in
      (block +:+ out, st2)
  end.

(** A response body: a string, or a stream delivering chunks. *)
Inductive Body : Type :=
| BodyString (text : string)
| BodyStream (chunks : list string).

(** lines 108-122 *)
Definition readBody (stream : Body) : string :=
  match stream with
  | BodyStream chunks => List.fold_left (fun res chunk => res +:+ chunk) chunks EmptyString
  | BodyString text => text
  end.

Definition body_truthy (b : Body) : bool :=
  match b with
  | BodyStream _ => true
  | BodyString text => negb (String.eqb text EmptyString)
  end.

(** What the middleware reads of the Koa context once the downstream
    middlewares have run: [is_js] is [ctx.response.is('js')],
    [query_type] and [query_t] are [ctx.query.type] and
    [ctx.query.t]. *)
Record Context := {
  status : nat;
  path : string;
  url : string;
  body : Body;
  is_js : bool;
  vue : bool;
  query_type : option string;
  query_t : option string
}.

Definition set_body (b : Body) (ctx : Context) : Context :=
  {| status := status ctx; path := path ctx; url := url ctx; body := b;
     is_js := is_js ctx; vue := vue ctx;
     query_type := query_type ctx; query_t := query_t ctx |}.

(** [ctx.body = rewriteCache.get(key)], reached after [has(key)]
    answered yes, when [get] hits *)
Definition serve_from_cache (key : string) (ctx : Context) (st : State) : Context * State :=
  let (hit, cache) := LRUCache.get key (rewriteCache st) in
  (set_body (BodyString (default EmptyString hit)) ctx, set_rewriteCache cache st).

(** lines 52-75 *)
Definition html_entry (resolver : InternalResolver) (ctx : Context) (st : State)
  : Context * State :=
  let html := readBody (body ctx) in
  if LRUCache.has html (rewriteCache st) then
    serve_from_cache html ctx (emit (Debug "/index.html: serving from cache") st)
  else if body_truthy (body ctx) then
    let (out, st1) := replace_scripts resolver (scan_scripts 0 html) false st in
    (set_body (BodyString out) ctx,
     set_rewriteCache (LRUCache.set html out (rewriteCache st1)) st1)
  else (ctx, st).

(** lines 88-101 *)
Definition script_response (resolver : InternalResolver) (ctx : Context) (st : State)
  : Context * State :=
  let content := readBody (body ctx) in
  if LRUCache.has content (rewriteCache st) then
    serve_from_cache content ctx (emit (Debug (url ctx +:+ ": serving from cache")) st)
  else
    let (out, st1) :=
      rewriteImports content (Js.timestampRE_strip (url ctx)) resolver (query_t ctx) st in
    (set_body (BodyString out) ctx,
     set_rewriteCache (LRUCache.set content out (rewriteCache st1)) st1).

(** lines 45-105, after [await next()] *)
Definition middleware (resolver : InternalResolver) (ctx : Context) (st : State)
  : Context * State :=
  if Nat.eqb (status ctx) 304 then (ctx, st)
  else
    let (ctx, st) :=
      if String.eqb (path ctx) "/index.html" then html_entry resolver ctx st
      else (ctx, st) in
    if is_js ctx
       && negb (Js.endsWith ".map" (url ctx))
       && negb (Js.startsWith "/@hmr" (path ctx))
       && negb ((Js.endsWith ".vue" (path ctx) || vue ctx)
                && bool_decide (is_Some (query_type ctx)))
    then script_response resolver ctx st
    else (ctx, emit (Debug ("not rewriting: " +:+ url ctx)) st).

(** *** Notions used to state the properties *)

(** the members of the entry of [key], none when there is no entry *)
Definition members (m : gmap string (gset string)) (key : string) : gset string :=
  default ∅ (m !! key).

Definition importees (st : State) (importer : string) : gset string :=
  members (importeeMap st) importer.

Definition importers (st : State) (importee : string) : gset string :=
  members (importerMap st) importee.

(** the two maps describe the same edges *)
Definition forward (st : State) : Prop :=
  ∀ I E, E ∈ importees st I -> I ∈ importers st E.

Definition symmetric (st : State) : Prop :=
  ∀ I E, E ∈ importees st I <-> I ∈ importers st E.

Definition is_static (imp : ImportSpecifier.t) : bool :=
  Z.eqb (ImportSpecifier.d imp) (-1).

Definition is_dynamic (imp : ImportSpecifier.t) : bool :=
  Z.leb 0 (ImportSpecifier.d imp).

Definition specifier (source : string) (imp : ImportSpecifier.t) : string :=
  Js.substring (ImportSpecifier.s imp) (ImportSpecifier.e imp) source.

(** the rewritten specifier of an import, as the callback computes it *)
Definition resolved_of (source : string) (resolver : InternalResolver)
    (timestamp : option string) (imp : ImportSpecifier.t) : JsError + string :=
  let id := specifier source imp in
  if Js.bareRE_test id then resolve_bare resolver id
  else inr (resolve_path id timestamp).

(** the importee a processed import adds to the graph *)
Definition contribution (source importer : string) (resolver : InternalResolver)
    (timestamp : option string) (imp : ImportSpecifier.t) : gset string :=
  if is_static imp then
    match resolved_of source resolver timestamp imp with
    | inr resolved => {[ importee_of importer resolved ]}
    | inl _ => ∅
    end
  else ∅.

Definition static_importees (source importer : string) (resolver : InternalResolver)
    (timestamp : option string) (imports : list ImportSpecifier.t) : gset string :=
  ⋃ (contribution source importer resolver timestamp <$> imports).

(** the importee set of a source text *)
Definition source_importees (source importer : string) (resolver : InternalResolver)
    (timestamp : option string) : gset string :=
  match parseImports source with
  | inr imports => static_importees source importer resolver timestamp imports
  | inl _ => ∅
  end.

(** two computations with the same result, value or error, whatever the
    states they start from; a computation whose result is the same in
    every state *)
Definition same_result {A} (m1 m2 : M A) : Prop :=
  ∀ st1 st2, snd (m1 st1) = snd (m2 st2).

Definition stateless {A} (m : M A) : Prop := same_result m m.

(** What a pass returns or throws; it does not depend on the state
    (lemma [outcome_any_state]). *)
Definition outcome (source importer : string) (resolver : InternalResolver)
    (timestamp : option string) : JsError + string :=
  snd (rewrite_body source importer resolver timestamp initial).

(** a pass that lexes its source and then throws *)
Definition throws_late (source importer : string) (resolver : InternalResolver)
    (timestamp : option string) : bool :=
  match parseImports source, outcome source importer resolver timestamp with
  | inr _, inl _ => true
  | _, _ => false
  end.

(** A sequence of [rewriteImports] calls. *)
Record Call := {
  call_source : string;
  call_importer : string;
  call_resolver : InternalResolver;
  call_timestamp : option string
}.

Definition run_call (st : State) (c : Call) : State :=
  snd (rewriteImports (call_source c) (call_importer c) (call_resolver c)
         (call_timestamp c) st).

Definition run_calls (calls : list Call) (st : State) : State :=
  List.fold_left run_call calls st.

Definition call_throws_late (c : Call) : bool :=
  throws_late (call_source c) (call_importer c) (call_resolver c) (call_timestamp c).

(** the script texts of the matched blocks, in order *)
Fixpoint scripts_of (pieces : list Piece) : list string :=
  match pieces with
  | [] => []
  | Text _ :: rest => scripts_of rest
  | Script _ script :: rest => script :: scripts_of rest
  end.

(** the document put together again with nothing injected *)
Fixpoint assemble (resolver : InternalResolver) (pieces : list Piece) (st : State)
  : string * State :=
  match pieces with
  | [] => (EmptyString, st)
  | Text c :: rest =>
      let (out, st') := assemble resolver rest st in
      (String c out, st')
  | Script openTag script :: rest =>
      let (rewritten, st1) := rewriteImports script "/index.html" resolver None st in
      let (out, st2) := assemble resolver rest st1 in
      (openTag +:+ rewritten +:+ "</script>" +:+ out, st2)
  end.

(** *** Notions used to state further properties *)

(** What reaches the plugin: a response passing through the
    middleware, or a change reported by the watcher. *)
Inductive Event : Type :=
| Response (ctx : Context)
| Change (file : string).

Definition handle (resolver : InternalResolver) (st : State) (ev : Event) : State :=
  match ev with
  | Response ctx => snd (middleware resolver ctx st)
  | Change file => on_change resolver file st
  end.

Definition run_events (resolver : InternalResolver) (events : list Event) (st : State)
  : State :=
  List.fold_left (handle resolver) events st.

(** the text the pieces of a page were cut from *)
Fixpoint unscan (pieces : list Piece) : string :=
  match pieces with
  | [] => EmptyString
  | Text c :: rest => String c (unscan rest)
  | Script openTag script :: rest => openTag +:+ script +:+ "</script>" +:+ unscan rest
  end.

(** the rewritten specifier of an import, the empty text when the
    resolver throws *)
Definition replacement (source : string) (resolver : InternalResolver)
    (timestamp : option string) (imp : ImportSpecifier.t) : string :=
  match resolved_of source resolver timestamp imp with
  | inr resolved => resolved
  | inl _ => EmptyString
  end.

(** The source from offset [pos] on, the specifier of each static
    import replaced by its rewritten specifier. *)
Fixpoint splice (source : string) (resolver : InternalResolver)
    (timestamp : option string) (pos : nat) (imports : list ImportSpecifier.t) : string :=
  match imports with
  | [] => Js.substring pos (String.length source) source
  | imp :: rest =>
      if is_static imp then
        Js.substring pos (ImportSpecifier.s imp) source
        +:+ replacement source resolver timestamp imp
        +:+ splice source resolver timestamp (ImportSpecifier.e imp) rest
      else splice source resolver timestamp pos rest
  end.

(** The source from offset [pos] up to offset [stop], the specifier of
    each static import replaced by its rewritten specifier. *)
Fixpoint splice_until (source : string) (resolver : InternalResolver)
    (timestamp : option string) (pos : nat) (imports : list ImportSpecifier.t)
    (stop : nat) : string :=
  match imports with
  | [] => Js.substring pos stop source
  | imp :: rest =>
      if is_static imp then
        Js.substring pos (ImportSpecifier.s imp) source
        +:+ replacement source resolver timestamp imp
        +:+ splice_until source resolver timestamp (ImportSpecifier.e imp) rest stop
      else splice_until source resolver timestamp pos rest stop
  end.

(** the static imports come in source order from [pos] on, each with a
    non-empty range inside the source, and do not overlap *)
Fixpoint in_order (len pos : nat) (imports : list ImportSpecifier.t) : Prop :=
  match imports with
  | [] => True
  | imp :: rest =>
      if is_static imp then
        pos <= ImportSpecifier.s imp /\ ImportSpecifier.s imp < ImportSpecifier.e imp /\
        ImportSpecifier.e imp <= len /\ in_order len (ImportSpecifier.e imp) rest
      else in_order len pos rest
  end.

(** a static import whose rewritten specifier is known and does not
    call for the HMR transformer *)
Definition plain_import (source importer : string) (resolver : InternalResolver)
    (timestamp : option string) (imp : ImportSpecifier.t) : Prop :=
  is_static imp = true ->
  exists resolved,
    resolved_of source resolver timestamp imp = inr resolved /\
    (Js.bareRE_test (specifier source imp) = true ->
     String.eqb resolved hmrClientPublicPath && negb (Js.vueRE_test importer) = false).

(** both maps keep the keys they have *)
Definition keeps_keys (st st' : State) : Prop :=
  dom (importeeMap st) ⊆ dom (importeeMap st') /\
  dom (importerMap st) ⊆ dom (importerMap st').

(** the cache holds at most [max] entries, one for a key at most *)
Definition cache_ok (c : LRUCache.t) : Prop :=
  length (LRUCache.entries c) <= LRUCache.max c /\
  NoDup (List.map fst (LRUCache.entries c)).

(** [t=] and a digit at the start of [s], what [/(&|\?)t=\d+/] asks for
    after its first character *)
Definition timestamp_here (s : string) : bool :=
  match s with
  | String a (String b (String d _)) =>
      Ascii.eqb a "t" && Ascii.eqb b "=" && Js.is_digit d
  | _ => false
  end.

(** a text without line terminator *)
Definition no_lt (s : string) : bool :=
  Js.all_chars (fun d => negb (Js.is_line_terminator d)) s.

(** the two steps of lines 168-175, on the path and on the query *)
Definition with_ext (pathname : string) : string :=
  if Js.extRE_test pathname then pathname else pathname +:+ ".js".

Definition with_token (query : string) (timestamp : option string) : string :=
  if truthy timestamp
  then query +:+ (if String.eqb query EmptyString then "?" else "&") +:+ "t="
       +:+ default EmptyString timestamp
  else query.

(** the parameters of a query: what stands between the [&] signs after
    the leading [?] *)
Fixpoint split_amp (s : string) : list string :=
  match s with
  | EmptyString => [EmptyString]
  | String c s' =>
      if Ascii.eqb c "&" then EmptyString :: split_amp s'
      else match split_amp s' with
           | p :: ps => String c p :: ps
           | [] => [String c EmptyString]
           end
  end.

Definition query_params (query : string) : list string :=
  match query with
  | EmptyString => []
  | String _ q => split_amp q
  end.

(** the unedited chunk from offset [q] to the end of [source] *)
Definition tail_chunk (source : string) (q : nat) : MagicString.Chunk :=
  {| MagicString.cstart := q; MagicString.cend := String.length source;
     MagicString.content := Js.substring q (String.length source) source;
     MagicString.edited := false |}.

(** A buffer patched in source order up to offset [q]: chunks that end
    at or before [q] and print [done], then the rest of the source in
    one unedited chunk, if there is a rest; no chunk was appended. *)
Definition patched_to (source : string) (q : nat) (done : string) (m : MagicString.t)
  : Prop :=
  MagicString.original m = source /\ MagicString.appended m = [] /\
  q <= String.length source /\
  exists front,
    MagicString.render front = done /\
    List.Forall (fun c => MagicString.cstart c < MagicString.cend c /\
                          MagicString.cend c <= q) front /\
    (MagicString.chunks m = front ++ [tail_chunk source q] \/
     (q = String.length source /\ MagicString.chunks m = front)).

End Plugin.

(** ** A small instance of the collaborators

    Used to run the plugin on concrete requests.  The lexer answers for
    the sources below with the offsets [es-module-lexer] reports for
    them; the resolver knows the package [lib]; the paths are the ones
    of a project served from [/root]. *)

Module Demo.

Definition import_of (s e : nat) (d : Z) : ImportSpecifier.t :=
  {| ImportSpecifier.s := s; ImportSpecifier.e := e; ImportSpecifier.d := d |}.

(** [import { x } from 'lib'], newline, [import './a'] *)
Definition source_main : string :=
  "import { x } from 'lib'" +:+ Js.lf +:+ "import './a'".

Definition source_a : string := "import './a'".

Definition source_b : string := "import './b'".

(** the same module after its import was deleted *)
Definition source_plain : string := "export default 1".

Definition source_dynamic : string := "import('./b')".

(** [import { x } from 'lib'], newline, [import('./b')] *)
Definition source_mixed : string :=
  "import { x } from 'lib'" +:+ Js.lf +:+ "import('./b')".

(** [import './a'], newline, [import ''] (an empty specifier) *)
Definition source_empty_specifier : string :=
  "import './a'" +:+ Js.lf +:+ "import ''".

Definition source_broken : string := "import {".

Definition lexer_table : list (string * (JsError + list ImportSpecifier.t)) :=
  [ (source_main, inr [import_of 19 22 (-1); import_of 32 35 (-1)]);
    (source_a, inr [import_of 8 11 (-1)]);
    (source_b, inr [import_of 8 11 (-1)]);
    (source_plain, inr []);
    (source_dynamic, inr [import_of 7 12 0]);
    (source_mixed, inr [import_of 19 22 (-1); import_of 31 36 24]);
    (source_empty_specifier, inr [import_of 8 11 (-1); import_of 21 21 (-1)]);
    (source_broken, inl (Error "Parse error @:1:8")) ].

Definition parseImports (source : string) : JsError + list ImportSpecifier.t :=
  match List.find (fun row => String.eqb source (fst row)) lexer_table with
  | Some row => snd row
  | None => inr []
  end.

Definition resolver : InternalResolver :=
  {| idToRequest := fun id =>
       inr (if String.eqb id "lib" then Some "/@modules/lib" else None);
     fileToRequest := fun file => Js.drop 5 file |}.

Definition rewriteFileWithHMR (source importer : string) (s : MagicString.t)
  : JsError + MagicString.t := inr s.

Definition hmrClientPublicPath : string := "/@hmr".

(** the text before the last [/] *)
Fixpoint path_dirname (p : string) : string :=
  match p with
  | EmptyString => EmptyString
  | String c p' =>
      match Js.find_sub "/" p' with
      | Some _ => String c (path_dirname p')
      | None => if Ascii.eqb c "/" then "/" else EmptyString
      end
  end.

(** for a directory [dir] ending in [/] and a path without [..] *)
Definition path_resolve (dir p : string) : string :=
  if String.prefix "/" p then p
  else if String.prefix "./" p then dir +:+ Js.drop 2 p
  else dir +:+ p.

Definition slash (p : string) : string := p.

Definition rewriteImports :=
  rewriteImports parseImports rewriteFileWithHMR hmrClientPublicPath
    path_dirname path_resolve slash.

Definition middleware :=
  middleware parseImports rewriteFileWithHMR hmrClientPublicPath
    path_dirname path_resolve slash.

Definition call (source importer : string) : Call :=
  {| call_source := source; call_importer := importer;
     call_resolver := resolver; call_timestamp := None |}.

Definition run_calls :=
  run_calls parseImports rewriteFileWithHMR hmrClientPublicPath
    path_dirname path_resolve slash.

(** a script response for [url] with the given body *)
Definition script_ctx (url body : string) : Context :=
  {| status := 200; path := url; url := url; body := BodyString body;
     is_js := true; vue := false; query_type := None; query_t := None |}.

Definition html_ctx (body : string) : Context :=
  {| status := 200; path := "/index.html"; url := "/index.html";
     body := BodyString body;
     is_js := false; vue := false; query_type := None; query_t := None |}.

(** an entry page with two inline module scripts *)
Definition page : string :=
  "<body><script type=module>" +:+ source_a +:+ "</script>" +:+
  "<p>hi</p><script type=module>" +:+ source_b +:+ "</script></body>".

End Demo.

(** A module that imports the HMR client, for the properties that turn
    on the HMR transformer. *)
Module Hot.

(** [import { hot } from '@hmr'], newline, [import './a'] *)
Definition source_hot : string :=
  "import { hot } from '@hmr'" +:+ Js.lf +:+ "import './a'".

Definition parseImports (source : string) : JsError + list ImportSpecifier.t :=
  if String.eqb source source_hot
  then inr [Demo.import_of 21 25 (-1); Demo.import_of 35 38 (-1)]
  else inr [].

Definition resolver : InternalResolver :=
  {| idToRequest := fun id =>
       inr (if String.eqb id "@hmr" then Some "/@hmr" else None);
     fileToRequest := fun file => Js.drop 5 file |}.

(** a transformer that throws *)
Definition failing (source importer : string) (s : MagicString.t)
  : JsError + MagicString.t := inl (Error "hot.accept() not supported").

End Hot.

(** A module that imports from a directory with a dot in its name. *)
Module Dotted.

(** [import './v1.2/util'] *)
Definition source_dotted : string := "import './v1.2/util'".

(** [import './v12/util'] *)
Definition source_undotted : string := "import './v12/util'".

(** [import './v12/util?x=1'] *)
Definition source_query : string := "import './v12/util?x=1'".

Definition parseImports (source : string) : JsError + list ImportSpecifier.t :=
  if String.eqb source source_dotted then inr [Demo.import_of 8 19 (-1)]
  else if String.eqb source source_undotted then inr [Demo.import_of 8 18 (-1)]
  else if String.eqb source source_query then inr [Demo.import_of 8 22 (-1)]
  else inr [].

Definition rewriteImports :=
  rewriteImports parseImports Demo.rewriteFileWithHMR Demo.hmrClientPublicPath
    Demo.path_dirname Demo.path_resolve Demo.slash.

End Dotted.

(** * Properties *)

(** ** Strings *)

Lemma append_cons c s t : String c s +:+ t = String c (s +:+ t).
Proof. reflexivity. Qed.

Lemma append_nil_l s : EmptyString +:+ s = s.
Proof. reflexivity. Qed.

Lemma append_nil_r s : s +:+ EmptyString = s.
Proof. induction s as [|c s IH]; [done|]. by rewrite append_cons, IH. Qed.

Lemma append_assoc s t u : (s +:+ t) +:+ u = s +:+ (t +:+ u).
Proof. induction s as [|c s IH]; [done|]. by rewrite !append_cons, IH. Qed.

(** the pattern [/\?.*$/] cuts a specifier in two *)
Lemma queryRE_split id :
  id = Js.queryRE_strip id +:+ default EmptyString (Js.queryRE_match id).
Proof.
  induction id as [|c s IH]; [done|]. simpl.
  destruct (Ascii.eqb c "?" && Js.all_chars _ s); simpl; [done|].
  by rewrite append_cons, <- IH.
Qed.

Lemma queryRE_match_shape id m :
  Js.queryRE_match id = Some m -> ∃ q, m = String "?" q.
Proof.
  induction id as [|c s IH]; [done|]. simpl.
  destruct (Ascii.eqb_spec c "?") as [->|]; simpl; [|exact IH].
  destruct (Js.all_chars _ s); [|exact IH]. intros [= <-]. eauto.
Qed.

(** ** The cache *)

Lemma lru_peek_remove_ne key key' l :
  key ≠ key' ->
  List.find (LRUCache.key_is key) (LRUCache.remove key' l) =
  List.find (LRUCache.key_is key) l.
Proof.
  intros Hne. unfold LRUCache.remove, LRUCache.key_is.
  induction l as [|[k v] l IH]; simpl; [done|].
  destruct (String.eqb_spec key' k) as [->|Hk]; simpl.
  - destruct (String.eqb_spec key k) as [->|]; [done|]. exact IH.
  - destruct (String.eqb_spec key k); [done|]. exact IH.
Qed.

(** [put] then [get] returns what was put *)
Lemma lru_get_set key value c :
  1 <= LRUCache.max c ->
  fst (LRUCache.get key (LRUCache.set key value c)) = Some value.
Proof.
  intros Hmax. unfold LRUCache.get, LRUCache.peek, LRUCache.set. simpl.
  destruct (LRUCache.max c) as [|n]; [lia|]. simpl.
  unfold LRUCache.key_is at 1. simpl. rewrite String.eqb_refl. done.
Qed.

(** [has] and [get] agree *)
Lemma lru_has_get key c :
  LRUCache.has key c = true -> ∃ value, fst (LRUCache.get key c) = Some value.
Proof.
  unfold LRUCache.has, LRUCache.get, LRUCache.peek. intros H.
  apply existsb_exists in H as (e & Hin & He).
  destruct (List.find (LRUCache.key_is key) (LRUCache.entries c)) as [e'|] eqn:Hf.
  - eauto.
  - eapply find_none in Hf; [|exact Hin]. congruence.
Qed.

(** deleting one key leaves the entries of the other keys alone *)
Lemma lru_peek_del_ne key key' c :
  key ≠ key' -> LRUCache.peek key (LRUCache.del key' c) = LRUCache.peek key c.
Proof.
  intros Hne. unfold LRUCache.peek, LRUCache.del. simpl.
  by rewrite lru_peek_remove_ne.
Qed.

(** ** The text buffer *)

Section Buffer.

Import MagicString.

Lemma substring_zero_length n s : String.substring n 0 s = EmptyString.
Proof. revert n. induction s as [|c s IH]; intros [|n]; simpl; auto. Qed.

Lemma substring_add x n m s :
  String.substring x (n + m) s = String.substring x n s +:+ String.substring (x + n) m s.
Proof.
  revert x n. induction s as [|c s IH]; intros x n.
  - destruct x, n, m; reflexivity.
  - destruct x as [|x]; simpl.
    + destruct n as [|n]; simpl; [reflexivity|].
      rewrite (IH 0 n). reflexivity.
    + rewrite (IH x n). reflexivity.
Qed.

Lemma substring_all s : String.substring 0 (String.length s) s = s.
Proof. induction s as [|c s IH]; simpl; [done|]. by rewrite IH. Qed.

Lemma js_substring_empty x s : Js.substring x x s = EmptyString.
Proof.
  unfold Js.substring. rewrite Nat.min_id, Nat.max_id, Nat.sub_diag.
  apply substring_zero_length.
Qed.

Lemma js_substring_app x y z s :
  x <= y -> y <= z ->
  Js.substring x z s = Js.substring x y s +:+ Js.substring y z s.
Proof.
  intros Hxy Hyz. unfold Js.substring.
  rewrite !Nat.min_l, !Nat.max_r by lia.
  replace (z - x) with ((y - x) + (z - y)) by lia.
  rewrite substring_add. do 2 f_equal. lia.
Qed.

Lemma js_substring_all s : Js.substring 0 (String.length s) s = s.
Proof.
  unfold Js.substring. rewrite Nat.min_l, Nat.max_r, Nat.sub_0_r by lia.
  apply substring_all.
Qed.

Lemma wf_create source : wf (create source).
Proof.
  unfold wf, create. simpl. repeat split; try lia.
  intros _. by rewrite js_substring_all.
Qed.

Lemma render_chain_nil cs : render_chain [] cs = render cs.
Proof. induction cs as [|c cs IH]; [done|]. simpl. by rewrite IH. Qed.

Lemma toString_render m : appended m = [] -> toString m = render (chunks m).
Proof. unfold toString. intros ->. apply render_chain_nil. Qed.

Lemma intact_create a b source : intact a b (create source).
Proof. unfold intact, create. simpl. repeat constructor. Qed.

Lemma chunks_wf_from orig cs : ∀ from,
  chunks_wf orig from cs -> List.Forall (fun c => from <= cstart c ∧ cstart c <= cend c) cs.
Proof.
  induction cs as [|c cs IH]; intros from H; [constructor|].
  destruct H as (H1 & H2 & H3 & H4). constructor; [lia|].
  apply IH in H4. eapply List.Forall_impl; [|exact H4]. simpl. intros; lia.
Qed.

Lemma split_wf orig index cs : ∀ from cs',
  split orig index cs = inr cs' -> chunks_wf orig from cs -> chunks_wf orig from cs'.
Proof.
  induction cs as [|c cs IH]; intros from cs' H Hwf; simpl in H.
  - by simplify_eq.
  - destruct Hwf as (H1 & H2 & H3 & H4).
    destruct (contains c index) eqn:Hc.
    + destruct (edited c && negb (String.eqb (content c) "")) eqn:He; [done|].
      simplify_eq. unfold contains in Hc.
      apply andb_true_iff in Hc as [Hc1%Nat.ltb_lt Hc2%Nat.ltb_lt].
      unfold split_chunk. destruct (edited c); simpl; repeat split; try lia; try done.
    + destruct (split orig index cs) as [e|cs1] eqn:Hs; [done|]. simplify_eq.
      simpl. repeat split; try done. eapply IH; eauto.
Qed.

Lemma split_no_contains orig index cs : ∀ from cs',
  split orig index cs = inr cs' -> chunks_wf orig from cs ->
  List.Forall (fun c => ¬ (cstart c < index ∧ index < cend c)) cs'.
Proof.
  induction cs as [|c cs IH]; intros from cs' H Hwf; simpl in H.
  - simplify_eq. constructor.
  - destruct Hwf as (H1 & H2 & H3 & H4).
    destruct (contains c index) eqn:Hc.
    + destruct (edited c && negb (String.eqb (content c) "")) eqn:He; [done|].
      simplify_eq. unfold contains in Hc.
      apply andb_true_iff in Hc as [Hc1%Nat.ltb_lt Hc2%Nat.ltb_lt].
      apply chunks_wf_from in H4.
      unfold split_chunk. destruct (edited c); simpl;
        (constructor; [simpl; lia|]); (constructor; [simpl; lia|]);
        (eapply List.Forall_impl; [|exact H4]); simpl; intros; lia.
    + destruct (split orig index cs) as [e|cs1] eqn:Hs; [done|]. simplify_eq.
      constructor; [|eapply IH; eauto].
      unfold contains in Hc. apply andb_false_iff in Hc as [Hc%Nat.ltb_ge|Hc%Nat.ltb_ge]; lia.
Qed.

Lemma split_intact orig index a b cs : ∀ cs',
  split orig index cs = inr cs' -> chunks_intact a b cs -> chunks_intact a b cs'.
Proof.
  unfold chunks_intact.
  induction cs as [|c cs IH]; intros cs' H Hin; simpl in H.
  - by simplify_eq.
  - apply List.Forall_cons_iff in Hin as [Hc Hin].
    destruct (contains c index) eqn:Hcont.
    + destruct (edited c && negb (String.eqb (content c) "")) eqn:He; [done|].
      simplify_eq. unfold contains in Hcont.
      apply andb_true_iff in Hcont as [Hc1%Nat.ltb_lt Hc2%Nat.ltb_lt].
      unfold split_chunk. destruct (edited c) eqn:Hed; simpl.
      * constructor; [simpl; intros; apply Hc; lia|].
        constructor; [simpl; intros; apply Hc; lia|done].
      * constructor; [done|]. constructor; [done|done].
    + destruct (split orig index cs) as [e|cs1] eqn:Hs; [done|]. simplify_eq.
      constructor; [done|]. by apply IH.
Qed.

Lemma edit_range_wf orig start end_ new cs : ∀ from,
  chunks_wf orig from cs -> chunks_wf orig from (List.map (edit_range start end_ new) cs).
Proof.
  induction cs as [|c cs IH]; intros from Hwf; [done|].
  destruct Hwf as (H1 & H2 & H3 & H4). simpl.
  assert (Hr : cstart (edit_range start end_ new c) = cstart c ∧
               cend (edit_range start end_ new c) = cend c ∧
               (edited (edit_range start end_ new c) = false ->
                edit_range start end_ new c = c)).
  { unfold edit_range. destruct (Nat.eqb (cstart c) start); [done|].
    destruct (_ && _); done. }
  destruct Hr as (R1 & R2 & R3). rewrite R1, R2. repeat split; try done.
  - intros He. pose proof (R3 He) as Hc. rewrite Hc in He |- *. by apply H3.
  - by apply IH.
Qed.

Lemma edit_range_intact start end_ new a b cs :
  start < end_ -> end_ <= a ∨ b <= start ->
  List.Forall (fun c => ¬ (cstart c < end_ ∧ end_ < cend c)) cs ->
  List.Forall (fun c => cstart c <= cend c) cs ->
  chunks_intact a b cs -> chunks_intact a b (List.map (edit_range start end_ new) cs).
Proof.
  unfold chunks_intact. intros Hlt Hdis Hno Hle Hin.
  induction cs as [|c cs IH]; [constructor|].
  apply List.Forall_cons_iff in Hno as [Hn Hno].
  apply List.Forall_cons_iff in Hle as [Hl Hle].
  apply List.Forall_cons_iff in Hin as [Hc Hin].
  simpl. constructor; [|by apply IH].
  unfold edit_range.
  destruct (Nat.eqb_spec (cstart c) start) as [Heq|Hne]; simpl.
  - intros ? ?. lia.
  - destruct (Nat.ltb_spec start (cstart c)), (Nat.leb_spec (cend c) end_); simpl; try done.
    intros ? ?. lia.
Qed.

Lemma split_keeps_cut orig index x cs : ∀ cs',
  split orig index cs = inr cs' ->
  List.Forall (fun c => ¬ (cstart c < x ∧ x < cend c)) cs ->
  List.Forall (fun c => ¬ (cstart c < x ∧ x < cend c)) cs'.
Proof.
  induction cs as [|c cs IH]; intros cs' H Hno; simpl in H.
  - by simplify_eq.
  - apply List.Forall_cons_iff in Hno as [Hc Hno].
    destruct (contains c index) eqn:Hcont.
    + destruct (edited c && negb (String.eqb (content c) "")) eqn:He; [done|].
      simplify_eq. unfold contains in Hcont.
      apply andb_true_iff in Hcont as [Hc1%Nat.ltb_lt Hc2%Nat.ltb_lt].
      unfold split_chunk. destruct (edited c); simpl;
        (constructor; [simpl; lia|]); (constructor; [simpl; lia|done]).
    + destruct (split orig index cs) as [e|cs1] eqn:Hs; [done|]. simplify_eq.
      constructor; [done|]. by apply IH.
Qed.

(** in chunks that cover the original and are cut at [start], a chunk
    starts at every offset before the end *)
Lemma find_first orig start cs : ∀ from,
  chunks_wf orig from cs -> from <= start -> start < String.length orig ->
  List.Forall (fun c => ¬ (cstart c < start ∧ start < cend c)) cs ->
  ∃ first, List.find (fun c => Nat.eqb (cstart c) start) cs = Some first.
Proof.
  induction cs as [|c cs IH]; intros from Hwf Hfrom Hlt Hno; simpl in *; [lia|].
  destruct Hwf as (H1 & H2 & _ & H4).
  apply List.Forall_cons_iff in Hno as [Hc Hno].
  destruct (Nat.eqb_spec (cstart c) start); [eauto|].
  apply (IH (cend c)); try done. lia.
Qed.

(** [overwrite] of a range with [start <= end] on a buffer without
    appended chunk: the two splits and the edit *)
Lemma overwrite_plain start end_ new m m' :
  wf m -> start <= end_ -> overwrite start end_ new m = inr m' ->
  ∃ cs1 cs2,
    split (original m) start (chunks m) = inr cs1 ∧
    split (original m) end_ cs1 = inr cs2 ∧
    start < end_ ∧ end_ <= String.length (original m) ∧
    m' = {| original := original m;
            chunks := List.map (edit_range start end_ new) cs2;
            appended := [] |}.
Proof.
  unfold overwrite. intros [Happ Hwf] Hle H.
  destruct (Nat.ltb_spec (String.length (original m)) end_); [done|].
  destruct (Nat.eqb_spec start end_); [done|].
  destruct (split (original m) start (chunks m)) as [e|cs1] eqn:Hs1; [done|].
  destruct (split (original m) end_ cs1) as [e|cs2] eqn:Hs2; [done|].
  pose proof (split_wf _ _ _ _ _ Hs1 Hwf) as Hwf1.
  pose proof (split_wf _ _ _ _ _ Hs2 Hwf1) as Hwf2.
  assert (Hno : List.Forall (fun c => ¬ (cstart c < start ∧ start < cend c)) cs2).
  { eapply (split_keeps_cut _ end_ start); [exact Hs2|].
    eapply split_no_contains; eauto. }
  destruct (find_first _ start _ 0 Hwf2) as [first Hfirst]; try done; try lia.
  rewrite Hfirst, Happ in H. simpl in H.
  rewrite andb_false_r in H.
  destruct (Nat.ltb_spec end_ start); [lia|]. simpl in H.
  exists cs1, cs2. repeat split; try done; try lia. by simplify_eq.
Qed.

Lemma overwrite_wf_intact start end_ new a b m m' :
  overwrite start end_ new m = inr m' ->
  start <= end_ -> end_ <= a ∨ b <= start ->
  wf m -> intact a b m -> wf m' ∧ intact a b m'.
Proof.
  intros H Hle Hdis Hwf Hin.
  destruct (overwrite_plain _ _ _ _ _ Hwf Hle H) as (cs1 & cs2 & Hs1 & Hs2 & Hlt & Hlen & ->).
  destruct Hwf as [Happ Hwf]. unfold wf, intact in *. simpl.
  pose proof (split_wf _ _ _ _ _ Hs1 Hwf) as Hwf1.
  pose proof (split_wf _ _ _ _ _ Hs2 Hwf1) as Hwf2.
  split; [split; [done|by apply edit_range_wf]|].
  apply edit_range_intact; try lia; try done.
  - eapply split_no_contains; eauto.
  - apply chunks_wf_from in Hwf2. eapply List.Forall_impl; [|exact Hwf2]. simpl. tauto.
  - eapply split_intact; eauto. eapply split_intact; eauto.
Qed.

Lemma render_intact orig a0 b cs : ∀ from a,
  chunks_wf orig from cs -> chunks_intact a0 b cs ->
  a0 <= a -> from <= a -> a <= b -> b <= String.length orig ->
  ∃ pre post, render cs = pre +:+ Js.substring a b orig +:+ post ∧
              (a = from -> a0 < a -> pre = EmptyString).
Proof.
  induction cs as [|c cs IH]; intros from a Hwf Hin Ha0 Hfrom Hab Hb.
  - simpl in Hwf. assert (a = b) as -> by lia.
    exists EmptyString, EmptyString. by rewrite js_substring_empty.
  - destruct (decide (a = b)) as [->|Hne].
    { exists EmptyString, (render (c :: cs)). by rewrite js_substring_empty. }
    destruct Hwf as (H1 & H2 & H3 & H4).
    apply List.Forall_cons_iff in Hin as [Hc Hin]. simpl render.
    destruct (le_lt_dec (cend c) a) as [Hle|Hlt].
    + destruct (IH (cend c) a H4 Hin) as (pre & post & Hr & Hpre); try lia.
      exists (content c +:+ pre), post. rewrite Hr, append_assoc. split; [done|].
      intros -> Hlt. rewrite Hpre by lia.
      rewrite H3 by (apply Hc; lia).
      replace (cend c) with (cstart c) by lia. by rewrite js_substring_empty.
    + rewrite H3 by (apply Hc; lia).
      destruct (le_lt_dec b (cend c)) as [Hbe|Hbe].
      * exists (Js.substring from a orig), (Js.substring b (cend c) orig +:+ render cs).
        split.
        -- rewrite H1, (js_substring_app from a (cend c)) by lia.
           rewrite (js_substring_app a b (cend c)) by lia.
           by rewrite !append_assoc.
        -- intros -> _. apply js_substring_empty.
      * destruct (IH (cend c) (cend c) H4 Hin) as (pre & post & Hr & Hpre); try lia.
        rewrite Hpre in Hr by lia. simpl in Hr.
        exists (Js.substring from a orig), post. split.
        -- rewrite Hr, H1, (js_substring_app from a (cend c)) by lia.
           rewrite (js_substring_app a (cend c) b) by lia.
           by rewrite !append_assoc.
        -- intros -> _. apply js_substring_empty.
Qed.

Lemma toString_intact a b m :
  wf m -> intact a b m -> a <= b -> b <= String.length (original m) ->
  ∃ pre post, toString m = pre +:+ Js.substring a b (original m) +:+ post.
Proof.
  intros [Happ Hwf] Hin Hab Hb. rewrite (toString_render _ Happ).
  destruct (render_intact (original m) a b (chunks m) 0 a Hwf Hin) as (pre & post & H & _);
    try lia.
  exists pre, post. exact H.
Qed.

Lemma overwrite_original start end_ new m m' :
  overwrite start end_ new m = inr m' -> original m' = original m.
Proof.
  unfold overwrite. intros H.
  repeat match type of H with
    | context [if ?b then _ else _] => destruct b
    | context [match ?x with inl _ => _ | inr _ => _ end] => destruct x
    | context [match ?x with Some _ => _ | None => _ end] => destruct x
    end; try done; by simplify_eq.
Qed.

Lemma render_app xs ys : render (xs ++ ys) = render xs +:+ render ys.
Proof.
  unfold render. induction xs as [|c xs IH]; [done|]. simpl.
  by rewrite IH, append_assoc.
Qed.

Lemma split_skip_front orig index front rest :
  List.Forall (fun c => cend c <= index) front ->
  split orig index (front ++ rest) =
  match split orig index rest with
  | inl e => inl e
  | inr rest' => inr (front ++ rest')
  end.
Proof.
  induction 1 as [|c front Hc Hf IH]; simpl.
  - by destruct (split orig index rest).
  - unfold contains.
    destruct (Nat.ltb_spec index (cend c)); [lia|]. rewrite andb_false_r.
    rewrite IH. by destruct (split orig index rest).
Qed.

Lemma edit_range_front start end_ new front :
  List.Forall (fun c => cstart c < cend c ∧ cend c <= start) front ->
  List.map (edit_range start end_ new) front = front.
Proof.
  induction 1 as [|c front [Hc1 Hc2] Hf IH]; simpl; [done|].
  rewrite IH. f_equal. unfold edit_range.
  destruct (Nat.eqb_spec (cstart c) start); [lia|].
  destruct (Nat.ltb_spec start (cstart c)); [lia|]. done.
Qed.

Lemma patched_to_create source : patched_to source 0 EmptyString (create source).
Proof.
  split; [done|]. split; [done|]. split; [lia|].
  exists []. split; [done|]. split; [constructor|].
  left. unfold create, tail_chunk. simpl. by rewrite js_substring_all.
Qed.

Lemma patched_to_toString source q done m :
  patched_to source q done m ->
  toString m = done +:+ Js.substring q (String.length source) source.
Proof.
  intros (Ho & Happ & Hq & front & Hr & Hf & [Hc|[-> Hc]]);
    rewrite (toString_render _ Happ), Hc.
  - rewrite render_app, Hr. unfold render, tail_chunk. simpl. by rewrite append_nil_r.
  - by rewrite Hr, js_substring_empty, append_nil_r.
Qed.

Lemma find_skip_front start front rest :
  List.Forall (fun c => cstart c < cend c ∧ cend c <= start) front ->
  List.find (fun c => Nat.eqb (cstart c) start) (front ++ rest) =
  List.find (fun c => Nat.eqb (cstart c) start) rest.
Proof.
  induction 1 as [|c front [Hc1 Hc2] Hf IH]; simpl; [done|].
  destruct (Nat.eqb_spec (cstart c) start); [lia|]. exact IH.
Qed.

Lemma overwrite_patched source q done m start end_ new :
  patched_to source q done m ->
  q <= start -> start < end_ -> end_ <= String.length source ->
  ∃ m', overwrite start end_ new m = inr m' ∧
        patched_to source end_ (done +:+ Js.substring q start source +:+ new) m'.
Proof.
  intros (Ho & Happ & Hq & front & Hr & Hf & [Hc|[-> Hc]]) Hqs Hse Hel; [|lia].
  unfold overwrite. rewrite Ho, Hc, Happ.
  destruct (Nat.ltb_spec (String.length source) end_); [lia|].
  destruct (Nat.eqb_spec start end_); [lia|].
  rewrite split_skip_front
    by (eapply List.Forall_impl; [|exact Hf]; simpl; intros; lia).
  set (front1 := front ++ (if Nat.ltb q start
                           then [ {| cstart := q; cend := start;
                                     content := Js.substring q start source;
                                     edited := false |} ]
                           else [])).
  assert (Hs1 : split source start [tail_chunk source q] = inr ((if Nat.ltb q start
                           then [ {| cstart := q; cend := start;
                                     content := Js.substring q start source;
                                     edited := false |} ]
                           else []) ++ [tail_chunk source start])).
  { simpl. unfold contains. simpl.
    destruct (Nat.ltb_spec q start); simpl.
    - destruct (Nat.ltb_spec start (String.length source)); [|lia]. done.
    - assert (q = start) as -> by lia. done. }
  rewrite Hs1. rewrite app_assoc. fold front1.
  assert (Hf1 : List.Forall (fun c => cstart c < cend c ∧ cend c <= start) front1).
  { unfold front1. apply List.Forall_app. split.
    - eapply List.Forall_impl; [|exact Hf]. simpl. intros; lia.
    - destruct (Nat.ltb_spec q start); repeat constructor; simpl; lia. }
  assert (Hr1 : render front1 = done +:+ Js.substring q start source).
  { unfold front1. rewrite render_app, Hr. f_equal.
    destruct (Nat.ltb_spec q start); unfold render; simpl.
    - by rewrite append_nil_r.
    - assert (q = start) as -> by lia. by rewrite js_substring_empty. }
  rewrite split_skip_front
    by (eapply List.Forall_impl; [|exact Hf1]; simpl; intros; lia).
  destruct (Nat.ltb_spec end_ (String.length source)) as [Hlt|Hge].
  - assert (Hs2 : split source end_ [tail_chunk source start] =
                  inr [ {| cstart := start; cend := end_;
                           content := Js.substring start end_ source; edited := false |};
                        tail_chunk source end_ ]).
    { simpl. unfold contains. simpl.
      destruct (Nat.ltb_spec start end_); [|lia].
      destruct (Nat.ltb_spec end_ (String.length source)); [|lia]. done. }
    rewrite Hs2, (find_skip_front _ _ _ Hf1). simpl.
    rewrite Nat.eqb_refl, Nat.ltb_irrefl. simpl.
    destruct (Nat.ltb_spec end_ start); [lia|]. simpl.
    eexists. split; [reflexivity|].
    split; [done|]. split; [done|]. split; [lia|].
    exists (front1 ++ [ {| cstart := start; cend := end_; content := new; edited := true |} ]).
    split; [|split].
    + rewrite render_app, Hr1. unfold render. simpl.
      by rewrite append_nil_r, append_assoc.
    + apply List.Forall_app. split.
      * eapply List.Forall_impl; [|exact Hf1]. simpl. intros; lia.
      * repeat constructor; simpl; lia.
    + left. simpl. rewrite map_app, edit_range_front by done. simpl.
      rewrite <- app_assoc. simpl. f_equal. unfold edit_range. simpl.
      rewrite Nat.eqb_refl.
      destruct (Nat.eqb_spec end_ start); [lia|].
      destruct (Nat.ltb_spec start end_); [|lia].
      destruct (Nat.leb_spec (String.length source) end_); [lia|]. done.
  - assert (end_ = String.length source) as -> by lia.
    assert (Hs2 : split source (String.length source) [tail_chunk source start] =
                  inr [tail_chunk source start]).
    { simpl. unfold contains. simpl.
      rewrite Nat.ltb_irrefl, andb_false_r. done. }
    rewrite Hs2, (find_skip_front _ _ _ Hf1). simpl.
    rewrite Nat.eqb_refl, Nat.ltb_irrefl. simpl.
    destruct (Nat.ltb_spec (String.length source) start); [lia|]. simpl.
    eexists. split; [reflexivity|].
    split; [done|]. split; [done|]. split; [lia|].
    exists (front1 ++ [ {| cstart := start; cend := String.length source;
                           content := new; edited := true |} ]).
    split; [|split].
    + rewrite render_app, Hr1. unfold render. simpl.
      by rewrite append_nil_r, append_assoc.
    + apply List.Forall_app. split.
      * eapply List.Forall_impl; [|exact Hf1]. simpl. intros; lia.
      * repeat constructor; simpl; lia.
    + right. split; [done|]. simpl. rewrite map_app, edit_range_front by done. simpl.
      f_equal. unfold edit_range. simpl. by rewrite Nat.eqb_refl.
Qed.

End Buffer.

(** ** The rewriter and the graph *)

Lemma members_ensure_add importer importee m E :
  members (let (map, entry) := ensureMapEntry m importee in
           <[importee := entry ∪ {[ importer ]}]> map) E =
  members m E ∪ (if decide (E = importee) then {[ importer ]} else ∅).
Proof.
  unfold ensureMapEntry, members.
  destruct (m !! importee) eqn:Hm; case_decide; subst; simplify_map_eq; set_solver.
Qed.

Ltac run_M H :=
  unfold debug, debugHmr in H; unfold bind, lift, ret, modify in H;
  repeat match type of H with
    | context [if ?b then _ else _] => destruct b eqn:?
    | context [match ?x with inl _ => _ | inr _ => _ end] => destruct x eqn:?
    end;
  simpl in H; try discriminate;
  repeat match goal with Heq : (_, _) = (_, _) |- _ => injection Heq as ? ? end;
  subst.

Section Properties.

Variable parseImports : string -> JsError + list ImportSpecifier.t.
Variable rewriteFileWithHMR : string -> string -> MagicString.t -> JsError + MagicString.t.
Variable hmrClientPublicPath : string.
Variable path_dirname : string -> string.
Variable path_resolve : string -> string -> string.
Variable slash : string -> string.

Local Abbreviation rewrite_import' :=
  (rewrite_import rewriteFileWithHMR hmrClientPublicPath path_dirname path_resolve slash).
Local Abbreviation rewrite_body' :=
  (rewrite_body parseImports rewriteFileWithHMR hmrClientPublicPath
     path_dirname path_resolve slash).
Local Abbreviation rewriteImports' :=
  (rewriteImports parseImports rewriteFileWithHMR hmrClientPublicPath
     path_dirname path_resolve slash).
Local Abbreviation importee_of' := (importee_of path_dirname path_resolve slash).
Local Abbreviation contribution' := (contribution path_dirname path_resolve slash).
Local Abbreviation static_importees' := (static_importees path_dirname path_resolve slash).
Local Abbreviation source_importees' :=
  (source_importees parseImports path_dirname path_resolve slash).
Local Abbreviation outcome' :=
  (outcome parseImports rewriteFileWithHMR hmrClientPublicPath
     path_dirname path_resolve slash).

(** One import processed: the importee is added to the current set,
    which is the entry of the importer, and the importer to the entry
    of the importee. *)
Lemma rewrite_import_ok source importer resolver timestamp imp l st st' l' :
  rewrite_import' source importer resolver timestamp imp l st = (st', inr l') ->
  importeeMap st !! importer = Some (currentImportees l) ->
  let C := contribution' source importer resolver timestamp imp in
  currentImportees l' = currentImportees l ∪ C ∧
  importeeMap st' = <[importer := currentImportees l']> (importeeMap st) ∧
  (∀ E, members (importerMap st') E =
        members (importerMap st) E ∪ (if decide (E ∈ C) then {[ importer ]} else ∅)) ∧
  rewriteCache st' = rewriteCache st.
Proof.
  intros H Hinv. unfold contribution, is_static, resolved_of, specifier.
  unfold rewrite_import in H.
  destruct (Z.eqb (ImportSpecifier.d imp) (-1)) eqn:Hd.
  - run_M H; simpl.
    all: (split; [reflexivity|]; split; [reflexivity|]; split; [|reflexivity]).
    all: intros E; rewrite members_ensure_add; simpl.
    all: repeat case_decide; set_solver.
  - run_M H; simpl.
    all: (split; [set_solver|]; split; [|split; [|reflexivity]]).
    all: try (rewrite insert_id; [reflexivity|]; rewrite Hinv; f_equal; set_solver).
    all: intros E; case_decide; set_solver.
Qed.

(** An import on which the callback throws leaves the graph as it was. *)
Lemma rewrite_import_throw source importer resolver timestamp imp l st st' err :
  rewrite_import' source importer resolver timestamp imp l st = (st', inl err) ->
  importeeMap st' = importeeMap st ∧ importerMap st' = importerMap st ∧
  rewriteCache st' = rewriteCache st.
Proof.
  intros H. unfold rewrite_import in H.
  destruct (Z.eqb (ImportSpecifier.d imp) (-1)) eqn:Hd; run_M H; simpl; auto.
Qed.

(** The loop: [done] are the imports processed, [rest] is empty unless
    the callback threw. *)
Lemma forEach_spec source importer resolver timestamp imports :
  ∀ l st st' res,
  forEach (rewrite_import' source importer resolver timestamp) imports l st = (st', res) ->
  importeeMap st !! importer = Some (currentImportees l) ->
  ∃ done rest, imports = done ++ rest ∧
    let C := static_importees' source importer resolver timestamp done in
    importeeMap st' = <[importer := currentImportees l ∪ C]> (importeeMap st) ∧
    (∀ E, members (importerMap st') E =
          members (importerMap st) E ∪ (if decide (E ∈ C) then {[ importer ]} else ∅)) ∧
    rewriteCache st' = rewriteCache st ∧
    match res with
    | inr l' => rest = [] ∧ currentImportees l' = currentImportees l ∪ C
    | inl _ => rest ≠ []
    end.
Proof.
  induction imports as [|imp imports IH]; intros l st st' res H Hinv.
  - simpl in H. unfold ret in H. simplify_eq. exists [], [].
    unfold static_importees. simpl. repeat split.
    + rewrite insert_id; [done|]. rewrite Hinv. f_equal. set_solver.
    + intros E. case_decide; set_solver.
    + set_solver.
  - simpl in H. unfold bind in H.
    destruct (rewrite_import' source importer resolver timestamp imp l st)
      as [st1 [err|l1]] eqn:Hstep.
    + simplify_eq. apply rewrite_import_throw in Hstep as (H1 & H2 & H3).
      exists [], (imp :: imports). unfold static_importees. simpl.
      repeat split; try done.
      * rewrite H1. rewrite insert_id; [done|]. rewrite Hinv. f_equal. set_solver.
      * intros E. rewrite H2. case_decide; set_solver.
    + apply rewrite_import_ok in Hstep as (H1 & H2 & H3 & H4); [|done].
      apply IH in H as (done & rest & -> & G1 & G2 & G3 & G4).
      2:{ rewrite H2. apply lookup_insert_eq. }
      exists (imp :: done), rest. unfold static_importees in *. simpl. repeat split.
      * rewrite G1, H2, insert_insert_eq, H1. f_equal. set_solver.
      * intros E. rewrite G2, H3. repeat case_decide; set_solver.
      * congruence.
      * destruct res as [err|l']; [done|]. destruct G4 as [-> G4]. split; [done|].
        rewrite G4, H1. set_solver.
Qed.

(** The diff against the previous importees removes the importer from
    the entries of the importees that are gone, whatever the order. *)
Lemma fold_remove_stale importer current (prev : list string) :
  ∀ st,
  let st' := List.fold_left (remove_stale importer current) prev st in
  importeeMap st' = importeeMap st ∧ rewriteCache st' = rewriteCache st ∧
  log st' = log st ∧
  ∀ E, members (importerMap st') E =
       if decide (E ∈ prev ∧ E ∉ current)
       then members (importerMap st) E ∖ {[ importer ]}
       else members (importerMap st) E.
Proof.
  induction prev as [|x prev IH]; intros st; simpl.
  - repeat split; try done.
  - destruct (IH (remove_stale importer current st x)) as (H1 & H2 & H3 & H4).
    rewrite H1, H2, H3.
    assert (Hx : importeeMap (remove_stale importer current st x) = importeeMap st ∧
                 rewriteCache (remove_stale importer current st x) = rewriteCache st ∧
                 log (remove_stale importer current st x) = log st ∧
                 ∀ E, members (importerMap (remove_stale importer current st x)) E =
                      if decide (E = x ∧ E ∉ current)
                      then members (importerMap st) E ∖ {[ importer ]}
                      else members (importerMap st) E).
    { unfold remove_stale. case_decide.
      - repeat split; try done. intros E. case_decide; [naive_solver|done].
      - destruct (importerMap st !! x) eqn:Hx; simpl; repeat split; try done.
        + intros E. unfold members. case_decide as HE.
          * destruct HE as [-> _]. simplify_map_eq. done.
          * destruct (decide (E = x)) as [->|]; [naive_solver|]. by simplify_map_eq.
        + intros E. unfold members. case_decide as HE; [|done].
          destruct HE as [-> _]. rewrite Hx. simpl. set_solver. }
    destruct Hx as (X1 & X2 & X3 & X4). repeat split; try done.
    intros E. rewrite H4, X4.
    repeat case_decide; try set_solver.
Qed.

Ltac finish_mid :=
  match goal with
  | |- ∃ st3 out, _ ∧ _ ∧ _ ∧ (?a, inr ?b) = _ => exists a, b; done
  end.

(** A pass over a source with imports.  The entry of the importer is
    replaced by the importees of the imports processed; the importer
    joins their entries; the importer leaves the entries of the
    previous importees that are gone only when the loop has not
    thrown. *)
Lemma rewrite_body_spec source importer resolver timestamp imports st st' res :
  parseImports source = inr imports -> imports ≠ [] ->
  rewrite_body' source importer resolver timestamp st = (st', res) ->
  ∃ done rest, imports = done ++ rest ∧
    let C := static_importees' source importer resolver timestamp done in
    let prev := members (importeeMap st) importer in
    importeeMap st' = <[importer := C]> (importeeMap st) ∧
    rewriteCache st' = rewriteCache st ∧
    match res with
    | inr _ =>
        rest = [] ∧
        ∀ E, members (importerMap st') E =
             (members (importerMap st) E ∪ (if decide (E ∈ C) then {[ importer ]} else ∅))
             ∖ (if decide (E ∈ prev ∧ E ∉ C) then {[ importer ]} else ∅)
    | inl _ =>
        rest ≠ [] ∧
        ∀ E, members (importerMap st') E =
             members (importerMap st) E ∪ (if decide (E ∈ C) then {[ importer ]} else ∅)
    end.
Proof.
  intros Hparse Hne H. unfold rewrite_body in H.
  unfold bind at 1 in H. unfold lift at 1 in H. rewrite Hparse in H.
  destruct imports as [|i0 imports0]; [done|].
  set (imports := i0 :: imports0) in *.
  change (negb (Nat.eqb (length imports) 0)) with true in H. cbv iota in H.
  unfold debug at 1 in H. unfold bind at 1 in H. unfold modify at 1 in H.
  unfold bind at 1 in H. unfold gets at 1 in H. simpl importeeMap in H.
  unfold bind at 1 in H. unfold modify at 1 in H.
  unfold bind at 1 in H.
  match type of H with context [forEach ?f ?xs ?l ?s] =>
    destruct (forEach f xs l s) as [st1 [err|l1]] eqn:Hloop end.
  - simplify_eq. apply forEach_spec in Hloop as (done & rest & Himp & G1 & G2 & G3 & G4).
    2:{ simpl. apply lookup_insert_eq. }
    exists done, rest. simpl in *. split; [done|]. repeat split; try done.
    rewrite G1, insert_insert_eq. f_equal. set_solver.
  - apply forEach_spec in Hloop as (done & rest & Himp & G1 & G2 & G3 & [-> G4]).
    2:{ simpl. apply lookup_insert_eq. }
    rewrite app_nil_r in Himp. subst done.
    exists imports, []. split; [by rewrite app_nil_r|]. simpl in G1, G2, G3, G4.
    assert (Hcur : currentImportees l1 =
                   static_importees' source importer resolver timestamp imports)
      by (rewrite G4; set_solver).
    assert (Hmid : ∃ st2, importeeMap st2 = importeeMap st1 ∧
              rewriteCache st2 = rewriteCache st1 ∧
              (∀ E, members (importerMap st2) E =
                 if decide (E ∈ members (importeeMap st) importer ∧ E ∉ currentImportees l1)
                 then members (importerMap st1) E ∖ {[ importer ]}
                 else members (importerMap st1) E) ∧
              ∃ st3 out, importeeMap st3 = importeeMap st2 ∧
                 importerMap st3 = importerMap st2 ∧
                 rewriteCache st3 = rewriteCache st2 ∧ (st', res) = (st3, inr out)).
    { destruct (importeeMap st !! importer) as [prev|] eqn:Hprev.
      - destruct (fold_remove_stale importer (currentImportees l1) (elements prev) st1)
          as (F1 & F2 & F3 & F4).
        eexists. split; [exact F1|]. split; [exact F2|]. split.
        + assert (Hp : members (importeeMap st) importer = prev)
            by (unfold members; rewrite Hprev; done).
          intros E. rewrite F4, Hp. repeat case_decide; set_solver.
        + unfold bind, modify, ret, debug in H.
          destruct (hasReplaced l1); simpl in H; rewrite <- H; finish_mid.
      - exists st1. split; [done|]. split; [done|]. split.
        + assert (Hp : members (importeeMap st) importer = ∅)
            by (unfold members; rewrite Hprev; done).
          intros E. rewrite Hp. case_decide; [set_solver|done].
        + unfold bind, modify, ret, debug in H.
          destruct (hasReplaced l1); simpl in H; rewrite <- H; finish_mid. }
    destruct Hmid as (st2 & M1 & M2 & M3 & st3 & out & N1 & N2 & N3 & Heq).
    simplify_eq. simpl. rewrite N1, M1, G1, N3, M2, G3, insert_insert_eq.
    split; [f_equal; set_solver|]. split; [done|]. split; [done|].
    intros E. rewrite N2, M3, G2, Hcur.
    repeat case_decide; set_solver.
Qed.

(** What the callback returns or throws does not depend on the state. *)
Lemma same_result_bind {A B} (m1 m2 : M A) (k1 k2 : A -> M B) :
  same_result m1 m2 -> (∀ a, same_result (k1 a) (k2 a)) ->
  same_result (bind m1 k1) (bind m2 k2).
Proof.
  intros Hm Hk st1 st2. unfold bind. specialize (Hm st1 st2).
  destruct (m1 st1) as [s1 [e1|a1]], (m2 st2) as [s2 [e2|a2]];
    simpl in Hm; simplify_eq; [done|]. apply Hk.
Qed.

Lemma same_result_gets {A B} (f g : State -> A) (k1 k2 : A -> M B) :
  (∀ a b, same_result (k1 a) (k2 b)) ->
  same_result (bind (gets f) k1) (bind (gets g) k2).
Proof. intros H st1 st2. unfold bind, gets. apply H. Qed.

Lemma same_result_unit (m1 m2 : M unit) :
  (∀ st, snd (m1 st) = inr tt) -> (∀ st, snd (m2 st) = inr tt) -> same_result m1 m2.
Proof. intros H1 H2 st1 st2. by rewrite H1, H2. Qed.

Ltac same_result_tac :=
  repeat first
    [ apply same_result_bind; [|intros ?]
    | match goal with
      | |- same_result (if ?b then _ else _) (if ?b then _ else _) => destruct b
      end
    | apply same_result_unit; intros ?; reflexivity
    | intros ? ?; reflexivity ].

Lemma rewrite_import_stateless source importer resolver timestamp imp l :
  stateless (rewrite_import' source importer resolver timestamp imp l).
Proof. unfold stateless, rewrite_import, debug, debugHmr. same_result_tac. Qed.

Lemma forEach_stateless {A L} (f : A -> L -> M L) xs :
  (∀ x l, stateless (f x l)) -> ∀ l, stateless (forEach f xs l).
Proof.
  unfold stateless. intros Hf. induction xs as [|x xs IH]; intros l; simpl.
  - intros ? ?; reflexivity.
  - apply same_result_bind; [apply Hf | apply IH].
Qed.

Lemma rewrite_body_stateless source importer resolver timestamp :
  stateless (rewrite_body' source importer resolver timestamp).
Proof.
  unfold stateless, rewrite_body, debug.
  apply same_result_bind; [intros ? ?; reflexivity|]. intros imports.
  destruct (negb (Nat.eqb (length imports) 0)); [|same_result_tac].
  apply same_result_bind; [apply same_result_unit; intros ?; reflexivity|]. intros _.
  apply same_result_gets. intros a b.
  apply same_result_bind; [apply same_result_unit; intros ?; reflexivity|]. intros _.
  apply same_result_bind.
  { apply forEach_stateless. intros. apply rewrite_import_stateless. }
  intros l. apply same_result_bind.
  { apply same_result_unit; intros ?; [destruct a|destruct b]; reflexivity. }
  intros _. same_result_tac.
Qed.

Lemma outcome_any_state source importer resolver timestamp st :
  snd (rewrite_body' source importer resolver timestamp st) =
  outcome' source importer resolver timestamp.
Proof. apply rewrite_body_stateless. Qed.

(** *** The graph after a call of [rewriteImports] *)

Lemma rewriteImports_eq source importer resolver timestamp st :
  rewriteImports' source importer resolver timestamp st =
  match rewrite_body' source importer resolver timestamp st with
  | (st', inr result) => (result, st')
  | (st', inl err) =>
      (source,
       emit (Debug source)
         (emit (ConsoleError
                  ("[vite] Error: module imports rewrite failed for "
                   +:+ importer +:+ "." +:+ Js.lf) err) st'))
  end.
Proof. reflexivity. Qed.

Lemma outcome_no_imports source importer resolver timestamp :
  parseImports source = inr [] ->
  outcome' source importer resolver timestamp = inr source.
Proof.
  intros H. unfold outcome, rewrite_body, bind, lift. rewrite H. reflexivity.
Qed.

(** a source that does not lex, or has no import: nothing changes *)
Lemma rewriteImports_graph_unchanged source importer resolver timestamp st :
  (∃ err, parseImports source = inl err) ∨ parseImports source = inr [] ->
  let st' := snd (rewriteImports' source importer resolver timestamp st) in
  importeeMap st' = importeeMap st ∧ importerMap st' = importerMap st ∧
  rewriteCache st' = rewriteCache st.
Proof.
  intros H. unfold rewriteImports, rewrite_body, bind, lift.
  destruct H as [[err ->]| ->]; simpl; done.
Qed.

(** a pass that completes *)
Lemma rewriteImports_graph_complete source importer resolver timestamp st imports out :
  parseImports source = inr imports -> imports ≠ [] ->
  outcome' source importer resolver timestamp = inr out ->
  let st' := snd (rewriteImports' source importer resolver timestamp st) in
  let C := static_importees' source importer resolver timestamp imports in
  fst (rewriteImports' source importer resolver timestamp st) = out ∧
  importeeMap st' = <[importer := C]> (importeeMap st) ∧
  rewriteCache st' = rewriteCache st ∧
  ∀ E, importers st' E =
       (importers st E ∪ (if decide (E ∈ C) then {[ importer ]} else ∅))
       ∖ (if decide (E ∈ importees st importer ∧ E ∉ C) then {[ importer ]} else ∅).
Proof.
  intros Hparse Hne Hout. rewrite rewriteImports_eq.
  pose proof (outcome_any_state source importer resolver timestamp st) as Hres.
  destruct (rewrite_body' source importer resolver timestamp st) as [st1 res] eqn:Hbody.
  simpl in Hres. rewrite Hout in Hres. subst res.
  eapply rewrite_body_spec in Hbody as (done & rest & Himp & G1 & G2 & -> & G3); eauto.
  rewrite app_nil_r in Himp. subst done. simpl. done.
Qed.

(** a pass that throws after lexing *)
Lemma rewriteImports_graph_thrown source importer resolver timestamp st imports err :
  parseImports source = inr imports ->
  outcome' source importer resolver timestamp = inl err ->
  let st' := snd (rewriteImports' source importer resolver timestamp st) in
  fst (rewriteImports' source importer resolver timestamp st) = source ∧
  rewriteCache st' = rewriteCache st ∧
  ∃ done rest, imports = done ++ rest ∧ rest ≠ [] ∧
    let C := static_importees' source importer resolver timestamp done in
    importeeMap st' = <[importer := C]> (importeeMap st) ∧
    ∀ E, importers st' E =
         importers st E ∪ (if decide (E ∈ C) then {[ importer ]} else ∅).
Proof.
  intros Hparse Hout.
  assert (Hne : imports ≠ []).
  { intros ->. rewrite (outcome_no_imports _ _ _ _ Hparse) in Hout. done. }
  rewrite rewriteImports_eq.
  pose proof (outcome_any_state source importer resolver timestamp st) as Hres.
  destruct (rewrite_body' source importer resolver timestamp st) as [st1 res] eqn:Hbody.
  simpl in Hres. rewrite Hout in Hres. subst res.
  eapply rewrite_body_spec in Hbody as (done & rest & Himp & G1 & G2 & G3 & G4); eauto.
  simpl. split; [done|]. split; [done|]. exists done, rest. done.
Qed.

Lemma importees_insert st st' importer C I :
  importeeMap st' = <[importer := C]> (importeeMap st) ->
  importees st' I = if decide (I = importer) then C else importees st I.
Proof.
  intros H. unfold importees, members. rewrite H.
  case_decide; subst; by simplify_map_eq.
Qed.

(** every call keeps the edges of [importeeMap] in [importerMap] *)
Lemma rewriteImports_forward source importer resolver timestamp st :
  forward st -> forward (snd (rewriteImports' source importer resolver timestamp st)).
Proof.
  intros Hf.
  destruct (parseImports source) as [err|imports] eqn:Hparse.
  { destruct (rewriteImports_graph_unchanged source importer resolver timestamp st)
      as (H1 & H2 & _); [eauto|].
    intros I E. unfold importees, importers. rewrite H1, H2. apply Hf. }
  destruct imports as [|i0 imports0].
  { destruct (rewriteImports_graph_unchanged source importer resolver timestamp st)
      as (H1 & H2 & _); [eauto|].
    intros I E. unfold importees, importers. rewrite H1, H2. apply Hf. }
  destruct (outcome' source importer resolver timestamp) as [err|out] eqn:Hout.
  - destruct (rewriteImports_graph_thrown _ _ _ _ st _ _ Hparse Hout)
      as (_ & _ & done & rest & _ & _ & G1 & G2).
    intros I E. rewrite (importees_insert _ _ _ _ I G1), G2.
    specialize (Hf I E). repeat case_decide; set_solver.
  - destruct (rewriteImports_graph_complete _ _ _ _ st _ _ Hparse ltac:(done) Hout)
      as (_ & G1 & _ & G2).
    intros I E. rewrite (importees_insert _ _ _ _ I G1), G2.
    specialize (Hf I E). repeat case_decide; set_solver.
Qed.

(** a call that does not throw after lexing keeps the two maps symmetric *)
Lemma rewriteImports_symmetric source importer resolver timestamp st :
  throws_late parseImports rewriteFileWithHMR hmrClientPublicPath
    path_dirname path_resolve slash source importer resolver timestamp = false ->
  symmetric st -> symmetric (snd (rewriteImports' source importer resolver timestamp st)).
Proof.
  unfold throws_late. intros Hlate Hs.
  destruct (parseImports source) as [err|imports] eqn:Hparse.
  { destruct (rewriteImports_graph_unchanged source importer resolver timestamp st)
      as (H1 & H2 & _); [eauto|].
    intros I E. unfold importees, importers. rewrite H1, H2. apply Hs. }
  destruct imports as [|i0 imports0].
  { destruct (rewriteImports_graph_unchanged source importer resolver timestamp st)
      as (H1 & H2 & _); [eauto|].
    intros I E. unfold importees, importers. rewrite H1, H2. apply Hs. }
  destruct (outcome' source importer resolver timestamp) as [err|out] eqn:Hout; [done|].
  destruct (rewriteImports_graph_complete _ _ _ _ st _ _ Hparse ltac:(done) Hout)
    as (_ & G1 & _ & G2).
  intros I E. rewrite (importees_insert _ _ _ _ I G1), G2.
  pose proof (Hs I E). pose proof (Hs importer E).
  repeat case_decide; set_solver.
Qed.

(** *** Sources without imports, sources that do not lex *)

(** C4: when the lexer throws, [rewriteImports] returns the source it
    was given; the state changes only by two log entries, the
    [console.error] that names the importer and carries the error, and
    after it the debug entry with the source.  Nothing is thrown to the
    caller: [rewriteImports] is a function, its result is this pair. *)
Theorem rewriteImports_lex_failure source importer resolver timestamp st err :
  parseImports source = inl err ->
  rewriteImports' source importer resolver timestamp st =
  (source,
   emit (Debug source)
     (emit (ConsoleError
              ("[vite] Error: module imports rewrite failed for "
               +:+ importer +:+ "." +:+ Js.lf) err) st)).
Proof.
  intros H. unfold rewriteImports, rewrite_body, bind, lift. rewrite H. reflexivity.
Qed.

(** *** Errors after lexing *)

(** C9: when the lexer succeeds and the pass then throws, the source is
    returned as it was, but the entry of the importer has been replaced
    by the set built so far, the importees of the imports [done]
    before the throw, and no importer entry has lost the importer: the
    entries are the old ones, with the importer added for the imports
    done. *)
Theorem rewriteImports_not_atomic source importer resolver timestamp st imports err :
  parseImports source = inr imports ->
  outcome' source importer resolver timestamp = inl err ->
  let st' := snd (rewriteImports' source importer resolver timestamp st) in
  fst (rewriteImports' source importer resolver timestamp st) = source ∧
  ∃ done rest, imports = done ++ rest ∧ rest ≠ [] ∧
    let built := static_importees' source importer resolver timestamp done in
    importeeMap st' !! importer = Some built ∧
    (∀ I, I ≠ importer -> importeeMap st' !! I = importeeMap st !! I) ∧
    ∀ E, importers st' E =
         importers st E ∪ (if decide (E ∈ built) then {[ importer ]} else ∅).
Proof.
  intros Hparse Hout.
  destruct (rewriteImports_graph_thrown _ _ _ _ st _ _ Hparse Hout)
    as (H1 & _ & done & rest & Himp & Hrest & G1 & G2).
  split; [done|]. exists done, rest. split; [done|]. split; [done|].
  simpl. rewrite G1. split; [apply lookup_insert_eq|]. split; [|done].
  intros I HI. by rewrite lookup_insert_ne.
Qed.

(** *** Symmetry of the graph *)

Lemma symmetric_initial : symmetric initial.
Proof. intros I E. unfold importees, importers, members. simpl. set_solver. Qed.

Lemma run_calls_forward calls st :
  forward st ->
  forward (run_calls parseImports rewriteFileWithHMR hmrClientPublicPath
             path_dirname path_resolve slash calls st).
Proof.
  revert st. induction calls as [|c calls IH]; intros st Hf; [done|].
  simpl. apply IH. apply rewriteImports_forward, Hf.
Qed.

Lemma run_calls_symmetric calls st :
  Forall (fun c => call_throws_late parseImports rewriteFileWithHMR hmrClientPublicPath
                     path_dirname path_resolve slash c = false) calls ->
  symmetric st ->
  symmetric (run_calls parseImports rewriteFileWithHMR hmrClientPublicPath
               path_dirname path_resolve slash calls st).
Proof.
  intros Hall. revert st. induction Hall as [|c calls Hc Hall IH]; intros st Hs; [done|].
  simpl. apply IH. apply rewriteImports_symmetric; done.
Qed.

(** C2, amended.  After any sequence of calls, every importee in the
    entry of an importer lists that importer.  When no call of the
    sequence threw after lexing, the converse holds too: every importer
    listed for an importee has it in its entry.  And when the importer
    is then rewritten with a source that has at least one import record,
    in a pass that completes, its entry is the importee set of the new
    source, and every importee of its previous entry that the new
    source does not import no longer lists it. *)
Theorem graph_symmetry calls c :
  let st := run_calls parseImports rewriteFileWithHMR hmrClientPublicPath
              path_dirname path_resolve slash calls initial in
  let st' := run_call parseImports rewriteFileWithHMR hmrClientPublicPath
               path_dirname path_resolve slash st c in
  let now := source_importees' (call_source c) (call_importer c) (call_resolver c)
               (call_timestamp c) in
  (∀ I E, E ∈ importees st I -> I ∈ importers st E) ∧
  (Forall (fun c => call_throws_late parseImports rewriteFileWithHMR hmrClientPublicPath
                      path_dirname path_resolve slash c = false) calls ->
   ∀ I E, I ∈ importers st E -> E ∈ importees st I) ∧
  (∀ imports,
     parseImports (call_source c) = inr imports -> imports ≠ [] ->
     call_throws_late parseImports rewriteFileWithHMR hmrClientPublicPath
       path_dirname path_resolve slash c = false ->
     importees st' (call_importer c) = now ∧
     ∀ E, E ∈ importees st (call_importer c) -> E ∉ now ->
          call_importer c ∉ importers st' E).
Proof.
  simpl. split; [|split].
  - apply run_calls_forward. intros I E. apply symmetric_initial.
  - intros Hall I E.
    apply (run_calls_symmetric calls initial Hall symmetric_initial).
  - intros imports Hparse Hne Hc.
    unfold call_throws_late, throws_late in Hc. rewrite Hparse in Hc.
    destruct (outcome' (call_source c) (call_importer c) (call_resolver c)
                (call_timestamp c)) as [err|out] eqn:Hout; [done|].
    unfold run_call, source_importees. rewrite Hparse.
    match goal with |- context [rewriteImports' _ _ _ _ ?s] =>
      destruct (rewriteImports_graph_complete _ _ _ _ s _ _ Hparse Hne Hout)
        as (_ & G1 & _ & G2) end.
    rewrite (importees_insert _ _ _ _ (call_importer c) G1).
    split; [by case_decide|].
    intros E Hold Hnew. rewrite G2.
    repeat case_decide; set_solver.
Qed.

(** *** The rewritten specifier *)

(** A static import processed by the callback: the text written over
    the specifier, when it differs from it, is [resolved_of]; the
    buffer written to is the one the HMR transformer may have patched
    first. *)
Lemma rewrite_import_static source importer resolver timestamp imp l st st' l' :
  is_static imp = true ->
  rewrite_import' source importer resolver timestamp imp l st = (st', inr l') ->
  ∃ resolved s0,
    resolved_of source resolver timestamp imp = inr resolved ∧
    (s0 = buf l ∨ rewriteFileWithHMR source importer (buf l) = inr s0) ∧
    if String.eqb resolved (specifier source imp) then buf l' = s0
    else MagicString.overwrite (ImportSpecifier.s imp) (ImportSpecifier.e imp)
           resolved s0 = inr (buf l').
Proof.
  unfold is_static, resolved_of, specifier. intros Hd H.
  unfold rewrite_import in H. rewrite Hd in H.
  run_M H; simpl in *;
    repeat match goal with
      | Hn : negb _ = true |- _ => apply negb_true_iff in Hn
      | Hn : negb _ = false |- _ => apply negb_false_iff in Hn
      end;
    eexists _, _; (split; [reflexivity|]);
    match goal with Hn : String.eqb _ _ = _ |- _ => rewrite Hn end; eauto.
Qed.


(** The relative branch: a static specifier that starts with [.] or [/]
    is cut by the query pattern into [pathname] and [query].  The
    rewritten specifier is the path, with [.js] appended when the
    extension pattern does not match it, followed by the query
    unchanged; with a refresh token it is followed, once, by
    [?t=token] when the query is empty and by [&t=token] when it is
    not. *)
Lemma relative_specifier_resolved source resolver imp c rest :
  specifier source imp = String c rest -> c = "."%char ∨ c = "/"%char ->
  let id := specifier source imp in
  let pathname := Js.queryRE_strip id in
  let query := default EmptyString (Js.queryRE_match id) in
  let pathname' := if Js.extRE_test pathname then pathname else pathname +:+ ".js" in
  id = pathname +:+ query ∧
  (query = EmptyString ∨ ∃ q, query = String "?" q) ∧
  resolved_of source resolver None imp = inr (pathname' +:+ query) ∧
  resolved_of source resolver (Some EmptyString) imp = inr (pathname' +:+ query) ∧
  ∀ token, token ≠ EmptyString ->
    (query = EmptyString ->
     resolved_of source resolver (Some token) imp = inr (pathname' +:+ "?t=" +:+ token)) ∧
    (query ≠ EmptyString ->
     resolved_of source resolver (Some token) imp =
       inr (pathname' +:+ query +:+ "&t=" +:+ token)).
Proof.
  intros Hid Hc. simpl.
  assert (Hbare : Js.bareRE_test (specifier source imp) = false).
  { rewrite Hid. simpl. destruct Hc as [-> | ->]; reflexivity. }
  split; [apply queryRE_split|]. split.
  { destruct (Js.queryRE_match (specifier source imp)) as [m|] eqn:Hm; simpl; [|by left].
    right. eapply queryRE_match_shape, Hm. }
  unfold resolved_of. rewrite Hbare. unfold resolve_path. simpl.
  split; [by destruct (Js.extRE_test _)|]. split; [by destruct (Js.extRE_test _)|].
  intros token Htok.
  destruct (String.eqb_spec token EmptyString) as [|_]; [done|]. simpl.
  destruct (Js.queryRE_match (specifier source imp)) as [m|] eqn:Hm; simpl.
  - apply queryRE_match_shape in Hm as [q ->]. simpl.
    split; [done|]. intros _. by destruct (Js.extRE_test _).
  - split; [|done]. intros _. by destruct (Js.extRE_test _).
Qed.

(** *** The HTML entry *)

Local Abbreviation replace_scripts' :=
  (replace_scripts parseImports rewriteFileWithHMR hmrClientPublicPath
     path_dirname path_resolve slash).
Local Abbreviation assemble' :=
  (assemble parseImports rewriteFileWithHMR hmrClientPublicPath
     path_dirname path_resolve slash).
Local Abbreviation html_entry' :=
  (html_entry parseImports rewriteFileWithHMR hmrClientPublicPath
     path_dirname path_resolve slash).

(** once the flag is set, the callback injects nothing *)
Lemma replace_scripts_flag_set resolver pieces :
  ∀ st, replace_scripts' resolver pieces true st = assemble' resolver pieces st.
Proof.
  induction pieces as [|[c|openTag script] pieces IH]; intros st; simpl; [done|..].
  - by rewrite IH.
  - unfold replace_script.
    destruct (rewriteImports' script "/index.html" resolver None st) as [r st1].
    rewrite IH. destruct (assemble' resolver pieces st1) as [out st2].
    by rewrite append_nil_l, !append_assoc.
Qed.

(** the text before the first block is copied; the first block gets the
    snippet in front of its open tag *)
Lemma replace_scripts_first resolver pre openTag script rest :
  ∀ st,
  replace_scripts' resolver ((Text <$> pre) ++ Script openTag script :: rest) false st =
  let (rewritten, st1) := rewriteImports' script "/index.html" resolver None st in
  let (out, st2) := assemble' resolver rest st1 in
  (string_of_list_ascii pre +:+ devInjectionCode +:+ openTag +:+ rewritten
     +:+ "</script>" +:+ out, st2).
Proof.
  induction pre as [|c pre IH]; intros st; simpl.
  - unfold replace_script.
    destruct (rewriteImports' script "/index.html" resolver None st) as [r st1].
    rewrite replace_scripts_flag_set.
    destruct (assemble' resolver rest st1) as [out st2].
    by rewrite !append_assoc.
  - rewrite IH.
    destruct (rewriteImports' script "/index.html" resolver None st) as [r st1].
    by destruct (assemble' resolver rest st1) as [out st2].
Qed.

(** C6: when the entry page is rewritten (it is not in the cache) and
    the scan finds a first script block after the text [pre], the body
    served is that text, the snippet, the open tag of the first block,
    its rewritten script and [</script>], followed by the rest of the
    document assembled with nothing injected: the snippet is put in
    once, right before the first open tag, whatever the number of
    blocks that follow. *)
Theorem dev_flag_injected_once resolver ctx st pre openTag script rest :
  LRUCache.has (readBody (body ctx)) (rewriteCache st) = false ->
  scan_scripts 0 (readBody (body ctx)) = (Text <$> pre) ++ Script openTag script :: rest ->
  body (fst (html_entry' resolver ctx st)) =
  BodyString
    (string_of_list_ascii pre +:+ devInjectionCode +:+ openTag
       +:+ fst (rewriteImports' script "/index.html" resolver None st)
       +:+ "</script>"
       +:+ fst (assemble' resolver rest
                  (snd (rewriteImports' script "/index.html" resolver None st)))).
Proof.
  intros Hmiss Hscan. unfold html_entry. rewrite Hmiss.
  assert (Htruthy : body_truthy (body ctx) = true).
  { destruct (body ctx) as [text|chunks]; [|done]. simpl in *.
    destruct text; [by destruct pre|done]. }
  rewrite Htruthy, Hscan, replace_scripts_first.
  destruct (rewriteImports' script "/index.html" resolver None st) as [r st1]. simpl.
  by destruct (assemble' resolver rest st1) as [out st2].
Qed.

(** the state after the replacement is the state after rewriting the
    scripts one after the other, all with the importer [/index.html] *)
Lemma replace_scripts_state resolver pieces :
  ∀ flag st,
  snd (replace_scripts' resolver pieces flag st) =
  List.fold_left
    (fun st script => snd (rewriteImports' script "/index.html" resolver None st))
    (scripts_of pieces) st.
Proof.
  induction pieces as [|[c|openTag script] pieces IH]; intros flag st; simpl; [done|..].
  - rewrite <- (IH flag st). by destruct (replace_scripts' resolver pieces flag st).
  - unfold replace_script.
    destruct (rewriteImports' script "/index.html" resolver None st) as [r st1]. simpl.
    rewrite <- (IH true st1). by destruct (replace_scripts' resolver pieces true st1).
Qed.

(** a chain of completed passes of one importer: its entry is the set
    of the last source, and it is listed by no importee of an earlier
    source that the last one does not import *)
Lemma passes_of_one_importer importer resolver timestamp scripts :
  ∀ last st,
  Forall (fun script =>
            (∃ imports, parseImports script = inr imports ∧ imports ≠ []) ∧
            ∃ out, outcome' script importer resolver timestamp = inr out)
         (scripts ++ [last]) ->
  let st' := List.fold_left
               (fun st script => snd (rewriteImports' script importer resolver timestamp st))
               (scripts ++ [last]) st in
  importeeMap st' !! importer = Some (source_importees' last importer resolver timestamp) ∧
  ∀ script E, script ∈ scripts ->
       E ∈ source_importees' script importer resolver timestamp ->
       E ∉ source_importees' last importer resolver timestamp ->
       importer ∉ importers st' E.
Proof.
  induction scripts as [|prev scripts IH] using rev_ind; intros last st Hall; simpl.
  - apply Forall_inv in Hall as [(imports & Hparse & Hne) [out Hout]].
    destruct (rewriteImports_graph_complete _ _ _ _ st _ _ Hparse Hne Hout)
      as (_ & G1 & _ & G2).
    unfold source_importees. rewrite Hparse, G1. split; [apply lookup_insert_eq|].
    intros script E Hin. by apply elem_of_nil in Hin.
  - apply Forall_app in Hall as [Hall Hlast].
    apply Forall_inv in Hlast as [(imports & Hparse & Hne) [out Hout]].
    rewrite fold_left_app. simpl.
    specialize (IH prev st Hall). simpl in IH. destruct IH as [IH1 IH2].
    set (st1 := List.fold_left _ (scripts ++ [prev]) st) in *.
    destruct (rewriteImports_graph_complete _ _ _ _ st1 _ _ Hparse Hne Hout)
      as (_ & G1 & _ & G2).
    unfold source_importees at 1 3. rewrite Hparse, G1.
    split; [apply lookup_insert_eq|].
    intros script E Hin HE Hnot. rewrite G2.
    assert (Hprev : importees st1 importer =
                    source_importees' prev importer resolver timestamp)
      by (unfold importees, members; by rewrite IH1).
    rewrite Hprev.
    destruct (decide (E ∈ source_importees' prev importer resolver timestamp)) as [Hp|Hp].
    + repeat case_decide; set_solver.
    + apply elem_of_app in Hin as [Hin|Hin].
      * specialize (IH2 script E Hin HE Hp). repeat case_decide; set_solver.
      * apply list_elem_of_singleton in Hin as ->. done.
Qed.

(** C10: when the entry page is rewritten, every inline script is
    rewritten with the importer [/index.html], one after the other.
    When every script has imports and its pass completes, the entry of
    [/index.html] is afterwards the importee set of the last script
    alone, and no importee of an earlier script that the last script
    does not import lists [/index.html] any more. *)
Theorem html_blocks_share_importer resolver ctx st earlier last :
  LRUCache.has (readBody (body ctx)) (rewriteCache st) = false ->
  scripts_of (scan_scripts 0 (readBody (body ctx))) = earlier ++ [last] ->
  Forall (fun script =>
            (∃ imports, parseImports script = inr imports ∧ imports ≠ []) ∧
            ∃ out, outcome' script "/index.html" resolver None = inr out)
         (earlier ++ [last]) ->
  let st' := snd (html_entry' resolver ctx st) in
  importeeMap st' =
    importeeMap (List.fold_left
      (fun st script => snd (rewriteImports' script "/index.html" resolver None st))
      (earlier ++ [last]) st) ∧
  importerMap st' =
    importerMap (List.fold_left
      (fun st script => snd (rewriteImports' script "/index.html" resolver None st))
      (earlier ++ [last]) st) ∧
  importeeMap st' !! "/index.html" =
    Some (source_importees' last "/index.html" resolver None) ∧
  ∀ script E, script ∈ earlier ->
       E ∈ source_importees' script "/index.html" resolver None ->
       E ∉ source_importees' last "/index.html" resolver None ->
       "/index.html" ∉ importers st' E.
Proof.
  intros Hmiss Hscripts Hall. unfold html_entry. rewrite Hmiss.
  assert (Htruthy : body_truthy (body ctx) = true).
  { destruct (body ctx) as [text|chunks]; [|done]. simpl in *.
    destruct text; [by destruct earlier|done]. }
  rewrite Htruthy.
  pose proof (replace_scripts_state resolver (scan_scripts 0 (readBody (body ctx)))
                false st) as Hst.
  destruct (replace_scripts' resolver (scan_scripts 0 (readBody (body ctx))) false st)
    as [out st1]. simpl in Hst. rewrite Hscripts in Hst. simpl. subst st1.
  split; [done|]. split; [done|].
  destruct (passes_of_one_importer "/index.html" resolver None earlier last st Hall)
    as [H1 H2].
  split; [exact H1|]. exact H2.
Qed.

(** *** Dynamic imports *)

(** the callback on an import that is not static leaves the variables
    of the pass alone *)
Lemma rewrite_import_not_static source importer resolver timestamp imp l st st' l' :
  is_static imp = false ->
  rewrite_import' source importer resolver timestamp imp l st = (st', inr l') -> l' = l.
Proof.
  unfold is_static. intros Hd H. unfold rewrite_import in H. rewrite Hd in H.
  run_M H; done.
Qed.

(** the loop never edits a range that no static record overlaps, when
    the HMR transformer does not either *)
Lemma forEach_keeps source importer resolver timestamp a b imports :
  (∀ i, In i imports -> is_static i = true ->
        ImportSpecifier.s i <= ImportSpecifier.e i ∧
        (ImportSpecifier.e i <= a ∨ b <= ImportSpecifier.s i)) ->
  (∀ m m', rewriteFileWithHMR source importer m = inr m' ->
           MagicString.keeps source a b m -> MagicString.keeps source a b m') ->
  ∀ l st st' l',
  forEach (rewrite_import' source importer resolver timestamp) imports l st = (st', inr l') ->
  MagicString.keeps source a b (buf l) -> MagicString.keeps source a b (buf l').
Proof.
  intros Hdis Hhmr. induction imports as [|i imports IH]; intros l st st' l' H Hk.
  - simpl in H. unfold ret in H. by simplify_eq.
  - simpl in H. unfold bind in H.
    destruct (rewrite_import' source importer resolver timestamp i l st)
      as [st1 [err|l1]] eqn:Hstep; [done|].
    eapply IH; [intros; apply Hdis; simpl; auto|exact H|].
    destruct (is_static i) eqn:Hs.
    + destruct (rewrite_import_static _ _ _ _ _ _ _ _ _ Hs Hstep)
        as (resolved & s0 & _ & Hs0 & Hbuf).
      assert (Hk0 : MagicString.keeps source a b s0).
      { destruct Hs0 as [->|Hs0]; [done|]. eapply Hhmr; eauto. }
      destruct (String.eqb resolved (specifier source i)); [by rewrite Hbuf|].
      destruct Hk0 as (K1 & K2 & K3).
      destruct (Hdis i) as [Hle Hout]; [simpl; auto|done|].
      destruct (overwrite_wf_intact _ _ _ a b _ _ Hbuf) as [W1 W2]; try done.
      split; [|done]. rewrite (overwrite_original _ _ _ _ _ Hbuf). done.
    + by rewrite (rewrite_import_not_static _ _ _ _ _ _ _ _ _ Hs Hstep).
Qed.

(** *** The plugin and the cache *)

Local Abbreviation script_response' :=
  (script_response parseImports rewriteFileWithHMR hmrClientPublicPath
     path_dirname path_resolve slash).

(** [rewriteImports] does not touch the cache *)
Lemma rewriteImports_cache source importer resolver timestamp st :
  rewriteCache (snd (rewriteImports' source importer resolver timestamp st)) =
  rewriteCache st.
Proof.
  destruct (parseImports source) as [err|imports] eqn:Hparse.
  { eapply rewriteImports_graph_unchanged; eauto. }
  destruct imports as [|i0 imports0].
  { eapply rewriteImports_graph_unchanged; eauto. }
  destruct (outcome' source importer resolver timestamp) as [err|res] eqn:Hout.
  - eapply rewriteImports_graph_thrown; eauto.
  - eapply rewriteImports_graph_complete; eauto.
Qed.

(** a script response that is rewritten is served and stored under its
    raw body: looking the raw body up gives the body served *)
Lemma script_response_stored resolver ctx st :
  1 <= LRUCache.max (rewriteCache st) ->
  LRUCache.has (readBody (body ctx)) (rewriteCache st) = false ->
  ∃ out, body (fst (script_response' resolver ctx st)) = BodyString out ∧
    fst (LRUCache.get (readBody (body ctx))
           (rewriteCache (snd (script_response' resolver ctx st)))) = Some out.
Proof.
  intros Hmax Hmiss. unfold script_response. rewrite Hmiss.
  pose proof (rewriteImports_cache (readBody (body ctx)) (Js.timestampRE_strip (url ctx))
                resolver (query_t ctx) st) as Hc.
  destruct (rewriteImports' (readBody (body ctx)) (Js.timestampRE_strip (url ctx))
              resolver (query_t ctx) st) as [out st1].
  exists out. simpl in *. split; [done|]. apply lru_get_set. by rewrite Hc.
Qed.

(** a file change deletes the entry whose key is the public path of the
    file, and no other *)
Lemma on_change_other_keys resolver file st key :
  key ≠ fileToRequest resolver file ->
  LRUCache.peek key (rewriteCache (on_change resolver file st)) =
  LRUCache.peek key (rewriteCache st).
Proof. intros Hne. unfold on_change. simpl. by apply lru_peek_del_ne. Qed.

(** *** Further properties of the rewriter *)

(** X1: the text [rewriteImports] returns depends on the source, the
    importer, the resolver and the timestamp only, not on the graph,
    the cache or the log it is run in. *)
Theorem rewriteImports_text_any_state source importer resolver timestamp st1 st2 :
  fst (rewriteImports' source importer resolver timestamp st1) =
  fst (rewriteImports' source importer resolver timestamp st2).
Proof.
  rewrite !rewriteImports_eq.
  pose proof (outcome_any_state source importer resolver timestamp st1) as H1.
  pose proof (outcome_any_state source importer resolver timestamp st2) as H2.
  destruct (rewrite_body' source importer resolver timestamp st1) as [s1 [e1|o1]],
           (rewrite_body' source importer resolver timestamp st2) as [s2 [e2|o2]];
    simpl in *; congruence.
Qed.

(** the three shapes of the graph after a call, in one statement *)
Lemma rewriteImports_graph_cases source importer resolver timestamp st :
  let st' := snd (rewriteImports' source importer resolver timestamp st) in
  (importeeMap st' = importeeMap st ∧ importerMap st' = importerMap st) ∨
  ∃ C, importeeMap st' = <[importer := C]> (importeeMap st) ∧
       ((∀ E, importers st' E =
              (importers st E ∪ (if decide (E ∈ C) then {[ importer ]} else ∅))
              ∖ (if decide (E ∈ importees st importer ∧ E ∉ C)
                 then {[ importer ]} else ∅)) ∨
        (∀ E, importers st' E =
              importers st E ∪ (if decide (E ∈ C) then {[ importer ]} else ∅))).
Proof.
  destruct (parseImports source) as [err|imports] eqn:Hparse.
  { left. destruct (rewriteImports_graph_unchanged source importer resolver timestamp st)
      as (H1 & H2 & _); eauto. }
  destruct imports as [|i0 imports0].
  { left. destruct (rewriteImports_graph_unchanged source importer resolver timestamp st)
      as (H1 & H2 & _); eauto. }
  destruct (outcome' source importer resolver timestamp) as [err|res] eqn:Hout.
  - destruct (rewriteImports_graph_thrown _ _ _ _ st _ _ Hparse Hout)
      as (_ & _ & done & rest & _ & _ & G1 & G2).
    right. eexists. split; [exact G1|]. right. exact G2.
  - destruct (rewriteImports_graph_complete _ _ _ _ st _ _ Hparse ltac:(done) Hout)
      as (_ & G1 & _ & G2).
    right. eexists. split; [exact G1|]. left. exact G2.
Qed.

(** X2: a call for one importer touches the edges of that importer
    only: the importee set of every other module is what it was, and
    every other module is in an importer set after the call exactly
    when it was before. *)
Theorem rewriteImports_frame source importer resolver timestamp st :
  let st' := snd (rewriteImports' source importer resolver timestamp st) in
  (∀ I, I ≠ importer -> importeeMap st' !! I = importeeMap st !! I) ∧
  (∀ I E, I ≠ importer -> I ∈ importers st' E <-> I ∈ importers st E).
Proof.
  destruct (rewriteImports_graph_cases source importer resolver timestamp st)
    as [[H1 H2]|(C & G1 & G2)]; simpl.
  - unfold importers. rewrite H1, H2. done.
  - split.
    + intros I HI. rewrite G1. by rewrite lookup_insert_ne.
    + intros I E HI. destruct G2 as [G2|G2]; rewrite G2;
        repeat case_decide; set_solver.
Qed.

(** X3: rewriting the same source for the same importer a second time,
    in a pass that does not throw after lexing, leaves every importee
    set and every importer set as the first pass left it. *)
Theorem rewriteImports_twice source importer resolver timestamp st :
  throws_late parseImports rewriteFileWithHMR hmrClientPublicPath
    path_dirname path_resolve slash source importer resolver timestamp = false ->
  let st1 := snd (rewriteImports' source importer resolver timestamp st) in
  let st2 := snd (rewriteImports' source importer resolver timestamp st1) in
  importeeMap st2 = importeeMap st1 ∧ ∀ E, importers st2 E = importers st1 E.
Proof.
  unfold throws_late. intros Hlate. simpl.
  destruct (parseImports source) as [err|imports] eqn:Hparse.
  { match goal with |- context [rewriteImports' _ _ _ _ (snd ?r)] =>
      destruct (rewriteImports_graph_unchanged source importer resolver timestamp (snd r))
        as (H1 & H2 & _); [eauto|] end.
    unfold importers. by rewrite H1, H2. }
  destruct imports as [|i0 imports0].
  { match goal with |- context [rewriteImports' _ _ _ _ (snd ?r)] =>
      destruct (rewriteImports_graph_unchanged source importer resolver timestamp (snd r))
        as (H1 & H2 & _); [eauto|] end.
    unfold importers. by rewrite H1, H2. }
  destruct (outcome' source importer resolver timestamp) as [err|out] eqn:Hout; [done|].
  destruct (rewriteImports_graph_complete _ _ _ _ st _ _ Hparse ltac:(done) Hout)
    as (_ & G1 & _ & G2).
  match goal with |- context [rewriteImports' _ _ _ _ (snd ?r)] =>
    destruct (rewriteImports_graph_complete _ _ _ _ (snd r) _ _ Hparse ltac:(done) Hout)
      as (_ & K1 & _ & K2) end.
  split.
  - rewrite K1, G1. apply insert_insert_eq.
  - intros E. rewrite K2. rewrite (importees_insert _ _ _ _ importer G1).
    rewrite G2. repeat case_decide; set_solver.
Qed.

Lemma bind_ext {A B} (m1 m2 : M A) (k1 k2 : A -> M B) st :
  m1 st = m2 st -> (∀ a st', k1 a st' = k2 a st') -> bind m1 k1 st = bind m2 k2 st.
Proof.
  intros Hm Hk. unfold bind. rewrite Hm.
  destruct (m2 st) as [st' [err|a]]; [done|]. apply Hk.
Qed.

Lemma forEach_ext {A L} (f g : A -> L -> M L) xs :
  (∀ x l st, f x l st = g x l st) -> ∀ l st, forEach f xs l st = forEach g xs l st.
Proof.
  intros Hfg. induction xs as [|x xs IH]; intros l st; simpl; [done|].
  apply bind_ext; [apply Hfg|]. intros a st'. apply IH.
Qed.

(** X4: for an importer the Vue pattern matches (a [.vue] file or one
    of its [?type=] parts) the HMR transformer is never called: with
    any other transformer in its place [rewriteImports] returns the
    same text and the same state. *)
Theorem vue_importer_not_transformed other source importer resolver timestamp st :
  Js.vueRE_test importer = true ->
  rewriteImports parseImports other hmrClientPublicPath path_dirname path_resolve slash
    source importer resolver timestamp st =
  rewriteImports' source importer resolver timestamp st.
Proof.
  intros Hvue. unfold rewriteImports.
  assert (Hbody : rewrite_body parseImports other hmrClientPublicPath
                    path_dirname path_resolve slash source importer resolver timestamp st =
                  rewrite_body' source importer resolver timestamp st); [|by rewrite Hbody].
  unfold rewrite_body. apply bind_ext; [done|]. intros imports st1.
  destruct (negb (Nat.eqb (length imports) 0)); [|done].
  apply bind_ext; [done|]. intros _ st2.
  apply bind_ext; [done|]. intros prev st3.
  apply bind_ext; [done|]. intros _ st4.
  apply bind_ext; [|done].
  apply forEach_ext. intros imp l st5. unfold rewrite_import.
  destruct (Z.eqb (ImportSpecifier.d imp) (-1)); [|done].
  apply bind_ext; [|done].
  destruct (Js.bareRE_test _); [|done].
  apply bind_ext; [done|]. intros resolved st6.
  rewrite Hvue. simpl. by rewrite andb_false_r.
Qed.

(** *** Further properties of the plugin *)

Lemma lru_has_remove key l :
  List.existsb (LRUCache.key_is key) (LRUCache.remove key l) = false.
Proof.
  unfold LRUCache.remove. induction l as [|e l IH]; simpl; [done|].
  destruct (LRUCache.key_is key e) eqn:He; simpl; [done|]. by rewrite He.
Qed.

(** X5: a file change leaves the graph alone; in the cache it deletes
    the entry whose key is the public path of the file, if there is
    one, and leaves the entry of every other key as it is. *)
Theorem on_change_effect resolver file st :
  let st' := on_change resolver file st in
  importeeMap st' = importeeMap st ∧ importerMap st' = importerMap st ∧
  LRUCache.has (fileToRequest resolver file) (rewriteCache st') = false ∧
  ∀ key, key ≠ fileToRequest resolver file ->
    LRUCache.peek key (rewriteCache st') = LRUCache.peek key (rewriteCache st).
Proof.
  simpl. split; [done|]. split; [done|]. split.
  - unfold LRUCache.has. simpl. apply lru_has_remove.
  - intros key Hne. by apply lru_peek_del_ne.
Qed.

Lemma lru_has_set key value c :
  1 <= LRUCache.max c -> LRUCache.has key (LRUCache.set key value c) = true.
Proof.
  intros Hmax. unfold LRUCache.has, LRUCache.set. simpl.
  destruct (LRUCache.max c) as [|n]; [lia|]. simpl.
  unfold LRUCache.key_is at 1. simpl. by rewrite String.eqb_refl.
Qed.

(** X6: the cache is looked up by the raw body alone.  Once a script
    response has been rewritten, a later script response with the same
    raw body, whatever its URL and its timestamp, is served the text
    rewritten for the first one, and the graph stays as it is. *)
Theorem script_response_same_body resolver ctx1 ctx2 st :
  1 <= LRUCache.max (rewriteCache st) ->
  LRUCache.has (readBody (body ctx1)) (rewriteCache st) = false ->
  readBody (body ctx2) = readBody (body ctx1) ->
  let first := script_response' resolver ctx1 st in
  let second := script_response' resolver ctx2 (snd first) in
  body (fst first) =
    BodyString (fst (rewriteImports' (readBody (body ctx1)) (Js.timestampRE_strip (url ctx1))
                       resolver (query_t ctx1) st)) ∧
  body (fst second) = body (fst first) ∧
  importeeMap (snd second) = importeeMap (snd first) ∧
  importerMap (snd second) = importerMap (snd first).
Proof.
  intros Hmax Hmiss Hsame. simpl.
  pose proof (rewriteImports_cache (readBody (body ctx1)) (Js.timestampRE_strip (url ctx1))
                resolver (query_t ctx1) st) as Hc.
  remember (script_response' resolver ctx1 st) as first eqn:Hfirst.
  unfold script_response in Hfirst. rewrite Hmiss in Hfirst.
  destruct (rewriteImports' (readBody (body ctx1)) (Js.timestampRE_strip (url ctx1))
              resolver (query_t ctx1) st) as [out st1]. subst first. simpl in *.
  split; [done|].
  unfold script_response. rewrite Hsame. simpl.
  rewrite lru_has_set by (by rewrite Hc).
  unfold serve_from_cache. simpl.
  pose proof (lru_get_set (readBody (body ctx1)) out (rewriteCache st1)) as Hget.
  destruct (LRUCache.get (readBody (body ctx1))
              (LRUCache.set (readBody (body ctx1)) out (rewriteCache st1))) as [hit c'].
  simpl in *. rewrite Hget by (by rewrite Hc). done.
Qed.

Lemma lru_remove_length key l :
  length (LRUCache.remove key l) <= length l.
Proof.
  unfold LRUCache.remove. induction l as [|e l IH]; simpl; [done|].
  destruct (negb (LRUCache.key_is key e)); simpl; lia.
Qed.

Lemma lru_remove_length_found key l e :
  List.find (LRUCache.key_is key) l = Some e ->
  S (length (LRUCache.remove key l)) <= length l.
Proof.
  unfold LRUCache.remove. induction l as [|x l IH]; simpl; [done|].
  destruct (LRUCache.key_is key x) eqn:Hx; simpl.
  - intros _. pose proof (lru_remove_length key l). unfold LRUCache.remove in *. lia.
  - intros H. apply IH in H. lia.
Qed.

Lemma lru_remove_keys key l k :
  k ∈ List.map fst (LRUCache.remove key l) -> k ≠ key ∧ k ∈ List.map fst l.
Proof.
  unfold LRUCache.remove. induction l as [|[k' v] l IH]; simpl.
  - intros H. by apply elem_of_nil in H.
  - unfold LRUCache.key_is at 1. simpl.
    destruct (String.eqb_spec key k') as [->|Hne]; simpl.
    + intros H. apply IH in H as [H1 H2]. split; [done|]. apply elem_of_cons. by right.
    + intros H. apply elem_of_cons in H as [->|H].
      * split; [done|]. apply elem_of_cons. by left.
      * apply IH in H as [H1 H2]. split; [done|]. apply elem_of_cons. by right.
Qed.

Lemma lru_remove_NoDup key l :
  NoDup (List.map fst l) -> NoDup (List.map fst (LRUCache.remove key l)).
Proof.
  induction l as [|[k v] l IH]; simpl; [done|].
  intros H. apply NoDup_cons in H as [Hk H].
  unfold LRUCache.remove. simpl. unfold LRUCache.key_is at 1. simpl.
  destruct (String.eqb key k); simpl; [by apply IH|].
  apply NoDup_cons. split; [|by apply IH].
  intros Hin. apply lru_remove_keys in Hin as [_ Hin]. done.
Qed.

Lemma lru_front_NoDup key value l :
  NoDup (List.map fst l) ->
  NoDup (List.map fst ((key, value) :: LRUCache.remove key l)).
Proof.
  intros H. simpl. apply NoDup_cons. split; [|by apply lru_remove_NoDup].
  intros Hin. apply lru_remove_keys in Hin as [Hne _]. done.
Qed.

Lemma cache_ok_set key value c :
  cache_ok c -> cache_ok (LRUCache.set key value c).
Proof.
  intros [Hlen Hnd]. unfold cache_ok, LRUCache.set. simpl LRUCache.entries.
  simpl LRUCache.max. split.
  - rewrite length_firstn. lia.
  - rewrite <- firstn_map.
    eapply sublist_NoDup; [|apply sublist_take].
    apply (lru_front_NoDup key value _ Hnd).
Qed.

Lemma cache_ok_get key c :
  cache_ok c -> cache_ok (snd (LRUCache.get key c)).
Proof.
  intros [Hlen Hnd]. unfold LRUCache.get, LRUCache.peek.
  destruct (List.find (LRUCache.key_is key) (LRUCache.entries c)) as [e|] eqn:Hf;
    simpl; [|done].
  split.
  - simpl. apply lru_remove_length_found in Hf. lia.
  - by apply lru_front_NoDup.
Qed.

Lemma cache_ok_del key c :
  cache_ok c -> cache_ok (LRUCache.del key c).
Proof.
  intros [Hlen Hnd]. unfold cache_ok, LRUCache.del. simpl. split.
  - pose proof (lru_remove_length key (LRUCache.entries c)). lia.
  - by apply lru_remove_NoDup.
Qed.

Lemma replace_scripts_cache resolver pieces flag st :
  rewriteCache (snd (replace_scripts' resolver pieces flag st)) = rewriteCache st.
Proof.
  rewrite replace_scripts_state. generalize (scripts_of pieces). intros scripts.
  revert st. induction scripts as [|script scripts IH]; intros st; simpl; [done|].
  rewrite IH. apply rewriteImports_cache.
Qed.

Local Abbreviation middleware' :=
  (middleware parseImports rewriteFileWithHMR hmrClientPublicPath
     path_dirname path_resolve slash).
Local Abbreviation run_events' :=
  (run_events parseImports rewriteFileWithHMR hmrClientPublicPath
     path_dirname path_resolve slash).

Lemma serve_from_cache_ok key ctx st :
  cache_ok (rewriteCache st) ->
  cache_ok (rewriteCache (snd (serve_from_cache key ctx st))) ∧
  LRUCache.max (rewriteCache (snd (serve_from_cache key ctx st))) =
  LRUCache.max (rewriteCache st).
Proof.
  intros Hok. unfold serve_from_cache.
  pose proof (cache_ok_get key _ Hok) as Hget.
  assert (Hmax : LRUCache.max (snd (LRUCache.get key (rewriteCache st))) =
                 LRUCache.max (rewriteCache st)).
  { unfold LRUCache.get. by destruct (LRUCache.peek key (rewriteCache st)). }
  destruct (LRUCache.get key (rewriteCache st)) as [hit c']. simpl in *. done.
Qed.

Lemma html_entry_cache_ok resolver ctx st :
  cache_ok (rewriteCache st) ->
  cache_ok (rewriteCache (snd (html_entry' resolver ctx st))) ∧
  LRUCache.max (rewriteCache (snd (html_entry' resolver ctx st))) =
  LRUCache.max (rewriteCache st).
Proof.
  intros Hok. unfold html_entry.
  destruct (LRUCache.has _ _).
  { apply (serve_from_cache_ok _ ctx (emit _ st)). exact Hok. }
  destruct (body_truthy (body ctx)); [|done].
  pose proof (replace_scripts_cache resolver
                (scan_scripts 0 (readBody (body ctx))) false st) as Hc.
  destruct (replace_scripts' resolver (scan_scripts 0 (readBody (body ctx))) false st)
    as [out st1]. simpl in *. rewrite Hc. split; [|done]. by apply cache_ok_set.
Qed.

Lemma script_response_cache_ok resolver ctx st :
  cache_ok (rewriteCache st) ->
  cache_ok (rewriteCache (snd (script_response' resolver ctx st))) ∧
  LRUCache.max (rewriteCache (snd (script_response' resolver ctx st))) =
  LRUCache.max (rewriteCache st).
Proof.
  intros Hok. unfold script_response.
  destruct (LRUCache.has _ _).
  { apply (serve_from_cache_ok _ ctx (emit _ st)). exact Hok. }
  pose proof (rewriteImports_cache (readBody (body ctx)) (Js.timestampRE_strip (url ctx))
                resolver (query_t ctx) st) as Hc.
  destruct (rewriteImports' (readBody (body ctx)) (Js.timestampRE_strip (url ctx))
              resolver (query_t ctx) st) as [out st1]. simpl in *.
  rewrite Hc. split; [|done]. by apply cache_ok_set.
Qed.

Lemma middleware_cache_ok resolver ctx st :
  cache_ok (rewriteCache st) ->
  cache_ok (rewriteCache (snd (middleware' resolver ctx st))) ∧
  LRUCache.max (rewriteCache (snd (middleware' resolver ctx st))) =
  LRUCache.max (rewriteCache st).
Proof.
  intros Hok. unfold middleware.
  destruct (Nat.eqb (status ctx) 304); [done|].
  assert (H1 : ∃ ctx1 st1,
    (if String.eqb (path ctx) "/index.html" then html_entry' resolver ctx st
     else (ctx, st)) = (ctx1, st1) ∧
    cache_ok (rewriteCache st1) ∧
    LRUCache.max (rewriteCache st1) = LRUCache.max (rewriteCache st)).
  { destruct (String.eqb (path ctx) "/index.html").
    - pose proof (html_entry_cache_ok resolver ctx st Hok) as [G1 G2].
      destruct (html_entry' resolver ctx st) as [ctx1 st1]. eauto.
    - eauto. }
  destruct H1 as (ctx1 & st1 & -> & Hok1 & Hmax1).
  destruct (_ && _).
  - destruct (script_response_cache_ok resolver ctx1 st1 Hok1) as [G1 G2].
    rewrite G2, Hmax1. done.
  - simpl. done.
Qed.

(** X7: whatever responses and file changes the plugin has handled
    since it was set up, the rewrite cache holds at most 1024 entries
    and at most one entry for a raw body. *)
Theorem cache_bounded resolver events :
  let cache := rewriteCache (run_events' resolver events initial) in
  LRUCache.max cache = 1024 ∧
  length (LRUCache.entries cache) <= 1024 ∧
  NoDup (List.map fst (LRUCache.entries cache)).
Proof.
  simpl.
  assert (H : ∀ st, cache_ok (rewriteCache st) -> LRUCache.max (rewriteCache st) = 1024 ->
              cache_ok (rewriteCache (run_events' resolver events st)) ∧
              LRUCache.max (rewriteCache (run_events' resolver events st)) = 1024).
  { induction events as [|ev events IH]; intros st Hok Hmax; [done|].
    simpl. apply IH.
    - destruct ev as [ctx|file]; simpl.
      + by apply middleware_cache_ok.
      + by apply cache_ok_del.
    - destruct ev as [ctx|file]; simpl; [|done].
      destruct (middleware_cache_ok resolver ctx st Hok) as [_ ->]. done. }
  destruct (H initial) as [[H1 H2] H3].
  - split; simpl; [lia|constructor].
  - done.
  - rewrite H3 in H1. done.
Qed.

(** *** Further properties of the HTML entry *)

Lemma string_length_app x y :
  String.length (x +:+ y) = String.length x + String.length y.
Proof. induction x as [|c x IH]; [done|]. rewrite append_cons. simpl. by rewrite IH. Qed.

Lemma drop_app x y : Js.drop (String.length x) (x +:+ y) = y.
Proof. induction x as [|c x IH]; [by destruct y|]. by rewrite append_cons. Qed.

Lemma prefix_drop p s :
  String.prefix p s = true -> s = p +:+ Js.drop (String.length p) s.
Proof.
  revert s. induction p as [|c p IH]; intros s H; [by destruct s|].
  destruct s as [|d s]; [done|]. simpl in H.
  destruct (ascii_dec c d) as [->|]; [|done].
  rewrite append_cons. simpl. f_equal. by apply IH.
Qed.

Lemma find_sub_split needle s before after :
  Js.find_sub needle s = Some (before, after) -> s = before +:+ needle +:+ after.
Proof.
  revert before after. induction s as [|c s IH]; intros before after.
  - change (Js.find_sub needle EmptyString) with
      (if String.prefix needle EmptyString
       then Some (EmptyString, Js.drop (String.length needle) EmptyString) else None).
    destruct (String.prefix needle EmptyString) eqn:Hp; [|done].
    intros [= <- <-]. by apply prefix_drop.
  - change (Js.find_sub needle (String c s)) with
      (if String.prefix needle (String c s)
       then Some (EmptyString, Js.drop (String.length needle) (String c s))
       else match Js.find_sub needle s with
            | Some (b, a) => Some (String c b, a)
            | None => None
            end).
    destruct (String.prefix needle (String c s)) eqn:Hp.
    + intros [= <- <-]. by apply prefix_drop.
    + destruct (Js.find_sub needle s) as [[b a]|]; [|done].
      intros [= <- <-]. rewrite append_cons. f_equal. by apply IH.
Qed.

Lemma upto_gt_split s tag rest :
  Js.upto_gt s = Some (tag, rest) -> s = tag +:+ rest.
Proof.
  revert tag rest. induction s as [|c s IH]; intros tag rest; simpl; [done|].
  destruct (Ascii.eqb c ">").
  - by intros [= <- <-].
  - destruct (Js.upto_gt s) as [[t r]|]; [|done].
    intros [= <- <-]. rewrite append_cons. f_equal. by apply IH.
Qed.

(** a match of the script pattern is the open tag, the script and the
    closing tag, and spans [len] characters *)
Lemma scriptRE_match_at_split s openTag script len :
  Js.scriptRE_match_at s = Some (openTag, script, len) ->
  s = openTag +:+ script +:+ "</script>" +:+ Js.drop len s ∧ 1 <= len.
Proof.
  unfold Js.scriptRE_match_at.
  destruct (String.prefix "<script" s) eqn:Hp; [|done].
  apply prefix_drop in Hp. change (String.length "<script") with 7 in Hp.
  destruct (Js.drop 7 s) as [|c r] eqn:Hr; [done|].
  destruct (Js.is_word_char c); [done|].
  destruct (Js.upto_gt (String c r)) as [[attrs body]|] eqn:Hgt; [|done].
  destruct (Js.find_sub "</script>" body) as [[sc after]|] eqn:Hf; [|done].
  intros [= <- <- <-]. split; [|lia].
  apply upto_gt_split in Hgt. apply find_sub_split in Hf.
  assert (Hs : s = ("<script" +:+ attrs) +:+ sc +:+ "</script>" +:+ after).
  { rewrite Hp at 1. rewrite Hgt, Hf. by rewrite !append_assoc. }
  assert (Hd : Js.drop (7 + String.length attrs + String.length sc + 9) s = after).
  { rewrite Hs.
    replace (7 + String.length attrs + String.length sc + 9)
      with (String.length ((("<script" +:+ attrs) +:+ sc) +:+ "</script>"))
      by (rewrite !string_length_app; simpl; lia).
    rewrite <- (append_assoc sc "</script>" after).
    rewrite <- (append_assoc ("<script" +:+ attrs) (sc +:+ "</script>") after).
    rewrite <- (append_assoc ("<script" +:+ attrs) sc "</script>").
    apply drop_app. }
  change (S (S (S (S (S (S (S (String.length attrs + String.length sc + 9))))))))
    with (7 + String.length attrs + String.length sc + 9).
  rewrite Hd. exact Hs.
Qed.

Lemma scan_scripts_skip html : ∀ skip,
  unscan (scan_scripts skip html) = Js.drop skip html.
Proof.
  induction html as [|c html IH]; intros skip; [by destruct skip|].
  destruct skip as [|k]; [|apply IH]. simpl scan_scripts.
  destruct (Js.scriptRE_match_at (String c html)) as [[[openTag script] len]|] eqn:Hm.
  - apply scriptRE_match_at_split in Hm as [Hs Hlen]. simpl unscan.
    rewrite IH. destruct len as [|n]; [lia|]. simpl in Hs |- *.
    rewrite Nat.sub_0_r. by rewrite <- Hs.
  - simpl. by rewrite IH.
Qed.

(** X8: the scan of a page loses nothing: the characters outside the
    matched script blocks, and the open tag, the script and the closing
    tag of each block, put together in order, are the page. *)
Theorem scan_scripts_round_trip html : unscan (scan_scripts 0 html) = html.
Proof. apply scan_scripts_skip. Qed.

Lemma replace_scripts_no_script resolver pieces flag st :
  scripts_of pieces = [] ->
  replace_scripts' resolver pieces flag st = (unscan pieces, st).
Proof.
  induction pieces as [|[c|openTag script] pieces IH]; simpl; [done| |done].
  intros H. by rewrite IH.
Qed.

(** X9: a page without any inline script block is served as it is,
    without the snippet, and the graph is not touched. *)
Theorem html_entry_no_script resolver ctx st :
  LRUCache.has (readBody (body ctx)) (rewriteCache st) = false ->
  scripts_of (scan_scripts 0 (readBody (body ctx))) = [] ->
  let served := html_entry' resolver ctx st in
  readBody (body (fst served)) = readBody (body ctx) ∧
  importeeMap (snd served) = importeeMap st ∧
  importerMap (snd served) = importerMap st.
Proof.
  intros Hmiss Hnone. simpl. unfold html_entry. rewrite Hmiss.
  destruct (body_truthy (body ctx)); [|done].
  rewrite replace_scripts_no_script by done. simpl.
  by rewrite (scan_scripts_skip _ 0).
Qed.

Lemma assemble_no_imports resolver pieces :
  Forall (fun script => parseImports script = inr []) (scripts_of pieces) ->
  ∀ st, fst (assemble' resolver pieces st) = unscan pieces ∧
        importeeMap (snd (assemble' resolver pieces st)) = importeeMap st ∧
        importerMap (snd (assemble' resolver pieces st)) = importerMap st.
Proof.
  induction pieces as [|[c|openTag script] pieces IH]; simpl; intros Hall st; [done|..].
  - destruct (IH Hall st) as (H1 & H2 & H3).
    destruct (assemble' resolver pieces st) as [out st']. simpl in *. by rewrite H1.
  - apply Forall_cons in Hall as [Hscript Hall].
    destruct (rewriteImports_graph_unchanged script "/index.html" resolver None st)
      as (G1 & G2 & _); [by right|].
    assert (Hout : fst (rewriteImports' script "/index.html" resolver None st) = script).
    { unfold rewriteImports, rewrite_body, bind, lift. by rewrite Hscript. }
    destruct (rewriteImports' script "/index.html" resolver None st) as [r st1].
    simpl in *. subst r.
    destruct (IH Hall st1) as (H1 & H2 & H3).
    destruct (assemble' resolver pieces st1) as [out st2]. simpl in *.
    rewrite H1, H2, H3. done.
Qed.

Lemma unscan_texts pre l :
  unscan ((Text <$> pre) ++ l) = string_of_list_ascii pre +:+ unscan l.
Proof.
  induction pre as [|c pre IH]; [done|].
  rewrite fmap_cons. simpl. by rewrite IH.
Qed.

Lemma scripts_of_texts pre l : scripts_of ((Text <$> pre) ++ l) = scripts_of l.
Proof. induction pre as [|c pre IH]; [done|]. rewrite fmap_cons. simpl. exact IH. Qed.

(** X10: when the inline scripts of a page have no imports, the page is
    served with the snippet put in front of the first open tag and
    nothing else changed; the graph is not touched. *)
Theorem html_entry_no_imports resolver ctx st pre openTag script rest :
  LRUCache.has (readBody (body ctx)) (rewriteCache st) = false ->
  scan_scripts 0 (readBody (body ctx)) = (Text <$> pre) ++ Script openTag script :: rest ->
  Forall (fun script => parseImports script = inr [])
    (scripts_of (scan_scripts 0 (readBody (body ctx)))) ->
  let served := html_entry' resolver ctx st in
  ∃ tail,
    readBody (body ctx) = string_of_list_ascii pre +:+ openTag +:+ tail ∧
    body (fst served) =
      BodyString (string_of_list_ascii pre +:+ devInjectionCode +:+ openTag +:+ tail) ∧
    importeeMap (snd served) = importeeMap st ∧
    importerMap (snd served) = importerMap st.
Proof.
  intros Hmiss Hscan Hall. simpl.
  assert (Htruthy : body_truthy (body ctx) = true).
  { destruct (body ctx) as [text|chunks]; [|done]. simpl in *.
    destruct text; [by destruct pre|done]. }
  pose proof (scan_scripts_skip (readBody (body ctx)) 0) as Hrt.
  change (Js.drop 0 ?x) with x in Hrt.
  rewrite Hscan in Hrt, Hall.
  rewrite unscan_texts in Hrt. rewrite scripts_of_texts in Hall. simpl in Hrt, Hall.
  exists (script +:+ "</script>" +:+ unscan rest). split; [done|].
  unfold html_entry. rewrite Hmiss, Htruthy, Hscan, replace_scripts_first.
  apply Forall_cons in Hall as [Hscript Hall].
  destruct (rewriteImports_graph_unchanged script "/index.html" resolver None st)
    as (G1 & G2 & _); [by right|].
  assert (Hout : fst (rewriteImports' script "/index.html" resolver None st) = script).
  { unfold rewriteImports, rewrite_body, bind, lift. by rewrite Hscript. }
  destruct (rewriteImports' script "/index.html" resolver None st) as [r st1].
  simpl in *. subst r.
  destruct (assemble_no_imports resolver rest Hall st1) as (H1 & H2 & H3).
  destruct (assemble' resolver rest st1) as [out st2]. simpl in *.
  rewrite H1, H2, H3. done.
Qed.

(** *** The importer key *)

Lemma match_timestamp {A} (s : string) (found : ascii -> string -> A) (other : A) :
  match s with
  | String "t" (String "=" (String d r)) => found d r
  | _ => other
  end =
  match s with
  | String a (String b (String d r)) =>
      if Ascii.eqb a "t" && Ascii.eqb b "=" then found d r else other
  | _ => other
  end.
Proof.
  destruct s as [|a [|b [|d r]]].
  - reflexivity.
  - destruct a as [[] [] [] [] [] [] [] []]; reflexivity.
  - destruct a as [[] [] [] [] [] [] [] []]; try reflexivity.
    destruct b as [[] [] [] [] [] [] [] []]; reflexivity.
  - destruct a as [[] [] [] [] [] [] [] []]; try reflexivity.
    destruct b as [[] [] [] [] [] [] [] []]; reflexivity.
Qed.

Lemma timestampRE_strip_cons c s :
  Js.timestampRE_strip (String c s) =
  if (Ascii.eqb c "&" || Ascii.eqb c "?") && timestamp_here s
  then Js.drop_digits (Js.drop 3 s)
  else String c (Js.timestampRE_strip s).
Proof.
  cbn [Js.timestampRE_strip].
  destruct (Ascii.eqb c "&" || Ascii.eqb c "?"); [|reflexivity].
  rewrite (match_timestamp s
             (fun d r => if Js.is_digit d then Js.drop_digits r
                         else String c (Js.timestampRE_strip s))
             (String c (Js.timestampRE_strip s))).
  destruct s as [|a [|b [|d r]]]; try reflexivity.
  unfold timestamp_here. cbn [andb Js.drop].
  destruct (Ascii.eqb a "t" && Ascii.eqb b "="); [|reflexivity].
  cbn [andb]. destruct (Js.is_digit d); reflexivity.
Qed.

Lemma drop_digits_length s : String.length (Js.drop_digits s) <= String.length s.
Proof. induction s as [|c s IH]; simpl; [done|]. destruct (Js.is_digit c); simpl; lia. Qed.

Lemma drop_digits_app digits rest :
  Js.all_chars Js.is_digit digits = true ->
  Js.drop_digits rest = rest ->
  Js.drop_digits (digits +:+ rest) = rest.
Proof.
  intros Hd Hr. induction digits as [|c ds IH]; [done|].
  simpl in Hd. apply andb_true_iff in Hd as [Hc Hds].
  change (String c ds +:+ rest) with (String c (ds +:+ rest)). simpl. rewrite Hc. by apply IH.
Qed.

Lemma timestamp_here_app s x c :
  Js.is_digit c = false -> c ≠ "t"%char -> c ≠ "="%char ->
  timestamp_here (s +:+ String c x) = timestamp_here s.
Proof.
  intros Hc Ht He.
  destruct s as [|a [|b [|d r]]]; simpl.
  - destruct x as [|? [|? ?]]; simpl; try done;
      destruct (Ascii.eqb_spec c "t"); done.
  - destruct x as [|? ?]; simpl; try (destruct (Ascii.eqb a "t"); simpl; try done);
      destruct (Ascii.eqb_spec c "="); done.
  - rewrite Hc. by rewrite andb_false_r.
  - done.
Qed.

(** X11: the importer key of a script response is its URL without the
    first timestamp parameter.  For a URL made of a part [base] in
    which the pattern does not match, then [?] or [&], [t=], digits,
    and a rest that does not start with a digit, the key is [base]
    followed by the rest: the separator goes with the parameter, also
    when other parameters follow. *)
Theorem timestampRE_strip_app base sep digits rest :
  Js.timestampRE_strip base = base ->
  sep = "?"%char ∨ sep = "&"%char ->
  digits ≠ EmptyString -> Js.all_chars Js.is_digit digits = true ->
  Js.drop_digits rest = rest ->
  Js.timestampRE_strip (base +:+ String sep ("t=" +:+ digits +:+ rest)) = base +:+ rest.
Proof.
  intros Hbase Hsep Hne Hd Hr.
  assert (Hsepc : Ascii.eqb sep "&" || Ascii.eqb sep "?" = true)
    by (destruct Hsep as [-> | ->]; reflexivity).
  induction base as [|c b IH].
  - change (EmptyString +:+ ?x) with x. rewrite timestampRE_strip_cons, Hsepc.
    destruct digits as [|d ds]; [done|]. simpl in Hd.
    apply andb_true_iff in Hd as [Hd1 Hd2]. simpl. rewrite Hd1. simpl.
    by apply drop_digits_app.
  - change (String c b +:+ ?x) with (String c (b +:+ x)).
    rewrite timestampRE_strip_cons in Hbase |- *.
    rewrite timestamp_here_app by (destruct Hsep as [-> | ->]; done).
    destruct ((Ascii.eqb c "&" || Ascii.eqb c "?") && timestamp_here b).
    + exfalso. pose proof (drop_digits_length (Js.drop 3 b)) as Hl.
      rewrite Hbase in Hl.
      change (String.length (String c b)) with (S (String.length b)) in Hl.
      assert (String.length (Js.drop 3 b) <= String.length b).
      { clear. destruct b as [|? [|? [|? ?]]]; simpl; lia. }
      lia.
    + injection Hbase as Hb. f_equal. by apply IH.
Qed.

(** *** Rewriting a rewritten specifier *)

Lemma all_chars_app p x y :
  Js.all_chars p (x +:+ y) = Js.all_chars p x && Js.all_chars p y.
Proof.
  induction x as [|c x IH]; [done|]. rewrite append_cons. simpl.
  by rewrite IH, andb_assoc.
Qed.

Lemma queryRE_match_strip id : Js.queryRE_match (Js.queryRE_strip id) = None.
Proof.
  induction id as [|c s IH]; [done|]. simpl.
  destruct (Ascii.eqb c "?" && Js.all_chars _ s) eqn:Hc; [done|]. simpl.
  destruct (Ascii.eqb c "?") eqn:Hq; simpl in *; [|exact IH].
  assert (Hs : Js.all_chars (fun d => negb (Js.is_line_terminator d)) (Js.queryRE_strip s)
               = false); [|by rewrite Hs].
  clear IH. induction s as [|d s IHs]; [done|]. simpl in Hc |- *.
  destruct (Ascii.eqb d "?" && Js.all_chars _ s) eqn:Hd.
  - apply andb_true_iff in Hd as [Hd1 Hd]. apply Ascii.eqb_eq in Hd1 as ->.
    rewrite Hd in Hc. done.
  - simpl. destruct (negb (Js.is_line_terminator d)); simpl in *; [by apply IHs|done].
Qed.

Lemma queryRE_app p q :
  Js.queryRE_match p = None ->
  q = EmptyString ∨ (∃ q', q = String "?" q' ∧ no_lt q' = true) ->
  Js.queryRE_strip (p +:+ q) = p ∧
  Js.queryRE_match (p +:+ q) = if String.eqb q EmptyString then None else Some q.
Proof.
  intros Hp Hq. induction p as [|c p IH].
  - change (EmptyString +:+ q) with q. destruct Hq as [->|(q' & -> & Hq')]; [done|].
    unfold no_lt in Hq'. simpl. by rewrite Hq'.
  - rewrite append_cons. simpl in Hp |- *.
    destruct (Ascii.eqb c "?" && Js.all_chars _ p) eqn:Hc; [done|].
    destruct (IH Hp) as [IH1 IH2].
    assert (Hc' : Ascii.eqb c "?" &&
                  Js.all_chars (fun d => negb (Js.is_line_terminator d)) (p +:+ q) = false).
    { rewrite all_chars_app. destruct (Ascii.eqb c "?"); simpl in *; [|done].
      by rewrite Hc. }
    rewrite Hc'. by rewrite IH1, IH2.
Qed.

Lemma queryRE_match_app_plain p x :
  Js.queryRE_match p = None ->
  Js.all_chars (fun c => negb (Ascii.eqb c "?")) x = true ->
  Js.queryRE_match (p +:+ x) = None.
Proof.
  intros Hp Hnq. induction p as [|c p IH].
  - change (EmptyString +:+ x) with x. clear Hp.
    induction x as [|d x IHx]; [done|]. simpl in Hnq |- *.
    apply andb_true_iff in Hnq as [Hd Hx]. apply negb_true_iff in Hd.
    rewrite Hd. simpl. by apply IHx.
  - rewrite append_cons. simpl in Hp |- *.
    destruct (Ascii.eqb c "?" && Js.all_chars _ p) eqn:Hc; [done|].
    rewrite all_chars_app.
    destruct (Ascii.eqb c "?"); simpl in *; [|by apply IH].
    rewrite Hc. simpl. by apply IH.
Qed.

Lemma extRE_test_js p : Js.extRE_test (p +:+ ".js") = true.
Proof.
  induction p as [|c p IH]; [done|]. rewrite append_cons.
  change (Js.extRE_test (String c (p +:+ ".js"))) with
    ((Ascii.eqb c "." && match p +:+ ".js" with
                         | String d _ => Js.is_word_char d
                         | EmptyString => false
                         end) || Js.extRE_test (p +:+ ".js")).
  rewrite IH. apply orb_true_r.
Qed.

Lemma queryRE_match_no_lt id m :
  Js.queryRE_match id = Some m -> ∃ q, m = String "?" q ∧ no_lt q = true.
Proof.
  induction id as [|c s IH]; [done|]. simpl.
  destruct (Ascii.eqb_spec c "?") as [->|]; simpl; [|exact IH].
  destruct (Js.all_chars _ s) eqn:Hs; [|exact IH]. intros [= <-]. eauto.
Qed.

Lemma resolve_path_eq id timestamp :
  resolve_path id timestamp =
  with_ext (Js.queryRE_strip id) +:+
  with_token (default EmptyString (Js.queryRE_match id)) timestamp.
Proof.
  unfold resolve_path, with_ext, with_token.
  destruct (Js.queryRE_match id) as [m|]; simpl;
    destruct (Js.extRE_test _), (truthy timestamp); simpl; try done;
    destruct (String.eqb m EmptyString); done.
Qed.

Lemma with_ext_props id :
  Js.queryRE_match (with_ext (Js.queryRE_strip id)) = None ∧
  Js.extRE_test (with_ext (Js.queryRE_strip id)) = true.
Proof.
  unfold with_ext. destruct (Js.extRE_test (Js.queryRE_strip id)) eqn:He.
  - split; [apply queryRE_match_strip|done].
  - split; [|apply extRE_test_js].
    apply queryRE_match_app_plain; [apply queryRE_match_strip|done].
Qed.

Lemma with_token_shape id timestamp :
  no_lt (default EmptyString timestamp) = true ->
  let q := with_token (default EmptyString (Js.queryRE_match id)) timestamp in
  (q = EmptyString ∨ ∃ q', q = String "?" q' ∧ no_lt q' = true) ∧
  (truthy timestamp = true -> String.eqb q EmptyString = false).
Proof.
  intros Htok. unfold with_token.
  destruct (Js.queryRE_match id) as [m|] eqn:Hmatch; simpl.
  - apply queryRE_match_no_lt in Hmatch as (q0 & -> & Hq0).
    destruct (truthy timestamp); simpl; (split; [|done]); right.
    + eexists. split; [reflexivity|]. unfold no_lt in *.
      rewrite all_chars_app. rewrite Hq0. simpl. exact Htok.
    + eauto.
  - destruct (truthy timestamp); simpl; (split; [|done]); [right|by left].
    eexists. split; [reflexivity|]. unfold no_lt in *. simpl. exact Htok.
Qed.

(** a rewritten specifier is cut again into its path and its query, and
    its path has an extension *)
Lemma resolve_path_again id timestamp timestamp' :
  no_lt (default EmptyString timestamp) = true ->
  resolve_path (resolve_path id timestamp) timestamp' =
  with_ext (Js.queryRE_strip id) +:+
  with_token (with_token (default EmptyString (Js.queryRE_match id)) timestamp) timestamp'.
Proof.
  intros Htok. rewrite (resolve_path_eq id timestamp).
  destruct (with_ext_props id) as [Hm He].
  destruct (with_token_shape id timestamp Htok) as [Hq _].
  destruct (queryRE_app _ _ Hm Hq) as [H1 H2].
  rewrite resolve_path_eq, H1, H2. unfold with_ext at 1. rewrite He.
  f_equal. by destruct (String.eqb_spec (with_token (default EmptyString
    (Js.queryRE_match id)) timestamp) EmptyString) as [->|].
Qed.

(** X12: a specifier rewritten once is stable.  Rewritten again without
    a token it stays as it is; rewritten first without and then with a
    token it is what one rewriting with the token gives; rewritten
    twice with a token it carries the token twice.  (The tokens have no
    line terminator.) *)
Theorem resolve_path_stable id timestamp token :
  no_lt (default EmptyString timestamp) = true ->
  no_lt token = true -> token ≠ EmptyString ->
  resolve_path (resolve_path id timestamp) None = resolve_path id timestamp ∧
  resolve_path (resolve_path id None) timestamp = resolve_path id timestamp ∧
  resolve_path (resolve_path id (Some token)) (Some token) =
    resolve_path id (Some token) +:+ "&t=" +:+ token.
Proof.
  intros Htok Htoken Hne. split; [|split].
  - rewrite resolve_path_again by done. by rewrite resolve_path_eq.
  - rewrite resolve_path_again by done. by rewrite resolve_path_eq.
  - rewrite resolve_path_again by done. rewrite resolve_path_eq.
    destruct (with_token_shape id (Some token) Htoken) as [_ Hq].
    assert (Ht : truthy (Some token) = true).
    { simpl. by destruct (String.eqb_spec token EmptyString). }
    specialize (Hq Ht). simpl in Hq.
    unfold with_token at 1. rewrite Ht, Hq. simpl. by rewrite !append_assoc.
Qed.

(** *** Entries of the graph are never pruned *)

Lemma keeps_keys_refl st : keeps_keys st st.
Proof. by split. Qed.

Lemma keeps_keys_trans st1 st2 st3 :
  keeps_keys st1 st2 -> keeps_keys st2 st3 -> keeps_keys st1 st3.
Proof. intros [H1 H2] [H3 H4]. split; set_solver. Qed.

Lemma keeps_keys_bind {A B} (m : M A) (k : A -> M B) :
  (∀ st, keeps_keys st (fst (m st))) ->
  (∀ a st, keeps_keys st (fst (k a st))) ->
  ∀ st, keeps_keys st (fst (bind m k st)).
Proof.
  intros Hm Hk st. unfold bind. specialize (Hm st).
  destruct (m st) as [st' [err|a]]; simpl in *; [done|].
  eapply keeps_keys_trans; [exact Hm|apply Hk].
Qed.

Lemma keeps_keys_modify (f : State -> State) :
  (∀ st, keeps_keys st (f st)) -> ∀ st, keeps_keys st (fst (modify f st)).
Proof. intros Hf st. apply Hf. Qed.

Lemma keeps_keys_pure {A} (m : M A) :
  (∀ st, fst (m st) = st) -> ∀ st, keeps_keys st (fst (m st)).
Proof. intros Hm st. rewrite Hm. apply keeps_keys_refl. Qed.

Lemma keeps_keys_add_importee importer current st :
  keeps_keys st (set_importeeMap (<[importer := current]> (importeeMap st)) st).
Proof. split; simpl; [|done]. rewrite dom_insert_L. set_solver. Qed.

Lemma keeps_keys_add_importer importer importee st :
  keeps_keys st
    (set_importerMap
       (let (map, entry) := ensureMapEntry (importerMap st) importee in
        <[importee := entry ∪ {[ importer ]}]> map) st).
Proof.
  split; simpl; [done|]. unfold ensureMapEntry.
  destruct (importerMap st !! importee); rewrite !dom_insert_L; set_solver.
Qed.

Lemma keeps_keys_emit ev st : keeps_keys st (emit ev st).
Proof. by split. Qed.

Ltac keeps_keys_tac :=
  repeat first
    [ apply keeps_keys_bind; [|intros ?]
    | apply keeps_keys_modify; intros ?;
      first [ apply keeps_keys_add_importee | apply keeps_keys_add_importer
            | apply keeps_keys_emit ]
    | apply keeps_keys_pure; intros ?; reflexivity
    | match goal with
      | |- ∀ st, keeps_keys st (fst ((if ?b then _ else _) st)) => destruct b
      end ].

Lemma rewrite_import_keeps_keys source importer resolver timestamp imp l :
  ∀ st, keeps_keys st (fst (rewrite_import' source importer resolver timestamp imp l st)).
Proof. unfold rewrite_import, debug, debugHmr. keeps_keys_tac. Qed.

Lemma forEach_keeps_keys {A L} (f : A -> L -> M L) xs :
  (∀ x l st, keeps_keys st (fst (f x l st))) ->
  ∀ l st, keeps_keys st (fst (forEach f xs l st)).
Proof.
  intros Hf. induction xs as [|x xs IH]; intros l; simpl.
  - intros st. apply keeps_keys_refl.
  - apply keeps_keys_bind; [apply Hf|]. intros a. apply IH.
Qed.

Lemma remove_stale_keeps_keys importer current prev :
  ∀ st, keeps_keys st (List.fold_left (remove_stale importer current) prev st).
Proof.
  induction prev as [|x prev IH]; intros st; simpl; [apply keeps_keys_refl|].
  eapply keeps_keys_trans; [|apply IH].
  unfold remove_stale. case_decide; [apply keeps_keys_refl|].
  destruct (importerMap st !! x); [|apply keeps_keys_refl].
  split; simpl; [done|]. rewrite dom_insert_L. set_solver.
Qed.

Lemma rewrite_body_keeps_keys source importer resolver timestamp :
  ∀ st, keeps_keys st (fst (rewrite_body' source importer resolver timestamp st)).
Proof.
  unfold rewrite_body, debug.
  apply keeps_keys_bind; [apply keeps_keys_pure; intros ?; reflexivity|]. intros imports.
  destruct (negb (Nat.eqb (length imports) 0)); [|keeps_keys_tac].
  apply keeps_keys_bind; [keeps_keys_tac|]. intros _.
  apply keeps_keys_bind; [apply keeps_keys_pure; intros ?; reflexivity|]. intros prev.
  apply keeps_keys_bind; [keeps_keys_tac|]. intros _.
  apply keeps_keys_bind.
  { apply forEach_keeps_keys. intros. apply rewrite_import_keeps_keys. }
  intros l. apply keeps_keys_bind.
  { destruct prev as [prev|].
    - apply keeps_keys_modify. intros st. apply remove_stale_keeps_keys.
    - apply keeps_keys_pure. intros ?; reflexivity. }
  intros _. keeps_keys_tac.
Qed.

Lemma rewriteImports_keeps_keys source importer resolver timestamp st :
  keeps_keys st (snd (rewriteImports' source importer resolver timestamp st)).
Proof.
  rewrite rewriteImports_eq.
  pose proof (rewrite_body_keeps_keys source importer resolver timestamp st) as H.
  destruct (rewrite_body' source importer resolver timestamp st) as [st' [err|out]];
    exact H.
Qed.

Lemma replace_scripts_keeps_keys resolver pieces flag st :
  keeps_keys st (snd (replace_scripts' resolver pieces flag st)).
Proof.
  rewrite replace_scripts_state. generalize (scripts_of pieces). intros scripts.
  revert st. induction scripts as [|script scripts IH]; intros st; simpl.
  - apply keeps_keys_refl.
  - eapply keeps_keys_trans; [apply rewriteImports_keeps_keys|apply IH].
Qed.

Lemma serve_from_cache_keeps_keys key ctx st :
  keeps_keys st (snd (serve_from_cache key ctx st)).
Proof.
  unfold serve_from_cache. destruct (LRUCache.get key (rewriteCache st)). by split.
Qed.

Lemma middleware_keeps_keys resolver ctx st :
  keeps_keys st (snd (middleware' resolver ctx st)).
Proof.
  unfold middleware. destruct (Nat.eqb (status ctx) 304); [apply keeps_keys_refl|].
  assert (H1 : ∃ ctx1 st1,
    (if String.eqb (path ctx) "/index.html" then html_entry' resolver ctx st
     else (ctx, st)) = (ctx1, st1) ∧ keeps_keys st st1).
  { destruct (String.eqb (path ctx) "/index.html"); [|by eauto using keeps_keys_refl].
    unfold html_entry. destruct (LRUCache.has _ _).
    - pose proof (serve_from_cache_keeps_keys (readBody (body ctx)) ctx
                    (emit (Debug "/index.html: serving from cache") st)) as H.
      destruct (serve_from_cache _ ctx _) as [ctx1 st1]. eauto.
    - destruct (body_truthy (body ctx)); [|by eauto using keeps_keys_refl].
      pose proof (replace_scripts_keeps_keys resolver
                    (scan_scripts 0 (readBody (body ctx))) false st) as H.
      destruct (replace_scripts' resolver _ false st) as [out st1]. eauto. }
  destruct H1 as (ctx1 & st1 & -> & Hk).
  eapply keeps_keys_trans; [exact Hk|].
  destruct (_ && _); [|by split].
  unfold script_response. destruct (LRUCache.has _ _).
  - apply (serve_from_cache_keeps_keys _ ctx1 (emit _ st1)).
  - pose proof (rewriteImports_keeps_keys (readBody (body ctx1))
                  (Js.timestampRE_strip (url ctx1)) resolver (query_t ctx1) st1) as H.
    destruct (rewriteImports' _ _ resolver _ st1) as [out st2]. exact H.
Qed.

(** X13: no response and no file change removes a key from
    [importeeMap] or from [importerMap]: a module that once had an
    entry keeps one, be it an empty set. *)
Theorem graph_keys_kept resolver events st :
  keeps_keys st (run_events' resolver events st).
Proof.
  revert st. induction events as [|ev events IH]; intros st; simpl.
  - apply keeps_keys_refl.
  - eapply keeps_keys_trans; [|apply IH].
    destruct ev as [ctx|file]; simpl; [apply middleware_keeps_keys|by split].
Qed.

(** *** An empty specifier *)

Lemma resolve_path_empty timestamp : resolve_path EmptyString timestamp ≠ EmptyString.
Proof. unfold resolve_path. simpl. by destruct (truthy timestamp). Qed.

Lemma overwrite_empty_range start new m :
  ∃ err, MagicString.overwrite start start new m = inl err.
Proof.
  unfold MagicString.overwrite. destruct (Nat.ltb _ start); [eauto|].
  rewrite Nat.eqb_refl. eauto.
Qed.

Lemma rewrite_import_empty_specifier source importer resolver timestamp imp l st :
  is_static imp = true -> ImportSpecifier.s imp = ImportSpecifier.e imp ->
  ∃ err, snd (rewrite_import' source importer resolver timestamp imp l st) = inl err.
Proof.
  unfold is_static. intros Hs He. unfold rewrite_import. rewrite Hs, <- He.
  rewrite js_substring_empty. simpl Js.bareRE_test. cbv iota.
  unfold bind, ret, debug, modify, lift. simpl.
  destruct (String.eqb_spec (resolve_path EmptyString timestamp) EmptyString) as [Heq|_].
  { by apply resolve_path_empty in Heq. }
  simpl.
  destruct (overwrite_empty_range (ImportSpecifier.s imp)
              (resolve_path EmptyString timestamp) (buf l)) as [err ->].
  simpl. eauto.
Qed.

Lemma forEach_throws {A L} (f : A -> L -> M L) x xs :
  (∀ l st, ∃ err, snd (f x l st) = inl err) -> In x xs ->
  ∀ l st, ∃ err, snd (forEach f xs l st) = inl err.
Proof.
  intros Hx. induction xs as [|y xs IH]; intros Hin l st; [done|].
  simpl. unfold bind. destruct (f y l st) as [st' [err|l']] eqn:Hy; [simpl; eauto|].
  destruct Hin as [->|Hin].
  - destruct (Hx l st) as [err Herr]. rewrite Hy in Herr. done.
  - by apply IH.
Qed.

(** X14: a static import with an empty specifier (offsets [s = e])
    stops the whole rewriting: whatever the other imports are, the pass
    throws and [rewriteImports] returns the source as it was given. *)
Theorem empty_specifier_stops_rewriting source importer resolver timestamp st imports imp :
  parseImports source = inr imports ->
  In imp imports -> is_static imp = true ->
  ImportSpecifier.s imp = ImportSpecifier.e imp ->
  fst (rewriteImports' source importer resolver timestamp st) = source ∧
  ∃ err, outcome' source importer resolver timestamp = inl err.
Proof.
  intros Hparse Hin Hs He.
  assert (Hout : ∃ err, outcome' source importer resolver timestamp = inl err).
  { unfold outcome, rewrite_body. unfold bind at 1. unfold lift at 1. rewrite Hparse.
    destruct imports as [|i0 imports0]; [done|].
    change (negb (Nat.eqb (length (i0 :: imports0)) 0)) with true. cbv iota.
    unfold debug at 1. unfold bind at 1. unfold modify at 1.
    unfold bind at 1. unfold gets at 1. unfold bind at 1. unfold modify at 1.
    unfold bind at 1.
    match goal with |- context [forEach ?f ?xs ?l0 ?s0] =>
      destruct (forEach_throws f imp xs
                  (fun l' st' => rewrite_import_empty_specifier source importer resolver
                                   timestamp imp l' st' Hs He) Hin l0 s0) as [err Herr];
      destruct (forEach f xs l0 s0) as [st1 [e1|l1]] end; simpl in Herr; [|done].
    simpl. eauto. }
  split; [|exact Hout]. destruct Hout as [err Hout].
  rewrite rewriteImports_eq.
  pose proof (outcome_any_state source importer resolver timestamp st) as Hres.
  destruct (rewrite_body' source importer resolver timestamp st) as [st1 [e1|o1]];
    simpl in *; [done|congruence].
Qed.

Local Abbreviation plain_import' := (plain_import hmrClientPublicPath).

(** a static import that is plain: the callback overwrites its range
    when the rewritten specifier differs, and goes on *)
Lemma rewrite_import_plain source importer resolver timestamp imp l st resolved m' :
  is_static imp = true ->
  resolved_of source resolver timestamp imp = inr resolved ->
  (Js.bareRE_test (specifier source imp) = true ->
   String.eqb resolved hmrClientPublicPath && negb (Js.vueRE_test importer) = false) ->
  (String.eqb resolved (specifier source imp) = false ->
   MagicString.overwrite (ImportSpecifier.s imp) (ImportSpecifier.e imp) resolved (buf l) = inr m') ->
  ∃ st' l',
    rewrite_import' source importer resolver timestamp imp l st = (st', inr l') ∧
    buf l' = (if String.eqb resolved (specifier source imp) then buf l else m') ∧
    hasReplaced l' =
      (if String.eqb resolved (specifier source imp) then hasReplaced l else true).
Proof.
  unfold is_static, resolved_of, specifier. intros Hs Hres Hhmr Hov.
  unfold rewrite_import. rewrite Hs.
  unfold bind, lift, ret, modify, debug, debugHmr.
  destruct (Js.bareRE_test _) eqn:Hbare.
  - specialize (Hhmr eq_refl). rewrite Hres. simpl. rewrite Hhmr. simpl.
    destruct (String.eqb resolved (Js.substring (ImportSpecifier.s imp)
                (ImportSpecifier.e imp) source)) eqn:Heq; simpl.
    + do 2 eexists. split; [reflexivity|split; reflexivity].
    + rewrite Hov by done. simpl.
      do 2 eexists. split; [reflexivity|split; reflexivity].
  - injection Hres as <-. simpl.
    destruct (String.eqb (resolve_path _ _) _) eqn:Heq; simpl.
    + do 2 eexists. split; [reflexivity|split; reflexivity].
    + rewrite Hov by done. simpl.
      do 2 eexists. split; [reflexivity|split; reflexivity].
Qed.

Lemma rewrite_import_other source importer resolver timestamp imp l st :
  is_static imp = false ->
  ∃ st', rewrite_import' source importer resolver timestamp imp l st = (st', inr l).
Proof.
  unfold is_static. intros Hs. unfold rewrite_import. rewrite Hs.
  destruct (Z.leb 0 (ImportSpecifier.d imp)); unfold bind, debug, modify, ret; eauto.
Qed.

Lemma forEach_splice source importer resolver timestamp imports :
  ∀ l st q done pos,
  patched_to source q done (buf l) -> q <= pos -> pos <= String.length source ->
  in_order (String.length source) pos imports ->
  Forall (plain_import' source importer resolver timestamp) imports ->
  ∃ st' l',
    forEach (rewrite_import' source importer resolver timestamp) imports l st
      = (st', inr l') ∧
    MagicString.toString (buf l') =
      done +:+ Js.substring q pos source +:+ splice source resolver timestamp pos imports ∧
    (hasReplaced l = true -> hasReplaced l' = true) ∧
    (hasReplaced l' = false -> buf l' = buf l).
Proof.
  induction imports as [|imp imports IH]; intros l st q done pos Hp Hq Hpos Hord Hall.
  - exists st, l. split; [done|]. split; [|done].
    rewrite (patched_to_toString _ _ _ _ Hp). simpl.
    by rewrite (js_substring_app q pos (String.length source)) by lia.
  - apply Forall_cons in Hall as [Hplain Hall]. simpl in Hord |- *.
    destruct (is_static imp) eqn:Hs.
    + destruct Hord as (H1 & H2 & H3 & Hord).
      destruct (Hplain Hs) as (resolved & Hres & Hhmr).
      destruct (overwrite_patched source q done (buf l) (ImportSpecifier.s imp)
                  (ImportSpecifier.e imp) resolved Hp) as (m' & Hov & Hp'); try lia.
      destruct (rewrite_import_plain source importer resolver timestamp imp l st
                  resolved m' Hs Hres Hhmr (fun _ => Hov)) as (st1 & l1 & Hstep & Hb & Hh).
      unfold bind. rewrite Hstep.
      unfold replacement. rewrite Hres.
      destruct (String.eqb_spec resolved (specifier source imp)) as [Heq|Hne].
      * destruct (IH l1 st1 q done (ImportSpecifier.e imp)) as (st' & l' & G1 & G2 & G3 & G4);
          try done; try lia.
        { by rewrite Hb. }
        exists st', l'. split; [done|]. split; [|split].
        -- rewrite G2, Heq. unfold specifier.
           rewrite (js_substring_app q pos (ImportSpecifier.e imp)) by lia.
           rewrite (js_substring_app pos (ImportSpecifier.s imp) (ImportSpecifier.e imp))
             by lia.
           by rewrite !append_assoc.
        -- intros Hl. apply G3. by rewrite Hh.
        -- intros Hl. rewrite (G4 Hl). done.
      * destruct (IH l1 st1 (ImportSpecifier.e imp)
                    (done +:+ Js.substring q (ImportSpecifier.s imp) source +:+ resolved)
                    (ImportSpecifier.e imp))
          as (st' & l' & G1 & G2 & G3 & G4); try done; try lia.
        { by rewrite Hb. }
        exists st', l'. split; [done|]. split; [|split].
        -- rewrite G2, js_substring_empty.
           rewrite (js_substring_app q pos (ImportSpecifier.s imp)) by lia.
           by rewrite !append_assoc.
        -- intros _. by apply G3.
        -- intros Hl. rewrite G3 in Hl; done.
    + destruct (rewrite_import_other source importer resolver timestamp imp l st Hs)
        as (st1 & Hstep).
      unfold bind. rewrite Hstep.
      destruct (IH l st1 q done pos) as (st' & l' & G1 & G2 & G3 & G4); try done.
      exists st', l'. done.
Qed.

(** the pass over plain imports in source order completes with the
    splice *)
Lemma rewrite_body_splice source importer resolver timestamp imports :
  parseImports source = inr imports ->
  in_order (String.length source) 0 imports ->
  Forall (plain_import' source importer resolver timestamp) imports ->
  ∀ st0, snd (rewrite_body' source importer resolver timestamp st0) =
         inr (splice source resolver timestamp 0 imports).
Proof.
  intros Hparse Hord Hall st0.
  unfold rewrite_body. unfold bind at 1. unfold lift at 1. rewrite Hparse.
  destruct imports as [|i0 imports0].
  { simpl. by rewrite js_substring_all. }
  change (negb (Nat.eqb (length (i0 :: imports0)) 0)) with true. cbv iota.
  remember (i0 :: imports0) as imports eqn:Himports. clear Himports.
  unfold debug at 1. unfold bind at 1. unfold modify at 1.
  unfold bind at 1. unfold gets at 1. unfold bind at 1. unfold modify at 1.
  unfold bind at 1.
  match goal with |- context [forEach ?f ?xs ?l0 ?s0] =>
    destruct (forEach_splice source importer resolver timestamp xs l0 s0 0 EmptyString 0)
      as (st' & l' & G1 & G2 & G3 & G4) end; try done; try lia.
  { apply patched_to_create. }
  rewrite G1. rewrite js_substring_empty in G2.
  change (EmptyString +:+ EmptyString +:+ ?x) with x in G2.
  unfold bind, modify, ret, debug.
  assert (Hout : (if hasReplaced l' then MagicString.toString (buf l') else source) =
                 splice source resolver timestamp 0 imports).
  { destruct (hasReplaced l') eqn:Hh; [exact G2|].
    rewrite <- G2, (G4 eq_refl). unfold MagicString.toString. simpl.
    by rewrite append_nil_r. }
  destruct (importeeMap _ !! importer); simpl;
    destruct (hasReplaced l'); simpl; by rewrite <- Hout.
Qed.

(** X15: what the rewrite does to the text.  When the lexer lists the
    imports in source order with ranges that do not overlap and are not
    empty, and no static import is the HMR client imported from a
    script (the case handed to the HMR transformer) or makes the
    resolver throw, [rewriteImports] returns the source with the range
    of every static import replaced by its rewritten specifier, and
    every other character, the dynamic imports included, as it was; and
    the pass does not throw. *)
Theorem rewriteImports_splice source importer resolver timestamp st imports :
  parseImports source = inr imports ->
  in_order (String.length source) 0 imports ->
  Forall (plain_import' source importer resolver timestamp) imports ->
  fst (rewriteImports' source importer resolver timestamp st) =
    splice source resolver timestamp 0 imports ∧
  ∃ out, outcome' source importer resolver timestamp = inr out.
Proof.
  intros Hparse Hord Hall.
  pose proof (rewrite_body_splice source importer resolver timestamp imports
                Hparse Hord Hall) as Hbody.
  split.
  - rewrite rewriteImports_eq. specialize (Hbody st).
    destruct (rewrite_body' source importer resolver timestamp st) as [st1 [e|o]];
      simpl in *; congruence.
  - eexists. apply Hbody.
Qed.

(** *** Edges under responses and file changes *)

Lemma forward_same_graph st st' :
  importeeMap st' = importeeMap st -> importerMap st' = importerMap st ->
  forward st -> forward st'.
Proof.
  intros H1 H2 Hf I E. unfold importees, importers. rewrite H1, H2. apply Hf.
Qed.

Lemma replace_scripts_forward resolver pieces flag st :
  forward st -> forward (snd (replace_scripts' resolver pieces flag st)).
Proof.
  rewrite replace_scripts_state. generalize (scripts_of pieces). intros scripts.
  revert st. induction scripts as [|script scripts IH]; intros st Hf; simpl; [done|].
  apply IH. by apply rewriteImports_forward.
Qed.

Lemma serve_from_cache_forward key ctx st :
  forward st -> forward (snd (serve_from_cache key ctx st)).
Proof.
  unfold serve_from_cache. destruct (LRUCache.get key (rewriteCache st)).
  by apply forward_same_graph.
Qed.

Lemma middleware_forward resolver ctx st :
  forward st -> forward (snd (middleware' resolver ctx st)).
Proof.
  intros Hf. unfold middleware. destruct (Nat.eqb (status ctx) 304); [done|].
  assert (H1 : ∃ ctx1 st1,
    (if String.eqb (path ctx) "/index.html" then html_entry' resolver ctx st
     else (ctx, st)) = (ctx1, st1) ∧ forward st1).
  { destruct (String.eqb (path ctx) "/index.html"); [|by eauto].
    unfold html_entry. destruct (LRUCache.has _ _).
    - pose proof (serve_from_cache_forward (readBody (body ctx)) ctx
                    (emit (Debug "/index.html: serving from cache") st)) as H.
      destruct (serve_from_cache _ ctx _) as [ctx1 st1]. eauto.
    - destruct (body_truthy (body ctx)); [|by eauto].
      pose proof (replace_scripts_forward resolver
                    (scan_scripts 0 (readBody (body ctx))) false st Hf) as H.
      destruct (replace_scripts' resolver _ false st) as [out st1]. eauto. }
  destruct H1 as (ctx1 & st1 & -> & Hf1).
  destruct (_ && _); [|done].
  unfold script_response. destruct (LRUCache.has _ _).
  - by apply (serve_from_cache_forward _ ctx1 (emit _ st1)).
  - pose proof (rewriteImports_forward (readBody (body ctx1))
                  (Js.timestampRE_strip (url ctx1)) resolver (query_t ctx1) st1 Hf1) as H.
    destruct (rewriteImports' _ _ resolver _ st1) as [out st2]. exact H.
Qed.

Lemma run_events_forward resolver events st :
  forward st -> forward (run_events' resolver events st).
Proof.
  revert st. induction events as [|ev events IH]; intros st Hf; simpl; [done|].
  apply IH. destruct ev as [ctx|file]; simpl; [by apply middleware_forward|done].
Qed.

(** X16: whatever responses and file changes the plugin has handled
    since it was set up, also when passes threw or were served from the
    cache, every importee listed for an importer in [importeeMap] lists
    that importer in [importerMap]: the importer map misses no edge of
    the importee map. *)
Theorem edges_have_importers resolver events I E :
  let st := run_events' resolver events initial in
  E ∈ importees st I -> I ∈ importers st E.
Proof.
  apply run_events_forward. intros I' E'. apply symmetric_initial.
Qed.

(** *** The script blocks of a page *)

Lemma prefix_app n x y : String.prefix n x = true -> String.prefix n (x +:+ y) = true.
Proof.
  revert x. induction n as [|a n IH]; intros x; [by destruct (x +:+ y)|].
  destruct x as [|b x]; [done|]. rewrite append_cons. simpl.
  destruct (ascii_dec a b); [apply IH|done].
Qed.

Lemma find_sub_unfold needle s :
  Js.find_sub needle s =
  if String.prefix needle s then Some (EmptyString, Js.drop (String.length needle) s)
  else match s with
       | EmptyString => None
       | String c s' =>
           match Js.find_sub needle s' with
           | Some (before, after) => Some (String c before, after)
           | None => None
           end
       end.
Proof. by destruct s. Qed.

(** the text before the first occurrence holds no occurrence *)
Lemma find_sub_before needle s before after :
  needle ≠ EmptyString ->
  Js.find_sub needle s = Some (before, after) -> Js.find_sub needle before = None.
Proof.
  intros Hn. revert before after. induction s as [|c s IH]; intros before after;
    rewrite find_sub_unfold.
  - destruct (String.prefix needle EmptyString) eqn:Hp; [|intros; discriminate].
    destruct needle; [done|]. simpl in Hp. discriminate.
  - destruct (String.prefix needle (String c s)) eqn:Hp.
    + intros [= <- <-]. rewrite find_sub_unfold.
      destruct needle; [done|]. done.
    + destruct (Js.find_sub needle s) as [[b a]|] eqn:Hf; [|done].
      intros [= <- <-]. rewrite find_sub_unfold.
      assert (Hs : s = b +:+ needle +:+ a) by by apply find_sub_split.
      destruct (String.prefix needle (String c b)) eqn:Hpb.
      * apply (prefix_app _ _ (needle +:+ a)) in Hpb.
        rewrite append_cons, <- Hs in Hpb. congruence.
      * by rewrite (IH b a).
Qed.

(** the open tag ends at its first [>] *)
Lemma upto_gt_first s tag rest :
  Js.upto_gt s = Some (tag, rest) ->
  ∃ attrs, tag = attrs +:+ ">" ∧ Js.find_sub ">" attrs = None.
Proof.
  revert tag rest. induction s as [|c s IH]; intros tag rest; simpl; [done|].
  destruct (Ascii.eqb_spec c ">") as [->|Hc].
  - intros [= <- <-]. by exists EmptyString.
  - destruct (Js.upto_gt s) as [[t r]|]; [|done].
    intros [= <- <-]. destruct (IH t r eq_refl) as (attrs & -> & Hnone).
    exists (String c attrs). split; [by rewrite append_cons|].
    rewrite find_sub_unfold, Hnone.
    change (String.prefix ">" (String c attrs))
      with (if ascii_dec ">" c then String.prefix EmptyString attrs else false).
    destruct (ascii_dec ">" c); [congruence|done].
Qed.

Lemma scriptRE_match_at_shape s openTag script len :
  Js.scriptRE_match_at s = Some (openTag, script, len) ->
  (∃ attrs, openTag = "<script" +:+ attrs +:+ ">" ∧
            Js.find_sub ">" attrs = None ∧
            ∀ c rest, attrs +:+ ">" = String c rest -> Js.is_word_char c = false) ∧
  Js.find_sub "</script>" script = None.
Proof.
  unfold Js.scriptRE_match_at.
  destruct (String.prefix "<script" s) eqn:Hp; [|done].
  destruct (Js.drop 7 s) as [|c r] eqn:Hr; [done|].
  destruct (Js.is_word_char c) eqn:Hw; [done|].
  destruct (Js.upto_gt (String c r)) as [[attrs body]|] eqn:Hgt; [|done].
  destruct (Js.find_sub "</script>" body) as [[sc after]|] eqn:Hf; [|done].
  intros [= <- <- <-]. split.
  - destruct (upto_gt_first _ _ _ Hgt) as (a & -> & Hnone).
    apply upto_gt_split in Hgt.
    exists a. split; [done|]. split; [done|].
    intros c0 r0 Heq. rewrite Heq, append_cons in Hgt. by injection Hgt as -> _.
  - by apply (find_sub_before "</script>" body sc after).
Qed.

(** X17: the script blocks the page is cut into.  The open tag of a
    block is [<script], then characters other than [>] of which the
    first is no word character, then [>]; the script text holds no
    [</script>]: a block ends at the first closing tag after its open
    tag. *)
Theorem script_block_shape html openTag script :
  Script openTag script ∈ scan_scripts 0 html ->
  (∃ attrs, openTag = "<script" +:+ attrs +:+ ">" ∧
            Js.find_sub ">" attrs = None ∧
            ∀ c rest, attrs +:+ ">" = String c rest -> Js.is_word_char c = false) ∧
  Js.find_sub "</script>" script = None.
Proof.
  generalize 0. revert openTag script.
  induction html as [|c html IH]; intros openTag script skip; [by destruct skip; inversion 1|].
  destruct skip as [|k]; [|apply IH]. simpl scan_scripts.
  destruct (Js.scriptRE_match_at (String c html)) as [[[o sc] len]|] eqn:Hm.
  - intros [[= <- <-]|Hin]%elem_of_cons; [by eapply scriptRE_match_at_shape|].
    by eapply IH.
  - intros [[=]|Hin]%elem_of_cons. by eapply IH.
Qed.

(** *** The HMR client imported from a script *)

Lemma rewrite_import_hot source importer resolver timestamp imp l st :
  is_static imp = true ->
  Js.bareRE_test (specifier source imp) = true ->
  resolve_bare resolver (specifier source imp) = inr hmrClientPublicPath ->
  Js.vueRE_test importer = false ->
  (∀ m, ∃ err, rewriteFileWithHMR source importer m = inl err) ->
  ∃ err, snd (rewrite_import' source importer resolver timestamp imp l st) = inl err.
Proof.
  unfold is_static, specifier. intros Hs Hbare Hres Hvue Hfail.
  unfold rewrite_import. rewrite Hs, Hbare, Hres, Hvue.
  unfold bind, lift, ret. simpl. rewrite String.eqb_refl. simpl.
  destruct (Hfail (buf l)) as [err ->]. simpl. eauto.
Qed.

(** X18: a script, unlike a Vue file, that imports the HMR client is
    handed to the HMR transformer.  When a static import of a module
    whose importer is no Vue file resolves to the public path of the
    HMR client and the transformer throws, the pass throws and
    [rewriteImports] returns the source as it was given, whatever the
    other imports are. *)
Theorem hot_script_transformed source importer resolver timestamp st imports imp :
  parseImports source = inr imports ->
  In imp imports -> is_static imp = true ->
  Js.bareRE_test (specifier source imp) = true ->
  resolve_bare resolver (specifier source imp) = inr hmrClientPublicPath ->
  Js.vueRE_test importer = false ->
  (∀ m, ∃ err, rewriteFileWithHMR source importer m = inl err) ->
  fst (rewriteImports' source importer resolver timestamp st) = source ∧
  ∃ err, outcome' source importer resolver timestamp = inl err.
Proof.
  intros Hparse Hin Hs Hbare Hres Hvue Hfail.
  assert (Hout : ∃ err, outcome' source importer resolver timestamp = inl err).
  { unfold outcome, rewrite_body. unfold bind at 1. unfold lift at 1. rewrite Hparse.
    destruct imports as [|i0 imports0]; [done|].
    change (negb (Nat.eqb (length (i0 :: imports0)) 0)) with true. cbv iota.
    unfold debug at 1. unfold bind at 1. unfold modify at 1.
    unfold bind at 1. unfold gets at 1. unfold bind at 1. unfold modify at 1.
    unfold bind at 1.
    match goal with |- context [forEach ?f ?xs ?l0 ?s0] =>
      destruct (forEach_throws f imp xs
                  (fun l' st' => rewrite_import_hot source importer resolver
                                   timestamp imp l' st' Hs Hbare Hres Hvue Hfail)
                  Hin l0 s0) as [err Herr];
      destruct (forEach f xs l0 s0) as [st1 [e1|l1]] end; simpl in Herr; [|done].
    simpl. eauto. }
  split; [|exact Hout]. destruct Hout as [err Hout].
  rewrite rewriteImports_eq.
  pose proof (outcome_any_state source importer resolver timestamp st) as Hres'.
  destruct (rewrite_body' source importer resolver timestamp st) as [st1 [e1|o1]];
    simpl in *; [done|congruence].
Qed.

(** *** The parameters of the rewritten query *)

Lemma split_amp_app a b :
  split_amp (a +:+ String "&" b) = split_amp a ++ split_amp b.
Proof.
  induction a as [|c a IH]; [done|].
  rewrite append_cons. simpl. rewrite IH.
  destruct (Ascii.eqb c "&"); [done|].
  destruct (split_amp a) as [|p ps] eqn:Ha; [|done].
  by destruct a; simpl in Ha; repeat case_match.
Qed.

Lemma split_amp_plain s :
  Js.all_chars (fun c => negb (Ascii.eqb c "&")) s = true -> split_amp s = [s].
Proof.
  induction s as [|c s IH]; [done|]. simpl.
  intros [Hc Hs]%andb_true_iff. apply negb_true_iff in Hc. rewrite Hc.
  by rewrite IH.
Qed.

(** a refresh token adds one parameter, [t=token], after the parameters
    the query has *)
Lemma token_added_once query token :
  token ≠ EmptyString ->
  Js.all_chars (fun c => negb (Ascii.eqb c "&")) token = true ->
  query_params (with_token query (Some token)) =
  query_params query ++ ["t=" +:+ token].
Proof.
  intros Hne Htok. unfold with_token. simpl.
  destruct (String.eqb_spec token EmptyString); [done|]. simpl.
  destruct query as [|c q]; simpl.
  - by rewrite split_amp_plain.
  - change (split_amp (q +:+ String "&" ("t=" +:+ token)) =
            split_amp q ++ ["t=" +:+ token]).
    rewrite split_amp_app. f_equal. by apply split_amp_plain.
Qed.

(** *** Sources without import statements *)

Lemma forEach_other source importer resolver timestamp imports :
  Forall (fun imp => is_static imp = false) imports ->
  ∀ l st, ∃ st',
    forEach (rewrite_import' source importer resolver timestamp) imports l st = (st', inr l).
Proof.
  induction 1 as [|imp imports Hs Hall IH]; intros l st; simpl; [by eexists|].
  destruct (rewrite_import_other source importer resolver timestamp imp l st Hs)
    as [st1 Hstep].
  unfold bind. rewrite Hstep. apply IH.
Qed.

Lemma static_importees_other source importer resolver timestamp imports :
  Forall (fun imp => is_static imp = false) imports ->
  static_importees' source importer resolver timestamp imports = ∅.
Proof.
  unfold static_importees.
  induction 1 as [|imp imports Hs Hall IH]; [done|].
  rewrite fmap_cons, union_list_cons, IH.
  unfold contribution. rewrite Hs. set_solver.
Qed.

(** a pass over records none of which is static completes with the
    source *)
Lemma outcome_other source importer resolver timestamp imports :
  parseImports source = inr imports ->
  Forall (fun imp => is_static imp = false) imports ->
  outcome' source importer resolver timestamp = inr source.
Proof.
  intros Hparse Hall. unfold outcome, rewrite_body.
  unfold bind at 1. unfold lift at 1. rewrite Hparse.
  destruct imports as [|i0 imports0]; [done|].
  change (negb (Nat.eqb (length (i0 :: imports0)) 0)) with true. cbv iota.
  unfold debug at 1. unfold bind at 1. unfold modify at 1.
  unfold bind at 1. unfold gets at 1. unfold bind at 1. unfold modify at 1.
  unfold bind at 1.
  match goal with |- context [forEach ?f ?xs ?l0 ?s0] =>
    destruct (forEach_other source importer resolver timestamp xs Hall l0 s0)
      as [st' Hloop] end.
  rewrite Hloop. unfold bind, modify, ret, debug.
  destruct (importeeMap _ !! importer); reflexivity.
Qed.

(** C5, amended: for a source in which the lexer finds no static
    record (no import or export statement), [rewriteImports] returns
    the source unchanged.  When the lexer finds no record at all, both
    maps stay as they were.  When it finds records, dynamic imports or
    [import.meta], the pass runs: the entry of the importer becomes the
    empty set, and the importer leaves the importer set of each of its
    previous importees. *)
Theorem rewriteImports_no_imports source importer resolver timestamp st imports :
  parseImports source = inr imports ->
  Forall (fun imp => is_static imp = false) imports ->
  let st' := snd (rewriteImports' source importer resolver timestamp st) in
  fst (rewriteImports' source importer resolver timestamp st) = source ∧
  (imports = [] -> importeeMap st' = importeeMap st ∧ importerMap st' = importerMap st) ∧
  (imports ≠ [] ->
   importeeMap st' = <[importer := ∅]> (importeeMap st) ∧
   ∀ E, importers st' E =
        if decide (E ∈ importees st importer) then importers st E ∖ {[ importer ]}
        else importers st E).
Proof.
  intros Hparse Hall. simpl.
  pose proof (outcome_other _ importer resolver timestamp _ Hparse Hall) as Hout.
  split; [|split].
  - rewrite rewriteImports_eq.
    pose proof (outcome_any_state source importer resolver timestamp st) as Hres.
    destruct (rewrite_body' source importer resolver timestamp st) as [st1 [e|o]];
      simpl in *; congruence.
  - intros ->.
    destruct (rewriteImports_graph_unchanged source importer resolver timestamp st)
      as (H1 & H2 & _); [by right|]. done.
  - intros Hne.
    destruct (rewriteImports_graph_complete _ _ _ _ st _ _ Hparse Hne Hout)
      as (_ & G1 & _ & G2).
    rewrite (static_importees_other _ _ _ _ _ Hall) in G1, G2.
    split; [exact G1|]. intros E. rewrite G2.
    repeat case_decide; set_solver.
Qed.

(** *** Dynamic imports in the text returned *)

Lemma is_dynamic_not_static imp : is_dynamic imp = true -> is_static imp = false.
Proof. unfold is_dynamic, is_static. intros H%Z.leb_le. apply Z.eqb_neq. lia. Qed.

Lemma in_order_app_l len xs ys : ∀ pos,
  in_order len pos (xs ++ ys) -> in_order len pos xs.
Proof.
  induction xs as [|x xs IH]; intros pos H; simpl in *; [done|].
  destruct (is_static x); [|by apply IH].
  destruct H as (H1 & H2 & H3 & H4). repeat split; try done. by apply IH.
Qed.

Lemma in_order_In len i xs : ∀ pos,
  in_order len pos xs -> In i xs -> is_static i = true ->
  ImportSpecifier.s i < ImportSpecifier.e i ∧ ImportSpecifier.e i <= len.
Proof.
  induction xs as [|x xs IH]; intros pos H Hin Hs; simpl in *; [done|].
  destruct Hin as [->|Hin].
  - rewrite Hs in H. lia.
  - destruct (is_static x); [|by eapply IH].
    destruct H as (_ & _ & _ & H). by eapply IH.
Qed.

(** the splice may start later, up to the first static import *)
Lemma splice_from source resolver timestamp imports : ∀ pos pos2,
  pos <= pos2 -> pos2 <= String.length source ->
  Forall (fun i => is_static i = true -> pos2 <= ImportSpecifier.s i) imports ->
  splice source resolver timestamp pos imports =
  Js.substring pos pos2 source +:+ splice source resolver timestamp pos2 imports.
Proof.
  induction imports as [|i imports IH]; intros pos pos2 H1 H2 Hall; simpl.
  - by rewrite <- js_substring_app.
  - apply Forall_cons in Hall as [Hi Hall].
    destruct (is_static i) eqn:Hs; [|by apply IH].
    rewrite (js_substring_app pos pos2 (ImportSpecifier.s i)) by auto.
    by rewrite append_assoc.
Qed.

(** the splice around the range of an import that is not static *)
Lemma splice_around source resolver timestamp imp after before : ∀ pos,
  is_static imp = false ->
  pos <= ImportSpecifier.s imp -> ImportSpecifier.s imp <= ImportSpecifier.e imp ->
  ImportSpecifier.e imp <= String.length source ->
  in_order (String.length source) pos before ->
  Forall (fun i => is_static i = true -> ImportSpecifier.e i <= ImportSpecifier.s imp)
    before ->
  Forall (fun i => is_static i = true -> ImportSpecifier.e imp <= ImportSpecifier.s i)
    after ->
  splice source resolver timestamp pos (before ++ imp :: after) =
  splice_until source resolver timestamp pos before (ImportSpecifier.s imp)
  +:+ specifier source imp
  +:+ splice source resolver timestamp (ImportSpecifier.e imp) after.
Proof.
  intros pos Hs. revert pos.
  induction before as [|b before IH]; intros pos Hpos Hse Hlen Hord Hb Ha; simpl.
  - rewrite Hs.
    rewrite (splice_from _ _ _ after pos (ImportSpecifier.e imp)) by (done || lia).
    unfold specifier.
    rewrite (js_substring_app pos (ImportSpecifier.s imp) (ImportSpecifier.e imp)) by done.
    by rewrite append_assoc.
  - apply Forall_cons in Hb as [Hb0 Hb]. simpl in Hord.
    destruct (is_static b) eqn:Hsb.
    + destruct Hord as (O1 & O2 & O3 & O4).
      rewrite (IH (ImportSpecifier.e b)) by auto.
      by rewrite !append_assoc.
    + by apply IH.
Qed.

(** C8: a dynamic import is only logged, and its range is never
    edited.  The lexer lists the records in source order: the static
    ranges are not empty and do not overlap, the static records listed
    before the dynamic import end before its range and those listed
    after it start after its range.  Then the callback returns the
    variables of the pass as they were, with one more debug entry in
    the state; after the loop no chunk of the buffer that overlaps the
    range has been edited, provided the HMR transformer edits none; and
    when no static import calls for the HMR transformer or makes the
    resolver throw, the text [rewriteImports] returns is the rewritten
    text of the source before the range, the characters of the range as
    they are in the source, and the rewritten text of the source after
    the range. *)
Theorem dynamic_import_untouched source importer resolver timestamp st before imp after :
  parseImports source = inr (before ++ imp :: after) ->
  is_dynamic imp = true ->
  ImportSpecifier.s imp <= ImportSpecifier.e imp ->
  ImportSpecifier.e imp <= String.length source ->
  in_order (String.length source) 0 (before ++ imp :: after) ->
  Forall (fun i => is_static i = true -> ImportSpecifier.e i <= ImportSpecifier.s imp)
    before ->
  Forall (fun i => is_static i = true -> ImportSpecifier.e imp <= ImportSpecifier.s i)
    after ->
  (∀ l st0,
     rewrite_import' source importer resolver timestamp imp l st0 =
     (emit (Debug ("    dynamic import " +:+ Js.dquote +:+ specifier source imp
                   +:+ Js.dquote +:+ " (ignored)")) st0, inr l)) ∧
  ((∀ m m', rewriteFileWithHMR source importer m = inr m' ->
            MagicString.keeps source (ImportSpecifier.s imp) (ImportSpecifier.e imp) m ->
            MagicString.keeps source (ImportSpecifier.s imp) (ImportSpecifier.e imp) m') ->
   ∀ st0 st1 l',
     forEach (rewrite_import' source importer resolver timestamp) (before ++ imp :: after)
       {| buf := MagicString.create source; hasReplaced := false;
          currentImportees := ∅ |} st0 = (st1, inr l') ->
     MagicString.keeps source (ImportSpecifier.s imp) (ImportSpecifier.e imp) (buf l')) ∧
  (Forall (plain_import' source importer resolver timestamp) (before ++ imp :: after) ->
   fst (rewriteImports' source importer resolver timestamp st) =
   splice_until source resolver timestamp 0 before (ImportSpecifier.s imp)
   +:+ specifier source imp
   +:+ splice source resolver timestamp (ImportSpecifier.e imp) after).
Proof.
  intros Hparse Hdyn Hse Hlen Hord Hb Ha.
  pose proof (is_dynamic_not_static imp Hdyn) as Hns.
  split; [|split].
  - intros l st0. unfold is_static in Hns. unfold is_dynamic in Hdyn.
    unfold rewrite_import. rewrite Hns, Hdyn. reflexivity.
  - intros Hhmr st0 st1 l' Hloop.
    eapply forEach_keeps in Hloop; [exact Hloop| |exact Hhmr|].
    + intros i Hin Hs.
      destruct (in_order_In _ i _ _ Hord Hin Hs) as [Hi1 Hi2]. split; [lia|].
      apply in_app_or in Hin as [Hin|[->|Hin]].
      * left. rewrite Forall_forall in Hb. apply Hb; [|done].
        by apply list_elem_of_In.
      * congruence.
      * right. rewrite Forall_forall in Ha. apply Ha; [|done].
        by apply list_elem_of_In.
    + simpl. split; [done|]. split; [apply wf_create|apply intact_create].
  - intros Hplain.
    pose proof (rewrite_body_splice source importer resolver timestamp _
                  Hparse Hord Hplain st) as Hbody.
    rewrite rewriteImports_eq.
    destruct (rewrite_body' source importer resolver timestamp st) as [st1 [e|o]];
      simpl in *; [done|].
    injection Hbody as ->.
    apply splice_around; try done; try lia.
    by eapply in_order_app_l.
Qed.

End Properties.

(** * The properties on the small instance *)

Ltac by_computation := vm_compute; reflexivity.
Ltac in_set := refine (bool_decide_unpack _ _); vm_compute; exact I.
Ltac not_in_set := refine (bool_decide_unpack _ _); vm_compute; exact I.

(** C1: the served file [/root/main.js] changes.  Its rewritten body was
    stored under the raw body; the watcher handler deletes the key
    [/main.js], the public path of the file, which is the key of no
    entry; the lookup of the raw body is still a hit and returns the
    body rewritten before the change. *)
Theorem change_keeps_entry :
  let served := Demo.middleware Demo.resolver
                  (Demo.script_ctx "/main.js" Demo.source_main) initial in
  let rewritten := "import { x } from '/@modules/lib'" +:+ Js.lf +:+ "import './a.js'" in
  let st := on_change Demo.resolver "/root/main.js" (snd served) in
  body (fst served) = BodyString rewritten ∧
  fileToRequest Demo.resolver "/root/main.js" = "/main.js" ∧
  LRUCache.has Demo.source_main (rewriteCache st) = true ∧
  fst (LRUCache.get Demo.source_main (rewriteCache st)) = Some rewritten.
Proof. repeat split; by_computation. Qed.

Lemma rewriteImports_no_imports_witness :
  let st := Demo.run_calls [Demo.call Demo.source_a "/main.js"] initial in
  let plain := Demo.rewriteImports Demo.source_plain "/main.js" Demo.resolver None st in
  let dynamic := Demo.rewriteImports Demo.source_dynamic "/main.js" Demo.resolver None st in
  Demo.parseImports Demo.source_plain = inr [] ∧
  Demo.parseImports Demo.source_dynamic = inr [Demo.import_of 7 12 0] ∧
  fst plain = Demo.source_plain ∧
  importeeMap (snd plain) = importeeMap st ∧ importerMap (snd plain) = importerMap st ∧
  fst dynamic = Demo.source_dynamic ∧
  importeeMap (snd dynamic) = <["/main.js" := ∅]> (importeeMap st) ∧
  importers (snd dynamic) "/a.js" = importers st "/a.js" ∖ {[ "/main.js" ]}.
Proof.
  simpl. split; [reflexivity|]. split; [reflexivity|].
  destruct (rewriteImports_no_imports Demo.parseImports Demo.rewriteFileWithHMR
              Demo.hmrClientPublicPath Demo.path_dirname Demo.path_resolve Demo.slash
              Demo.source_plain "/main.js" Demo.resolver None
              (Demo.run_calls [Demo.call Demo.source_a "/main.js"] initial) [])
    as (P1 & P2 & _); [reflexivity|apply List.Forall_nil|].
  destruct (P2 eq_refl) as [P3 P4].
  destruct (rewriteImports_no_imports Demo.parseImports Demo.rewriteFileWithHMR
              Demo.hmrClientPublicPath Demo.path_dirname Demo.path_resolve Demo.slash
              Demo.source_dynamic "/main.js" Demo.resolver None
              (Demo.run_calls [Demo.call Demo.source_a "/main.js"] initial)
              [Demo.import_of 7 12 0])
    as (D1 & _ & D2).
  { reflexivity. }
  { apply List.Forall_cons; [reflexivity|apply List.Forall_nil]. }
  destruct D2 as [D3 D4]; [discriminate|].
  split; [exact P1|]. split; [exact P3|]. split; [exact P4|].
  split; [exact D1|]. split; [exact D3|].
  etransitivity; [apply (D4 "/a.js")|]. case_decide as Hin; [reflexivity|].
  exfalso. apply Hin. in_set.
Defined.

(** C5, as stated, fails: [import('./b')] holds no import or export
    statement, and the lexer reports the dynamic import.  [/main.js],
    which imported [./a], is rewritten with this source: the source is
    returned unchanged, but the entry of [/main.js] is emptied and
    [/a.js] no longer lists [/main.js]. *)
Lemma rewriteImports_no_imports_counterexample :
  let st := Demo.run_calls [Demo.call Demo.source_a "/main.js"] initial in
  let r := Demo.rewriteImports Demo.source_dynamic "/main.js" Demo.resolver None st in
  Demo.source_dynamic = "import('./b')" ∧
  Demo.parseImports Demo.source_dynamic = inr [Demo.import_of 7 12 0] ∧
  is_static (Demo.import_of 7 12 0) = false ∧
  fst r = Demo.source_dynamic ∧
  importeeMap (snd r) ≠ importeeMap st ∧ importerMap (snd r) ≠ importerMap st.
Proof.
  simpl. split; [reflexivity|]. split; [reflexivity|]. split; [reflexivity|].
  split; [by_computation|]. split; intros H.
  - apply (f_equal (fun m => bool_decide ("/a.js" ∈ members m "/main.js"))) in H.
    vm_compute in H. discriminate H.
  - apply (f_equal (fun m => bool_decide ("/main.js" ∈ members m "/a.js"))) in H.
    vm_compute in H. discriminate H.
Qed.

Lemma rewriteImports_lex_failure_witness :
  Demo.parseImports Demo.source_broken = inl (Error "Parse error @:1:8") ∧
  fst (Demo.rewriteImports Demo.source_broken "/a.js" Demo.resolver None initial)
    = Demo.source_broken.
Proof.
  split; [reflexivity|]. unfold Demo.rewriteImports.
  rewrite (rewriteImports_lex_failure Demo.parseImports Demo.rewriteFileWithHMR
             Demo.hmrClientPublicPath Demo.path_dirname Demo.path_resolve Demo.slash
             Demo.source_broken "/a.js" Demo.resolver None initial
             (Error "Parse error @:1:8")); reflexivity.
Defined.

Lemma rewriteImports_not_atomic_witness :
  Demo.parseImports Demo.source_empty_specifier
    = inr [Demo.import_of 8 11 (-1); Demo.import_of 21 21 (-1)] ∧
  outcome Demo.parseImports Demo.rewriteFileWithHMR Demo.hmrClientPublicPath
    Demo.path_dirname Demo.path_resolve Demo.slash
    Demo.source_empty_specifier "/main.js" Demo.resolver None
    = inl (Error "Cannot overwrite a zero-length range") ∧
  fst (Demo.rewriteImports Demo.source_empty_specifier "/main.js" Demo.resolver None
         (Demo.run_calls [Demo.call Demo.source_main "/main.js"] initial))
    = Demo.source_empty_specifier.
Proof.
  split; [reflexivity|]. split; [by_computation|].
  apply (rewriteImports_not_atomic Demo.parseImports Demo.rewriteFileWithHMR
           Demo.hmrClientPublicPath Demo.path_dirname Demo.path_resolve Demo.slash
           Demo.source_empty_specifier "/main.js" Demo.resolver None
           (Demo.run_calls [Demo.call Demo.source_main "/main.js"] initial)
           [Demo.import_of 8 11 (-1); Demo.import_of 21 21 (-1)]
           (Error "Cannot overwrite a zero-length range")).
  - reflexivity.
  - by_computation.
Defined.

(** C2, as stated, fails twice.  The converse half fails after a pass
    that threw after lexing: [/main.js] imports [lib] and [./a], and is
    then rewritten with a source whose second import has an empty
    specifier; [/@modules/lib] still lists [/main.js], whose entry no
    longer holds it.  The removal fails when the new source has no
    import record: [/main.js] imports [./a], the import is deleted and
    the module is rewritten again; the pass finds no record and leaves
    the graph alone, and [/a.js], which has left the importee set of
    the source, still lists [/main.js]. *)
Lemma graph_symmetry_counterexample :
  (let st := Demo.run_calls [Demo.call Demo.source_main "/main.js";
                             Demo.call Demo.source_empty_specifier "/main.js"] initial in
   ¬ (∀ I E, I ∈ importers st E -> E ∈ importees st I)) ∧
  (let st := Demo.run_calls [Demo.call Demo.source_a "/main.js"] initial in
   let st' := Demo.run_calls [Demo.call Demo.source_plain "/main.js"] st in
   let now := source_importees Demo.parseImports Demo.path_dirname Demo.path_resolve
                Demo.slash Demo.source_plain "/main.js" Demo.resolver None in
   now = ∅ ∧ "/a.js" ∈ importees st "/main.js" ∧
   ¬ (∀ E, E ∈ importees st "/main.js" -> E ∉ now -> "/main.js" ∉ importers st' E)).
Proof.
  simpl. split.
  - intros H. specialize (H "/main.js" "/@modules/lib"). revert H.
    intros H. assert (Hin : "/main.js" ∈ importers
      (Demo.run_calls [Demo.call Demo.source_main "/main.js";
                       Demo.call Demo.source_empty_specifier "/main.js"] initial)
      "/@modules/lib") by in_set.
    apply H in Hin. revert Hin. not_in_set.
  - split; [by_computation|]. split; [in_set|].
    intros H. apply (H "/a.js").
    + in_set.
    + not_in_set.
    + in_set.
Qed.

(** a pass that throws after lexing leaves an edge in one map only *)
Lemma late_throw_breaks_symmetry :
  let st := Demo.run_calls [Demo.call Demo.source_main "/main.js";
                            Demo.call Demo.source_empty_specifier "/main.js"] initial in
  "/main.js" ∈ importers st "/@modules/lib" ∧
  "/@modules/lib" ∉ importees st "/main.js".
Proof. simpl. split; [in_set|not_in_set]. Qed.

Lemma graph_symmetry_witness :
  let st := Demo.run_calls [Demo.call Demo.source_main "/main.js"] initial in
  let st' := Demo.run_calls [Demo.call Demo.source_a "/main.js"] st in
  (∀ I E, E ∈ importees st I -> I ∈ importers st E) ∧
  (∀ I E, I ∈ importers st E -> E ∈ importees st I) ∧
  importees st' "/main.js" = {[ "/a.js" ]} ∧
  "/@modules/lib" ∈ importees st "/main.js" ∧
  "/main.js" ∉ importers st' "/@modules/lib".
Proof.
  simpl.
  destruct (graph_symmetry Demo.parseImports Demo.rewriteFileWithHMR
              Demo.hmrClientPublicPath Demo.path_dirname Demo.path_resolve Demo.slash
              [Demo.call Demo.source_main "/main.js"] (Demo.call Demo.source_a "/main.js"))
    as (H1 & H2 & H3).
  destruct (H3 [Demo.import_of 8 11 (-1)]) as [G1 G2];
    [reflexivity|discriminate|by_computation|].
  split; [exact H1|]. split; [apply H2; repeat constructor|].
  split; [etransitivity; [apply G1|by_computation]|]. split; [in_set|].
  apply G2; [in_set|not_in_set].
Defined.



Lemma relative_specifier_resolved_witness :
  specifier Demo.source_main (Demo.import_of 32 35 (-1)) = "./a" ∧
  resolved_of Demo.source_main Demo.resolver None (Demo.import_of 32 35 (-1))
    = inr "./a.js" ∧
  resolved_of Demo.source_main Demo.resolver (Some "1588") (Demo.import_of 32 35 (-1))
    = inr "./a.js?t=1588".
Proof.
  split; [reflexivity|].
  destruct (relative_specifier_resolved Demo.source_main Demo.resolver
              (Demo.import_of 32 35 (-1)) "." "/a")
    as (_ & _ & Hnone & _ & Htoken).
  - reflexivity.
  - by left.
  - split; [exact Hnone|].
    destruct (Htoken "1588") as [Hq _]; [discriminate|]. apply Hq. reflexivity.
Defined.

Lemma dev_flag_injected_once_witness :
  LRUCache.has Demo.page (rewriteCache initial) = false ∧
  scan_scripts 0 Demo.page =
    (Text <$> list_ascii_of_string "<body>") ++
    Script "<script type=module>" Demo.source_a ::
    (Text <$> list_ascii_of_string "<p>hi</p>") ++
    Script "<script type=module>" Demo.source_b ::
    (Text <$> list_ascii_of_string "</body>") ∧
  body (fst (html_entry Demo.parseImports Demo.rewriteFileWithHMR
               Demo.hmrClientPublicPath Demo.path_dirname Demo.path_resolve Demo.slash
               Demo.resolver (Demo.html_ctx Demo.page) initial)) =
  BodyString
    ("<body>" +:+ devInjectionCode +:+
     "<script type=module>import './a.js'</script>" +:+
     "<p>hi</p><script type=module>import './b.js'</script></body>").
Proof.
  split; [reflexivity|]. split; [by_computation|].
  rewrite (dev_flag_injected_once Demo.parseImports Demo.rewriteFileWithHMR
             Demo.hmrClientPublicPath Demo.path_dirname Demo.path_resolve Demo.slash
             Demo.resolver (Demo.html_ctx Demo.page) initial
             (list_ascii_of_string "<body>") "<script type=module>" Demo.source_a
             ((Text <$> list_ascii_of_string "<p>hi</p>") ++
              Script "<script type=module>" Demo.source_b ::
              (Text <$> list_ascii_of_string "</body>"))).
  - by_computation.
  - reflexivity.
  - by_computation.
Defined.

Lemma html_blocks_share_importer_witness :
  scripts_of (scan_scripts 0 Demo.page) = [Demo.source_a] ++ [Demo.source_b] ∧
  let st := snd (html_entry Demo.parseImports Demo.rewriteFileWithHMR
                   Demo.hmrClientPublicPath Demo.path_dirname Demo.path_resolve
                   Demo.slash Demo.resolver (Demo.html_ctx Demo.page) initial) in
  importeeMap st !! "/index.html" = Some {[ "/b.js" ]} ∧
  "/index.html" ∉ importers st "/a.js".
Proof.
  split; [by_computation|]. simpl.
  destruct (html_blocks_share_importer Demo.parseImports Demo.rewriteFileWithHMR
              Demo.hmrClientPublicPath Demo.path_dirname Demo.path_resolve Demo.slash
              Demo.resolver (Demo.html_ctx Demo.page) initial
              [Demo.source_a] Demo.source_b) as (_ & _ & H1 & H2).
  - reflexivity.
  - by_computation.
  - simpl. apply List.Forall_cons; [split|apply List.Forall_cons; [split|apply List.Forall_nil]].
    + exists [Demo.import_of 8 11 (-1)]. split; [reflexivity|discriminate].
    + exists "import './a.js'". by_computation.
    + exists [Demo.import_of 8 11 (-1)]. split; [reflexivity|discriminate].
    + exists "import './b.js'". by_computation.
  - split.
    + rewrite H1. by_computation.
    + apply (H2 Demo.source_a).
      * apply list_elem_of_singleton. reflexivity.
      * in_set.
      * not_in_set.
Defined.

Lemma dynamic_import_untouched_witness :
  Demo.parseImports Demo.source_mixed
    = inr ([Demo.import_of 19 22 (-1)] ++ Demo.import_of 31 36 24 :: []) ∧
  is_dynamic (Demo.import_of 31 36 24) = true ∧
  specifier Demo.source_mixed (Demo.import_of 31 36 24) = "'./b'" ∧
  fst (Demo.rewriteImports Demo.source_mixed "/main.js" Demo.resolver None initial)
    = ("import { x } from '/@modules/lib'" +:+ Js.lf +:+ "import(") +:+ "'./b'" +:+ ")".
Proof.
  split; [reflexivity|]. split; [reflexivity|]. split; [reflexivity|].
  destruct (dynamic_import_untouched Demo.parseImports Demo.rewriteFileWithHMR
              Demo.hmrClientPublicPath Demo.path_dirname Demo.path_resolve Demo.slash
              Demo.source_mixed "/main.js" Demo.resolver None initial
              [Demo.import_of 19 22 (-1)] (Demo.import_of 31 36 24) [])
    as (_ & _ & Htext).
  - reflexivity.
  - reflexivity.
  - simpl. lia.
  - vm_compute. lia.
  - vm_compute. repeat split; lia.
  - apply List.Forall_cons; [intros _; simpl; lia|apply List.Forall_nil].
  - apply List.Forall_nil.
  - unfold Demo.rewriteImports. rewrite Htext; [by_computation|].
    apply List.Forall_cons; [|apply List.Forall_cons; [|apply List.Forall_nil]].
    + intros _. exists "/@modules/lib". split; [by_computation|]. intros _. by_computation.
    + intros H. discriminate H.
Defined.

(** the example of the specification: [lib] resolved by the resolver,
    [./a] without extension *)
Example rewrite_example :
  let result := Demo.rewriteImports Demo.source_main "/main.js" Demo.resolver None initial in
  fst result = "import { x } from '/@modules/lib'" +:+ Js.lf +:+ "import './a.js'" ∧
  importeeMap (snd result) !! "/main.js" = Some {[ "/@modules/lib"; "/a.js" ]}.
Proof. split; by_computation. Qed.

(** a dynamic import between static ones stays as it is *)
Example rewrite_mixed_example :
  fst (Demo.rewriteImports Demo.source_mixed "/main.js" Demo.resolver None initial)
  = "import { x } from '/@modules/lib'" +:+ Js.lf +:+ "import('./b')".
Proof. by_computation. Qed.

(** the page with two blocks: the snippet occurs once in the body
    served, and the served body is what a later request is answered
    with *)
Example page_example :
  let served := Demo.middleware Demo.resolver (Demo.html_ctx Demo.page) initial in
  let again := Demo.middleware Demo.resolver (Demo.html_ctx Demo.page) (snd served) in
  (∃ out, body (fst served) = BodyString out ∧ Js.count_sub devInjectionCode out = 1) ∧
  body (fst again) = body (fst served).
Proof.
  simpl. split; [|by_computation].
  eexists. split; [by_computation|by_computation].
Qed.

Lemma rewriteImports_twice_witness :
  throws_late Demo.parseImports Demo.rewriteFileWithHMR Demo.hmrClientPublicPath
    Demo.path_dirname Demo.path_resolve Demo.slash
    Demo.source_main "/main.js" Demo.resolver None = false ∧
  let st1 := snd (Demo.rewriteImports Demo.source_main "/main.js" Demo.resolver None initial) in
  let st2 := snd (Demo.rewriteImports Demo.source_main "/main.js" Demo.resolver None st1) in
  importeeMap st2 = importeeMap st1 ∧ ∀ E, importers st2 E = importers st1 E.
Proof.
  split; [by_computation|].
  apply (rewriteImports_twice Demo.parseImports Demo.rewriteFileWithHMR
           Demo.hmrClientPublicPath Demo.path_dirname Demo.path_resolve Demo.slash
           Demo.source_main "/main.js" Demo.resolver None initial).
  by_computation.
Defined.

Lemma vue_importer_not_transformed_witness :
  Js.vueRE_test "/App.vue" = true ∧
  rewriteImports Hot.parseImports Hot.failing Demo.hmrClientPublicPath
    Demo.path_dirname Demo.path_resolve Demo.slash
    Hot.source_hot "/App.vue" Hot.resolver None initial =
  rewriteImports Hot.parseImports Demo.rewriteFileWithHMR Demo.hmrClientPublicPath
    Demo.path_dirname Demo.path_resolve Demo.slash
    Hot.source_hot "/App.vue" Hot.resolver None initial.
Proof.
  split; [reflexivity|].
  apply (vue_importer_not_transformed Hot.parseImports Demo.rewriteFileWithHMR
           Demo.hmrClientPublicPath Demo.path_dirname Demo.path_resolve Demo.slash
           Hot.failing Hot.source_hot "/App.vue" Hot.resolver None initial).
  reflexivity.
Defined.

Lemma script_response_same_body_witness :
  let ctx1 := Demo.script_ctx "/main.js" Demo.source_main in
  let ctx2 := Demo.script_ctx "/other.js?t=1588" Demo.source_main in
  let first := script_response Demo.parseImports Demo.rewriteFileWithHMR
                 Demo.hmrClientPublicPath Demo.path_dirname Demo.path_resolve Demo.slash
                 Demo.resolver ctx1 initial in
  let second := script_response Demo.parseImports Demo.rewriteFileWithHMR
                  Demo.hmrClientPublicPath Demo.path_dirname Demo.path_resolve Demo.slash
                  Demo.resolver ctx2 (snd first) in
  LRUCache.has Demo.source_main (rewriteCache initial) = false ∧
  body (fst second) = body (fst first) ∧
  importeeMap (snd second) = importeeMap (snd first) ∧
  importerMap (snd second) = importerMap (snd first).
Proof.
  split; [reflexivity|].
  apply (script_response_same_body Demo.parseImports Demo.rewriteFileWithHMR
           Demo.hmrClientPublicPath Demo.path_dirname Demo.path_resolve Demo.slash
           Demo.resolver (Demo.script_ctx "/main.js" Demo.source_main)
           (Demo.script_ctx "/other.js?t=1588" Demo.source_main) initial).
  - vm_compute. lia.
  - reflexivity.
  - reflexivity.
Defined.

Lemma html_entry_no_script_witness :
  let ctx := Demo.html_ctx "<body><p>hi</p></body>" in
  let served := html_entry Demo.parseImports Demo.rewriteFileWithHMR
                  Demo.hmrClientPublicPath Demo.path_dirname Demo.path_resolve Demo.slash
                  Demo.resolver ctx initial in
  scripts_of (scan_scripts 0 "<body><p>hi</p></body>") = [] ∧
  readBody (body (fst served)) = "<body><p>hi</p></body>" ∧
  importeeMap (snd served) = importeeMap initial ∧
  importerMap (snd served) = importerMap initial.
Proof.
  split; [by_computation|].
  apply (html_entry_no_script Demo.parseImports Demo.rewriteFileWithHMR
           Demo.hmrClientPublicPath Demo.path_dirname Demo.path_resolve Demo.slash
           Demo.resolver (Demo.html_ctx "<body><p>hi</p></body>") initial).
  - reflexivity.
  - by_computation.
Defined.

Lemma html_entry_no_imports_witness :
  let html := "<body><script>" +:+ Demo.source_plain +:+ "</script></body>" in
  let served := html_entry Demo.parseImports Demo.rewriteFileWithHMR
                  Demo.hmrClientPublicPath Demo.path_dirname Demo.path_resolve Demo.slash
                  Demo.resolver (Demo.html_ctx html) initial in
  scan_scripts 0 html =
    (Text <$> list_ascii_of_string "<body>") ++
    Script "<script>" Demo.source_plain :: (Text <$> list_ascii_of_string "</body>") ∧
  ∃ tail,
    html = "<body>" +:+ "<script>" +:+ tail ∧
    body (fst served) =
      BodyString ("<body>" +:+ devInjectionCode +:+ "<script>" +:+ tail) ∧
    importeeMap (snd served) = importeeMap initial ∧
    importerMap (snd served) = importerMap initial.
Proof.
  split; [by_computation|].
  apply (html_entry_no_imports Demo.parseImports Demo.rewriteFileWithHMR
           Demo.hmrClientPublicPath Demo.path_dirname Demo.path_resolve Demo.slash
           Demo.resolver
           (Demo.html_ctx ("<body><script>" +:+ Demo.source_plain +:+ "</script></body>"))
           initial (list_ascii_of_string "<body>") "<script>" Demo.source_plain
           (Text <$> list_ascii_of_string "</body>")).
  - reflexivity.
  - by_computation.
  - vm_compute. apply List.Forall_cons; [reflexivity|apply List.Forall_nil].
Defined.

Lemma timestampRE_strip_app_witness :
  Js.timestampRE_strip "/main.js?t=1588&import" = "/main.js&import".
Proof.
  apply (timestampRE_strip_app "/main.js" "?"%char "1588" "&import").
  - reflexivity.
  - by left.
  - discriminate.
  - reflexivity.
  - reflexivity.
Defined.

Lemma resolve_path_stable_witness :
  resolve_path (resolve_path "./a?x=1" (Some "17")) None = resolve_path "./a?x=1" (Some "17") ∧
  resolve_path (resolve_path "./a?x=1" None) (Some "17") = resolve_path "./a?x=1" (Some "17") ∧
  resolve_path (resolve_path "./a?x=1" (Some "1588")) (Some "1588") =
    "./a.js?x=1&t=1588&t=1588".
Proof.
  apply (resolve_path_stable "./a?x=1" (Some "17") "1588").
  - reflexivity.
  - reflexivity.
  - discriminate.
Defined.

Lemma empty_specifier_stops_rewriting_witness :
  Demo.parseImports Demo.source_empty_specifier
    = inr [Demo.import_of 8 11 (-1); Demo.import_of 21 21 (-1)] ∧
  fst (Demo.rewriteImports Demo.source_empty_specifier "/main.js" Demo.resolver None initial)
    = Demo.source_empty_specifier ∧
  ∃ err, outcome Demo.parseImports Demo.rewriteFileWithHMR Demo.hmrClientPublicPath
           Demo.path_dirname Demo.path_resolve Demo.slash
           Demo.source_empty_specifier "/main.js" Demo.resolver None = inl err.
Proof.
  split; [reflexivity|].
  apply (empty_specifier_stops_rewriting Demo.parseImports Demo.rewriteFileWithHMR
           Demo.hmrClientPublicPath Demo.path_dirname Demo.path_resolve Demo.slash
           Demo.source_empty_specifier "/main.js" Demo.resolver None initial
           [Demo.import_of 8 11 (-1); Demo.import_of 21 21 (-1)]
           (Demo.import_of 21 21 (-1))).
  - reflexivity.
  - simpl. auto.
  - reflexivity.
  - reflexivity.
Defined.

Lemma rewriteImports_splice_witness :
  in_order (String.length Demo.source_main) 0
    [Demo.import_of 19 22 (-1); Demo.import_of 32 35 (-1)] ∧
  fst (Demo.rewriteImports Demo.source_main "/main.js" Demo.resolver (Some "1588") initial) =
    splice Demo.source_main Demo.resolver (Some "1588") 0
      [Demo.import_of 19 22 (-1); Demo.import_of 32 35 (-1)] ∧
  ∃ out, outcome Demo.parseImports Demo.rewriteFileWithHMR Demo.hmrClientPublicPath
           Demo.path_dirname Demo.path_resolve Demo.slash
           Demo.source_main "/main.js" Demo.resolver (Some "1588") = inr out.
Proof.
  assert (Hord : in_order (String.length Demo.source_main) 0
                   [Demo.import_of 19 22 (-1); Demo.import_of 32 35 (-1)]).
  { vm_compute. repeat split; lia. }
  split; [exact Hord|].
  apply (rewriteImports_splice Demo.parseImports Demo.rewriteFileWithHMR
           Demo.hmrClientPublicPath Demo.path_dirname Demo.path_resolve Demo.slash
           Demo.source_main "/main.js" Demo.resolver (Some "1588") initial
           [Demo.import_of 19 22 (-1); Demo.import_of 32 35 (-1)]).
  - reflexivity.
  - exact Hord.
  - apply List.Forall_cons; [|apply List.Forall_cons; [|apply List.Forall_nil]];
      intros _.
    + exists "/@modules/lib". split; [by_computation|]. intros _. by_computation.
    + exists "./a.js?t=1588". split; [by_computation|]. intros H. vm_compute in H. discriminate.
Defined.

(** the splice on the small instance: both specifiers replaced, the
    relative one with the token of the refresh *)
Example splice_example :
  splice Demo.source_main Demo.resolver (Some "1588") 0
    [Demo.import_of 19 22 (-1); Demo.import_of 32 35 (-1)] =
  "import { x } from '/@modules/lib'" +:+ Js.lf +:+ "import './a.js?t=1588'".
Proof. by_computation. Qed.

(** the HMR client imported from a script and from a Vue file, with a
    transformer that throws: the script is returned as it was given,
    the Vue file is rewritten *)
Example hot_example :
  let run importer :=
    fst (rewriteImports Hot.parseImports Hot.failing Demo.hmrClientPublicPath
           Demo.path_dirname Demo.path_resolve Demo.slash
           Hot.source_hot importer Hot.resolver None initial) in
  run "/main.js" = Hot.source_hot ∧
  run "/App.vue" = "import { hot } from '/@hmr'" +:+ Js.lf +:+ "import './a.js'".
Proof. split; by_computation. Qed.

Lemma edges_have_importers_witness :
  let st := run_events Demo.parseImports Demo.rewriteFileWithHMR Demo.hmrClientPublicPath
              Demo.path_dirname Demo.path_resolve Demo.slash Demo.resolver
              [Response (Demo.script_ctx "/main.js" Demo.source_main);
               Change "/root/main.js";
               Response (Demo.script_ctx "/main.js" Demo.source_empty_specifier)]
              initial in
  "/a.js" ∈ importees st "/main.js" ∧ "/main.js" ∈ importers st "/a.js".
Proof.
  assert (H : "/a.js" ∈ importees
                (run_events Demo.parseImports Demo.rewriteFileWithHMR
                   Demo.hmrClientPublicPath Demo.path_dirname Demo.path_resolve Demo.slash
                   Demo.resolver
                   [Response (Demo.script_ctx "/main.js" Demo.source_main);
                    Change "/root/main.js";
                    Response (Demo.script_ctx "/main.js" Demo.source_empty_specifier)]
                   initial) "/main.js").
  { in_set. }
  split; [exact H|].
  apply (edges_have_importers Demo.parseImports Demo.rewriteFileWithHMR
           Demo.hmrClientPublicPath Demo.path_dirname Demo.path_resolve Demo.slash
           Demo.resolver
           [Response (Demo.script_ctx "/main.js" Demo.source_main);
            Change "/root/main.js";
            Response (Demo.script_ctx "/main.js" Demo.source_empty_specifier)]
           "/main.js" "/a.js").
  exact H.
Defined.

Lemma script_block_shape_witness :
  scan_scripts 0 "<p><script type=module>import './a'</script></p>" =
    (Text <$> list_ascii_of_string "<p>") ++
    Script "<script type=module>" "import './a'" ::
    (Text <$> list_ascii_of_string "</p>") ∧
  (∃ attrs, "<script type=module>" = "<script" +:+ attrs +:+ ">" ∧
            Js.find_sub ">" attrs = None ∧
            ∀ c rest, attrs +:+ ">" = String c rest -> Js.is_word_char c = false) ∧
  Js.find_sub "</script>" "import './a'" = None.
Proof.
  assert (H : scan_scripts 0 "<p><script type=module>import './a'</script></p>" =
              (Text <$> list_ascii_of_string "<p>") ++
              Script "<script type=module>" "import './a'" ::
              (Text <$> list_ascii_of_string "</p>")) by by_computation.
  split; [exact H|].
  apply (script_block_shape "<p><script type=module>import './a'</script></p>"
           "<script type=module>" "import './a'").
  rewrite H. simpl. rewrite !elem_of_cons. auto.
Defined.

Lemma hot_script_transformed_witness :
  Hot.parseImports Hot.source_hot
    = inr [Demo.import_of 21 25 (-1); Demo.import_of 35 38 (-1)] ∧
  specifier Hot.source_hot (Demo.import_of 21 25 (-1)) = "@hmr" ∧
  resolve_bare Hot.resolver "@hmr" = inr Demo.hmrClientPublicPath ∧
  fst (rewriteImports Hot.parseImports Hot.failing Demo.hmrClientPublicPath
         Demo.path_dirname Demo.path_resolve Demo.slash
         Hot.source_hot "/main.js" Hot.resolver None initial) = Hot.source_hot ∧
  ∃ err, outcome Hot.parseImports Hot.failing Demo.hmrClientPublicPath
           Demo.path_dirname Demo.path_resolve Demo.slash
           Hot.source_hot "/main.js" Hot.resolver None = inl err.
Proof.
  split; [reflexivity|]. split; [reflexivity|]. split; [reflexivity|].
  apply (hot_script_transformed Hot.parseImports Hot.failing Demo.hmrClientPublicPath
           Demo.path_dirname Demo.path_resolve Demo.slash
           Hot.source_hot "/main.js" Hot.resolver None initial
           [Demo.import_of 21 25 (-1); Demo.import_of 35 38 (-1)]
           (Demo.import_of 21 25 (-1))).
  - reflexivity.
  - simpl. auto.
  - reflexivity.
  - reflexivity.
  - reflexivity.
  - reflexivity.
  - intros m. eexists. reflexivity.
Defined.
(** C3: the specifier [./v1.2/util] names a file without extension in
    a directory with a dot in its name.  The extension test is not
    anchored at the end of the path: it finds [.2] in the directory
    name, and the specifier is served as it is, without [.js]; the
    importee recorded is [/v1.2/util].  The same file in the directory
    [v12] gains [.js], with its query kept and the token added. *)
Theorem dotted_directory_no_extension :
  let run source timestamp :=
    Dotted.rewriteImports source "/main.js" Demo.resolver timestamp initial in
  Js.extRE_test "./v1.2/util" = true ∧
  fst (run Dotted.source_dotted None) = "import './v1.2/util'" ∧
  importeeMap (snd (run Dotted.source_dotted None)) !! "/main.js" = Some {[ "/v1.2/util" ]} ∧
  fst (run Dotted.source_undotted None) = "import './v12/util.js'" ∧
  fst (run Dotted.source_query (Some "1588")) = "import './v12/util.js?x=1&t=1588'".
Proof. simpl. repeat split; by_computation. Qed.

(** [overwrite] with the length of the text as start and an end before
    it: the library takes it for an insertion at the end, and the text
    after the end offset is no longer printed *)
Example overwrite_at_end :
  let text result :=
    match result with
    | inr m => Some (MagicString.toString m)
    | inl _ => None
    end in
  text (MagicString.overwrite 6 2 "X" (MagicString.create "abcdef")) = Some "abX" ∧
  text (MagicString.overwrite 4 2 "X" (MagicString.create "abcdef")) = None ∧
  text (MagicString.overwrite 2 4 "X" (MagicString.create "abcdef")) = Some "abXef".
Proof. simpl. repeat split; by_computation. Qed.
